(** * ConstructoraCALI: the project model of [Constructora.py]

    A shallow embedding of the computational core of the program: the
    currency formatter [formatear_valor] and the class [Proyecto] with its
    recomputation [_recalcular].

    Python's [float] is IEEE 754 binary64 with round-to-nearest-even, which is
    what Rocq's primitive [float] implements, so every float operation of the
    source is the same operation here, bit for bit.  Python's [int] is [Z].
    The exceptions the arithmetic can raise are kept: a computation returns
    [exn + A]. *)

From Stdlib Require Import ZArith Floats String Ascii List Bool Lia.
From Stdlib Require Import DecimalString.
From Stdlib Require DecimalFacts DecimalN.
From Stdlib Require Import Reals Lra.
Import ListNotations.

Set Warnings "-inexact-float".
#[local] Open Scope string_scope.
#[local] Open Scope Z_scope.

(** ** Python's numeric operations *)

Inductive exn : Type :=
| ZeroDivisionError
| OverflowError
| ValueError
| AttributeError.

Module Py.

(** [float(n)] for an [int]: the nearest binary64 value, ties to even;
    [OverflowError] when the integer is too large. *)
Definition float_of_int (n : Z) : exn + float :=
  match binary_normalize prec emax n 0 false with
  | S754_infinity _ => inl OverflowError
  | sf => inr (SF2Prim sf)
  end.

(** [x / y] on floats: [ZeroDivisionError] when [y == 0.0]. *)
Definition truediv (x y : float) : exn + float :=
  if (y =? 0)%float then inl ZeroDivisionError else inr (x / y)%float.

(** [a / b] on ints: the correctly rounded quotient. *)
Definition int_truediv (a b : Z) : exn + float :=
  if b =? 0 then inl ZeroDivisionError
  else
    let negate := xorb (a <? 0) (b <? 0) in
    if a =? 0 then inr (SF2Prim (S754_zero negate))
    else
      let '(q, e, l) := SFdiv_core_binary prec emax (Z.abs a) 0 (Z.abs b) 0 in
      match binary_round_aux prec emax negate q e l with
      | S754_infinity _ => inl OverflowError
      | sf => inr (SF2Prim sf)
      end.

(** [x / n] with a float [x] and an int [n]: [n] is converted first. *)
Definition truediv_int (x : float) (n : Z) : exn + float :=
  match float_of_int n with
  | inl e => inl e
  | inr y => truediv x y
  end.

(** [n * x] with an int [n] and a float [x]. *)
Definition int_mul (n : Z) (x : float) : exn + float :=
  match float_of_int n with
  | inl e => inl e
  | inr y => inr (y * x)%float
  end.

(** [math.floor]: an [int]; infinities and NaN have none. *)
Definition floor (x : float) : exn + Z :=
  match Prim2SF x with
  | S754_zero _ => inr 0
  | S754_finite s m e => inr (Z.shiftl (cond_Zopp s (Zpos m)) e)
  | S754_infinity _ => inl OverflowError
  | S754_nan => inl ValueError
  end.

(** [math.ceil]. *)
Definition ceil (x : float) : exn + Z :=
  match Prim2SF x with
  | S754_zero _ => inr 0
  | S754_finite s m e => inr (- Z.shiftl (cond_Zopp (negb s) (Zpos m)) e)
  | S754_infinity _ => inl OverflowError
  | S754_nan => inl ValueError
  end.

(** [x > 0] with a float [x] and the int [0]. *)
Definition gt0 (x : float) : bool := (0 <? x)%float.

(** [dict.get(key, default)] on a dict written as its list of items. *)
Fixpoint dict_get {V : Type} (d : list (string * V)) (key : string) (default : V) : V :=
  match d with
  | [] => default
  | (k, v) :: d' => if String.eqb k key then v else dict_get d' key default
  end.

End Py.

(** ** [formatear_valor] *)

Definition TASA_DE_CONVERSION : list (string * float) :=
  [("COP", 1.0%float); ("USD", (1 / 4000.0)%float); ("EUR", (1 / 4300.0)%float)].

Definition SIMBOLO_MONEDA : list (string * string) :=
  [("COP", "$"); ("USD", "$"); ("EUR", "€")].

Module Format.

(** The integer nearest to [m * 2^e * 100], ties to even: the digits
    [format(x, ".2f")] prints for the finite float [m * 2^e], which it
    rounds correctly from the exact binary value. *)
Definition centesimas (m : positive) (e : Z) : Z :=
  let n := Zpos m * 100 in
  if 0 <=? e then n * 2 ^ e
  else
    let d := 2 ^ (- e) in
    let q := n / d in
    let r := n mod d in
    match 2 * r ?= d with
    | Lt => q
    | Gt => q + 1
    | Eq => if Z.even q then q else q + 1
    end.

Definition decimal (n : Z) : string :=
  NilZero.string_of_uint (N.to_uint (Z.to_N n)).

(** A comma before every group of three digits, from the right. *)
Fixpoint agrupa (rev_digits : list ascii) (k : nat) (acc : string) : string :=
  match rev_digits with
  | [] => acc
  | c :: rest =>
      match k with
      | 3%nat => agrupa rest 1%nat (String c (String "," acc))
      | _ => agrupa rest (S k) (String c acc)
      end
  end.

Definition miles (n : Z) : string :=
  agrupa (rev (list_ascii_of_string (decimal n))) 0%nat "".

Definition dos_digitos (n : Z) : string :=
  (if n <? 10 then "0" else "") ++ decimal n.

(** [format(x, ",.2f")]. *)
Definition coma_2f (x : float) : string :=
  match Prim2SF x with
  | S754_nan => "nan"
  | S754_infinity s => if s then "-inf" else "inf"
  | S754_zero s => if s then "-0.00" else "0.00"
  | S754_finite s m e =>
      let n := centesimas m e in
      (if s then "-" else "") ++ miles (n / 100) ++ "." ++ dos_digitos (n mod 100)
  end.

End Format.

(** ** Reading a formatted amount back

    What [format(x, ",.2f")] promises, said without the formatter: the
    string read from the right is two digits, a point, and digits in groups
    of three with a comma after every group and nowhere else, and a minus
    sign at the far left or none. *)
Module Monto.

Definition es_digito (c : ascii) : bool :=
  let n := nat_of_ascii c in ((48 <=? n) && (n <=? 57))%nat.

(** The digits of the integer part, last digit first, and the sign; [k]
    digits have been read since the last comma. *)
Fixpoint sin_comas (rev_chars : list ascii) (k : nat) : option (list ascii * bool) :=
  match rev_chars with
  | [] => match k with O => None | _ => Some ([], false) end
  | c :: rest =>
      if Ascii.eqb c "-" then
        match rest, k with
        | [], S _ => Some ([], true)
        | _, _ => None
        end
      else
        match k with
        | 3%nat => if Ascii.eqb c "," then sin_comas rest 0 else None
        | _ =>
            if es_digito c then
              match sin_comas rest (S k) with
              | Some (ds, s) => Some (c :: ds, s)
              | None => None
              end
            else None
        end
  end.

(** The number a string of digits writes; no zero stands before another
    digit. *)
Definition entero (s : string) : option Z :=
  match s with
  | String "0" (String _ _) => None
  | _ =>
      match NilZero.uint_of_string s with
      | Some u => Some (Z.of_N (N.of_uint u))
      | None => None
      end
  end.

(** The sign and the hundredths a formatted amount writes. *)
Definition leer (s : string) : option (bool * Z) :=
  match rev (list_ascii_of_string s) with
  | d2 :: d1 :: "."%char :: ent =>
      match sin_comas ent 0, NilZero.uint_of_string (String d1 (String d2 "")) with
      | Some (rd, signo), Some c =>
          match entero (string_of_list_ascii (rev rd)) with
          | Some v => Some (signo, 100 * v + Z.of_N (N.of_uint c))
          | None => None
          end
      | _, _ => None
      end
  | _ => None
  end.

End Monto.

(** [moneda_actual] is a global of the module; it is the first argument. *)
Definition formatear_valor (moneda_actual : string) (valor_cop : float) : string :=
  let factor := Py.dict_get TASA_DE_CONVERSION moneda_actual 1.0%float in
  let convertido := (valor_cop * factor)%float in
  let simbolo := Py.dict_get SIMBOLO_MONEDA moneda_actual "$" in
  simbolo ++ " " ++ Format.coma_2f convertido ++ " " ++ moneda_actual.


(** ** The class [Proyecto] *)

(** A [datetime.date], as its proleptic Gregorian ordinal. *)
Definition date : Type := Z.

Record Proyecto : Type := mkProyecto {
  (* atributos fijados por __init__ o por la edicion *)
  pid : string;
  tipo : string;
  fecha_inicio : date;
  direccion : string;
  area_lote : float;
  precio_terreno_m2 : float;
  tamano : string;
  estrato : Z;
  habitaciones : Z;
  fecha_estimada_final : date;
  zonas_sociales : list string;
  porc_construccion : float;
  finalizado : bool;
  fecha_real_final : option date;
  (* atributos asignados por _recalcular; None = atributo aun no asignado *)
  area_construida : option float;
  area_no_construida : option float;
  area_min_vivienda : option float;
  num_viviendas : option Z;
  aptos_por_torre : option Z;
  num_torres : option Z;
  area_bodegas : option float;
  costo_terreno_total : option float;
  costo_construccion_m2 : option float;
  costo_construccion_total : option float;
  presupuesto_total : option float;
  ganancia : option float;
  precio_venta_m2 : option float;
  precio_venta_total : option float;
  valor_casa : option float
}.

Definition set_area_construida (v : float) (self : Proyecto) : Proyecto :=
  mkProyecto (pid self) (tipo self) (fecha_inicio self) (direccion self)
    (area_lote self) (precio_terreno_m2 self) (tamano self) (estrato self)
    (habitaciones self) (fecha_estimada_final self) (zonas_sociales self)
    (porc_construccion self) (finalizado self) (fecha_real_final self)
    (Some v) (area_no_construida self) (area_min_vivienda self)
    (num_viviendas self) (aptos_por_torre self) (num_torres self)
    (area_bodegas self) (costo_terreno_total self)
    (costo_construccion_m2 self) (costo_construccion_total self)
    (presupuesto_total self) (ganancia self) (precio_venta_m2 self)
    (precio_venta_total self) (valor_casa self).

Definition set_area_no_construida (v : float) (self : Proyecto) : Proyecto :=
  mkProyecto (pid self) (tipo self) (fecha_inicio self) (direccion self)
    (area_lote self) (precio_terreno_m2 self) (tamano self) (estrato self)
    (habitaciones self) (fecha_estimada_final self) (zonas_sociales self)
    (porc_construccion self) (finalizado self) (fecha_real_final self)
    (area_construida self) (Some v) (area_min_vivienda self)
    (num_viviendas self) (aptos_por_torre self) (num_torres self)
    (area_bodegas self) (costo_terreno_total self)
    (costo_construccion_m2 self) (costo_construccion_total self)
    (presupuesto_total self) (ganancia self) (precio_venta_m2 self)
    (precio_venta_total self) (valor_casa self).

Definition set_area_min_vivienda (v : float) (self : Proyecto) : Proyecto :=
  mkProyecto (pid self) (tipo self) (fecha_inicio self) (direccion self)
    (area_lote self) (precio_terreno_m2 self) (tamano self) (estrato self)
    (habitaciones self) (fecha_estimada_final self) (zonas_sociales self)
    (porc_construccion self) (finalizado self) (fecha_real_final self)
    (area_construida self) (area_no_construida self) (Some v)
    (num_viviendas self) (aptos_por_torre self) (num_torres self)
    (area_bodegas self) (costo_terreno_total self)
    (costo_construccion_m2 self) (costo_construccion_total self)
    (presupuesto_total self) (ganancia self) (precio_venta_m2 self)
    (precio_venta_total self) (valor_casa self).

Definition set_num_viviendas (v : Z) (self : Proyecto) : Proyecto :=
  mkProyecto (pid self) (tipo self) (fecha_inicio self) (direccion self)
    (area_lote self) (precio_terreno_m2 self) (tamano self) (estrato self)
    (habitaciones self) (fecha_estimada_final self) (zonas_sociales self)
    (porc_construccion self) (finalizado self) (fecha_real_final self)
    (area_construida self) (area_no_construida self) (area_min_vivienda self)
    (Some v) (aptos_por_torre self) (num_torres self) (area_bodegas self)
    (costo_terreno_total self) (costo_construccion_m2 self)
    (costo_construccion_total self) (presupuesto_total self) (ganancia self)
    (precio_venta_m2 self) (precio_venta_total self) (valor_casa self).

Definition set_aptos_por_torre (v : Z) (self : Proyecto) : Proyecto :=
  mkProyecto (pid self) (tipo self) (fecha_inicio self) (direccion self)
    (area_lote self) (precio_terreno_m2 self) (tamano self) (estrato self)
    (habitaciones self) (fecha_estimada_final self) (zonas_sociales self)
    (porc_construccion self) (finalizado self) (fecha_real_final self)
    (area_construida self) (area_no_construida self) (area_min_vivienda self)
    (num_viviendas self) (Some v) (num_torres self) (area_bodegas self)
    (costo_terreno_total self) (costo_construccion_m2 self)
    (costo_construccion_total self) (presupuesto_total self) (ganancia self)
    (precio_venta_m2 self) (precio_venta_total self) (valor_casa self).

Definition set_num_torres (v : Z) (self : Proyecto) : Proyecto :=
  mkProyecto (pid self) (tipo self) (fecha_inicio self) (direccion self)
    (area_lote self) (precio_terreno_m2 self) (tamano self) (estrato self)
    (habitaciones self) (fecha_estimada_final self) (zonas_sociales self)
    (porc_construccion self) (finalizado self) (fecha_real_final self)
    (area_construida self) (area_no_construida self) (area_min_vivienda self)
    (num_viviendas self) (aptos_por_torre self) (Some v) (area_bodegas self)
    (costo_terreno_total self) (costo_construccion_m2 self)
    (costo_construccion_total self) (presupuesto_total self) (ganancia self)
    (precio_venta_m2 self) (precio_venta_total self) (valor_casa self).

Definition set_area_bodegas (v : float) (self : Proyecto) : Proyecto :=
  mkProyecto (pid self) (tipo self) (fecha_inicio self) (direccion self)
    (area_lote self) (precio_terreno_m2 self) (tamano self) (estrato self)
    (habitaciones self) (fecha_estimada_final self) (zonas_sociales self)
    (porc_construccion self) (finalizado self) (fecha_real_final self)
    (area_construida self) (area_no_construida self) (area_min_vivienda self)
    (num_viviendas self) (aptos_por_torre self) (num_torres self) (Some v)
    (costo_terreno_total self) (costo_construccion_m2 self)
    (costo_construccion_total self) (presupuesto_total self) (ganancia self)
    (precio_venta_m2 self) (precio_venta_total self) (valor_casa self).

Definition set_costo_terreno_total (v : float) (self : Proyecto) : Proyecto :=
  mkProyecto (pid self) (tipo self) (fecha_inicio self) (direccion self)
    (area_lote self) (precio_terreno_m2 self) (tamano self) (estrato self)
    (habitaciones self) (fecha_estimada_final self) (zonas_sociales self)
    (porc_construccion self) (finalizado self) (fecha_real_final self)
    (area_construida self) (area_no_construida self) (area_min_vivienda self)
    (num_viviendas self) (aptos_por_torre self) (num_torres self)
    (area_bodegas self) (Some v) (costo_construccion_m2 self)
    (costo_construccion_total self) (presupuesto_total self) (ganancia self)
    (precio_venta_m2 self) (precio_venta_total self) (valor_casa self).

Definition set_costo_construccion_m2 (v : float) (self : Proyecto) : Proyecto :=
  mkProyecto (pid self) (tipo self) (fecha_inicio self) (direccion self)
    (area_lote self) (precio_terreno_m2 self) (tamano self) (estrato self)
    (habitaciones self) (fecha_estimada_final self) (zonas_sociales self)
    (porc_construccion self) (finalizado self) (fecha_real_final self)
    (area_construida self) (area_no_construida self) (area_min_vivienda self)
    (num_viviendas self) (aptos_por_torre self) (num_torres self)
    (area_bodegas self) (costo_terreno_total self) (Some v)
    (costo_construccion_total self) (presupuesto_total self) (ganancia self)
    (precio_venta_m2 self) (precio_venta_total self) (valor_casa self).

Definition set_costo_construccion_total (v : float) (self : Proyecto) : Proyecto :=
  mkProyecto (pid self) (tipo self) (fecha_inicio self) (direccion self)
    (area_lote self) (precio_terreno_m2 self) (tamano self) (estrato self)
    (habitaciones self) (fecha_estimada_final self) (zonas_sociales self)
    (porc_construccion self) (finalizado self) (fecha_real_final self)
    (area_construida self) (area_no_construida self) (area_min_vivienda self)
    (num_viviendas self) (aptos_por_torre self) (num_torres self)
    (area_bodegas self) (costo_terreno_total self)
    (costo_construccion_m2 self) (Some v) (presupuesto_total self)
    (ganancia self) (precio_venta_m2 self) (precio_venta_total self)
    (valor_casa self).

Definition set_presupuesto_total (v : float) (self : Proyecto) : Proyecto :=
  mkProyecto (pid self) (tipo self) (fecha_inicio self) (direccion self)
    (area_lote self) (precio_terreno_m2 self) (tamano self) (estrato self)
    (habitaciones self) (fecha_estimada_final self) (zonas_sociales self)
    (porc_construccion self) (finalizado self) (fecha_real_final self)
    (area_construida self) (area_no_construida self) (area_min_vivienda self)
    (num_viviendas self) (aptos_por_torre self) (num_torres self)
    (area_bodegas self) (costo_terreno_total self)
    (costo_construccion_m2 self) (costo_construccion_total self) (Some v)
    (ganancia self) (precio_venta_m2 self) (precio_venta_total self)
    (valor_casa self).

Definition set_ganancia (v : float) (self : Proyecto) : Proyecto :=
  mkProyecto (pid self) (tipo self) (fecha_inicio self) (direccion self)
    (area_lote self) (precio_terreno_m2 self) (tamano self) (estrato self)
    (habitaciones self) (fecha_estimada_final self) (zonas_sociales self)
    (porc_construccion self) (finalizado self) (fecha_real_final self)
    (area_construida self) (area_no_construida self) (area_min_vivienda self)
    (num_viviendas self) (aptos_por_torre self) (num_torres self)
    (area_bodegas self) (costo_terreno_total self)
    (costo_construccion_m2 self) (costo_construccion_total self)
    (presupuesto_total self) (Some v) (precio_venta_m2 self)
    (precio_venta_total self) (valor_casa self).

Definition set_precio_venta_m2 (v : float) (self : Proyecto) : Proyecto :=
  mkProyecto (pid self) (tipo self) (fecha_inicio self) (direccion self)
    (area_lote self) (precio_terreno_m2 self) (tamano self) (estrato self)
    (habitaciones self) (fecha_estimada_final self) (zonas_sociales self)
    (porc_construccion self) (finalizado self) (fecha_real_final self)
    (area_construida self) (area_no_construida self) (area_min_vivienda self)
    (num_viviendas self) (aptos_por_torre self) (num_torres self)
    (area_bodegas self) (costo_terreno_total self)
    (costo_construccion_m2 self) (costo_construccion_total self)
    (presupuesto_total self) (ganancia self) (Some v)
    (precio_venta_total self) (valor_casa self).

Definition set_precio_venta_total (v : float) (self : Proyecto) : Proyecto :=
  mkProyecto (pid self) (tipo self) (fecha_inicio self) (direccion self)
    (area_lote self) (precio_terreno_m2 self) (tamano self) (estrato self)
    (habitaciones self) (fecha_estimada_final self) (zonas_sociales self)
    (porc_construccion self) (finalizado self) (fecha_real_final self)
    (area_construida self) (area_no_construida self) (area_min_vivienda self)
    (num_viviendas self) (aptos_por_torre self) (num_torres self)
    (area_bodegas self) (costo_terreno_total self)
    (costo_construccion_m2 self) (costo_construccion_total self)
    (presupuesto_total self) (ganancia self) (precio_venta_m2 self) (Some v)
    (valor_casa self).

Definition set_valor_casa (v : float) (self : Proyecto) : Proyecto :=
  mkProyecto (pid self) (tipo self) (fecha_inicio self) (direccion self)
    (area_lote self) (precio_terreno_m2 self) (tamano self) (estrato self)
    (habitaciones self) (fecha_estimada_final self) (zonas_sociales self)
    (porc_construccion self) (finalizado self) (fecha_real_final self)
    (area_construida self) (area_no_construida self) (area_min_vivienda self)
    (num_viviendas self) (aptos_por_torre self) (num_torres self)
    (area_bodegas self) (costo_terreno_total self)
    (costo_construccion_m2 self) (costo_construccion_total self)
    (presupuesto_total self) (ganancia self) (precio_venta_m2 self)
    (precio_venta_total self) (Some v).

(** ** The state of a [Proyecto] object

    [_recalcular] assigns attributes of [self] one after the other and reads
    them back, and an exception leaves the assignments made so far in place.
    A method is a function from the object to the object it leaves and
    either the exception or the value. *)

Definition M (A : Type) : Type := Proyecto -> Proyecto * (exn + A).

Definition ret {A : Type} (a : A) : M A := fun self => (self, inr a).

Definition bind {A B : Type} (c : M A) (k : A -> M B) : M B :=
  fun self =>
    match c self with
    | (self', inr a) => k a self'
    | (self', inl e) => (self', inl e)
    end.

(** An operation that may raise. *)
Definition lift {A : Type} (r : exn + A) : M A := fun self => (self, r).

(** Reading an attribute [__init__] has set. *)
Definition field {A : Type} (f : Proyecto -> A) : M A :=
  fun self => (self, inr (f self)).

(** Reading an attribute [_recalcular] assigns: [AttributeError] before the
    first assignment. *)
Definition attr {A : Type} (f : Proyecto -> option A) : M A :=
  fun self =>
    match f self with
    | Some v => (self, inr v)
    | None => (self, inl AttributeError)
    end.

(** [self.x = v]. *)
Definition assign (upd : Proyecto -> Proyecto) : M unit :=
  fun self => (upd self, inr tt).

Declare Scope py_scope.
Delimit Scope py_scope with py.
Notation "x <- c ;; k" := (bind c (fun x => k))
  (at level 61, c at next level, right associativity) : py_scope.
Notation "c ;; k" := (bind c (fun _ => k))
  (at level 61, right associativity) : py_scope.
#[local] Open Scope py_scope.


(** ** [Proyecto._recalcular] *)

(** Step 1: built and unbuilt area. *)
Definition recalcular_areas : M unit :=
  area_lote_ <- field area_lote ;;
  porc <- field porc_construccion ;;
  q <- lift (Py.truediv porc 100) ;;
  assign (set_area_construida (area_lote_ * q)%float) ;;
  area_lote_ <- field area_lote ;;
  a <- attr area_construida ;;
  assign (set_area_no_construida (area_lote_ - a)%float).

(** Step 2.1 of the branch "casas": the local [precio_base_m2]. *)
Definition precio_base_m2_casas : M float :=
  area_lote_ <- field area_lote ;;
  precio <- field precio_terreno_m2 ;;
  let costo_terreno := (area_lote_ * precio)%float in
  e <- field estrato ;;
  costo_m2 <-
    lift (if e =? 3 then Py.int_truediv (1800000 + 2300000) 2
          else if e =? 4 then Py.int_truediv (2300000 + 2800000) 2
          else if e =? 5 then Py.int_truediv (2800000 + 3600000) 2
          else Py.int_truediv (3600000 + 4500000) 2) ;;
  a <- attr area_construida ;;
  let costo_construccion := (a * costo_m2)%float in
  let presupuesto_sin_ganancia := (costo_terreno + costo_construccion)%float in
  a <- attr area_construida ;;
  if Py.gt0 a then
    a <- attr area_construida ;;
    lift (Py.truediv (1.20 * presupuesto_sin_ganancia)%float a)
  else ret 0%float.

(** Steps 2.3 and 2.4, common shape of both branches: the optimum of the
    penalised revenue, at least 1, then capped by the capacity of the area. *)
Definition unidades (precio_base_m2 beta : float) : M Z :=
  n_opt <- lift (Py.truediv precio_base_m2 (2.0 * beta)%float) ;;
  fl <- lift (Py.floor n_opt) ;;
  let n_opt := Z.max 1 fl in
  a <- attr area_construida ;;
  m <- attr area_min_vivienda ;;
  q <- lift (Py.truediv a m) ;;
  capacidad_area <- lift (Py.floor q) ;;
  ret (if n_opt >? capacidad_area then capacidad_area else n_opt).

(** The branch [self.tipo == "casas"]. *)
Definition recalcular_casas : M unit :=
  tamano_ <- field tamano ;;
  (if String.eqb tamano_ "grande" then
     h <- field habitaciones ;;
     x <- lift (Py.int_mul h 30.0) ;;
     assign (set_area_min_vivienda (x + 40.0)%float)
   else if String.eqb tamano_ "mediana" then
     h <- field habitaciones ;;
     x <- lift (Py.int_mul h 25.0) ;;
     assign (set_area_min_vivienda (x + 35.0)%float)
   else
     assign (set_area_min_vivienda 60.0%float)) ;;
  precio_base_m2 <- precio_base_m2_casas ;;
  let beta_casas := 50000.0%float in
  n_opt <- unidades precio_base_m2 beta_casas ;;
  assign (set_num_viviendas n_opt).

(** Step 2.1 of the branch "edificio". *)
Definition precio_base_m2_edificio : M float :=
  area_lote_ <- field area_lote ;;
  precio <- field precio_terreno_m2 ;;
  let costo_terreno := (area_lote_ * precio)%float in
  e <- field estrato ;;
  costo_m2 <-
    lift (if e =? 3 then Py.int_truediv (1800000 + 2300000) 2
          else if e =? 4 then Py.int_truediv (2300000 + 2800000) 2
          else if e =? 5 then Py.int_truediv (2800000 + 3600000) 2
          else Py.int_truediv (3600000 + 4500000) 2) ;;
  a <- attr area_construida ;;
  let costo_construccion := (a * costo_m2)%float in
  let presupuesto_sin_ganancia := (costo_terreno + costo_construccion)%float in
  a <- attr area_construida ;;
  if Py.gt0 a then
    a <- attr area_construida ;;
    lift (Py.truediv (1.20 * presupuesto_sin_ganancia)%float a)
  else ret 0%float.

(** The branch [self.tipo == "edificio"]. *)
Definition recalcular_edificio : M unit :=
  h <- field habitaciones ;;
  x <- lift (Py.int_mul h 20.0) ;;
  assign (set_area_min_vivienda (x + 30.0)%float) ;;
  precio_base_m2 <- precio_base_m2_edificio ;;
  let beta_edificio := 80000.0%float in
  n_opt <- unidades precio_base_m2 beta_edificio ;;
  assign (set_num_viviendas n_opt) ;;
  let aptos_por_torre_ := 10 in
  n <- attr num_viviendas ;;
  q <- lift (Py.int_truediv n aptos_por_torre_) ;;
  num_torres_ <- lift (Py.ceil q) ;;
  n <- attr num_viviendas ;;
  assign (set_aptos_por_torre (Z.min aptos_por_torre_ n)) ;;
  assign (set_num_torres num_torres_).

(** The branch [else] (type "otro"). *)
Definition recalcular_otro : M unit :=
  area_lote_ <- field area_lote ;;
  assign (set_area_bodegas (area_lote_ * 0.70)%float) ;;
  assign (set_area_min_vivienda 100.0%float) ;;
  b <- attr area_bodegas ;;
  m <- attr area_min_vivienda ;;
  q <- lift (Py.truediv b m) ;;
  fl <- lift (Py.floor q) ;;
  assign (set_num_viviendas (Z.max 1 fl)).

(** Steps 3 to 10: costs, budget, profit, prices and the value of a unit. *)
Definition recalcular_costos : M unit :=
  area_lote_ <- field area_lote ;;
  precio <- field precio_terreno_m2 ;;
  assign (set_costo_terreno_total (area_lote_ * precio)%float) ;;
  e <- field estrato ;;
  costo_m2 <-
    lift (if e =? 3 then Py.int_truediv (1800000 + 2300000) 2
          else if e =? 4 then Py.int_truediv (2300000 + 2800000) 2
          else if e =? 5 then Py.int_truediv (2800000 + 3600000) 2
          else Py.int_truediv (3600000 + 4500000) 2) ;;
  assign (set_costo_construccion_m2 costo_m2) ;;
  a <- attr area_construida ;;
  c <- attr costo_construccion_m2 ;;
  assign (set_costo_construccion_total (a * c)%float) ;;
  ct <- attr costo_terreno_total ;;
  cc <- attr costo_construccion_total ;;
  assign (set_presupuesto_total (ct + cc)%float) ;;
  pt <- attr presupuesto_total ;;
  assign (set_ganancia (pt * 0.20)%float) ;;
  a <- attr area_construida ;;
  (if Py.gt0 a then
     pt <- attr presupuesto_total ;;
     a <- attr area_construida ;;
     pv <- lift (Py.truediv (1.20 * pt)%float a) ;;
     assign (set_precio_venta_m2 pv)
   else assign (set_precio_venta_m2 0.0%float)) ;;
  a <- attr area_construida ;;
  pv <- attr precio_venta_m2 ;;
  assign (set_precio_venta_total (a * pv)%float) ;;
  n <- attr num_viviendas ;;
  if n >? 0 then
    pvt <- attr precio_venta_total ;;
    n <- attr num_viviendas ;;
    v <- lift (Py.truediv_int pvt n) ;;
    assign (set_valor_casa v)
  else assign (set_valor_casa 0.0%float).

Definition _recalcular : M unit :=
  recalcular_areas ;;
  tipo_ <- field tipo ;;
  (if String.eqb tipo_ "casas" then recalcular_casas
   else if String.eqb tipo_ "edificio" then recalcular_edificio
   else recalcular_otro) ;;
  recalcular_costos.

(** ** [Proyecto.__init__] *)

Definition zonas_de_estrato (estrato : Z) : list string :=
  if estrato >=? 5 then ["Piscina"; "Sauna"; "Gimnasio"]
  else if estrato =? 4 then ["Piscina"; "Salon comun"]
  else if estrato =? 3 then ["Parque infantil"; "Salon comun"]
  else ["Zonas verdes"; "Parque infantil"].

Definition porc_de_tamano (tamano : string) : float :=
  if String.eqb tamano "grande" then 80.0%float
  else if String.eqb tamano "mediana" then 60.0%float
  else 45.0%float.

Definition __init__ (pid tipo : string) (fecha_inicio : date) (direccion : string)
    (area_lote precio_terreno_m2 : float) (tamano : string) (estrato habitaciones : Z)
    (fecha_estimada_final : date) : Proyecto * (exn + unit) :=
  _recalcular
    (mkProyecto pid tipo fecha_inicio direccion area_lote precio_terreno_m2 tamano
       estrato habitaciones fecha_estimada_final (zonas_de_estrato estrato)
       (porc_de_tamano tamano) false None
       None None None None None None None None None None None None None None None).


(** ** Reasoning about methods *)

(** Partial correctness: what holds of the value and of the object when the
    method returns normally. *)
Definition wp {A : Type} (c : M A) (Q : A -> Proyecto -> Prop) (self : Proyecto) : Prop :=
  match c self with
  | (self', inr a) => Q a self'
  | (_, inl _) => True
  end.

Lemma wp_run {A : Type} (c : M A) Q self self' a :
  wp c Q self -> c self = (self', inr a) -> Q a self'.
Proof. unfold wp. intros H E. rewrite E in H. exact H. Qed.

Lemma wp_ret {A : Type} (a : A) (Q : A -> Proyecto -> Prop) self :
  Q a self -> wp (ret a) Q self.
Proof. exact (fun H => H). Qed.

Lemma wp_bind {A B : Type} (c : M A) (k : A -> M B) Q self :
  wp c (fun a self' => wp (k a) Q self') self -> wp (bind c k) Q self.
Proof.
  unfold wp, bind. destruct (c self) as [self' [e | a]]; auto.
Qed.

Lemma wp_lift {A : Type} (r : exn + A) (Q : A -> Proyecto -> Prop) self :
  (forall a, r = inr a -> Q a self) -> wp (lift r) Q self.
Proof. unfold wp, lift. destruct r; auto. Qed.

Lemma wp_field {A : Type} (f : Proyecto -> A) (Q : A -> Proyecto -> Prop) self :
  Q (f self) self -> wp (field f) Q self.
Proof. exact (fun H => H). Qed.

Lemma wp_attr {A : Type} (f : Proyecto -> option A) (Q : A -> Proyecto -> Prop) self :
  (forall v, f self = Some v -> Q v self) -> wp (attr f) Q self.
Proof. unfold wp, attr. destruct (f self); auto. Qed.

Lemma wp_assign (upd : Proyecto -> Proyecto) (Q : unit -> Proyecto -> Prop) self :
  Q tt (upd self) -> wp (assign upd) Q self.
Proof. exact (fun H => H). Qed.

Lemma wp_conseq {A : Type} (c : M A) (Q Q' : A -> Proyecto -> Prop) self :
  wp c Q self -> (forall a self', Q a self' -> Q' a self') -> wp c Q' self.
Proof.
  unfold wp. destruct (c self) as [self' [e | a]]; auto.
Qed.

Ltac proj_simpl :=
  cbn [pid tipo fecha_inicio direccion area_lote precio_terreno_m2 tamano estrato
       habitaciones fecha_estimada_final zonas_sociales porc_construccion finalizado
       fecha_real_final area_construida area_no_construida area_min_vivienda
       num_viviendas aptos_por_torre num_torres area_bodegas costo_terreno_total
       costo_construccion_m2 costo_construccion_total presupuesto_total ganancia
       precio_venta_m2 precio_venta_total valor_casa
       set_area_construida set_area_no_construida set_area_min_vivienda
       set_num_viviendas set_aptos_por_torre set_num_torres set_area_bodegas
       set_costo_terreno_total set_costo_construccion_m2 set_costo_construccion_total
       set_presupuesto_total set_ganancia set_precio_venta_m2 set_precio_venta_total
       set_valor_casa] in *.

(** One step of symbolic execution of a method under [wp]. An operation or a
    test met before has the outcome it had. *)
Ltac wp_step :=
  lazymatch goal with
  | |- wp (bind _ _) _ _ => apply wp_bind
  | |- wp (ret _) _ _ => apply wp_ret
  | |- wp (field _) _ _ => apply wp_field
  | |- wp (assign _) _ _ => apply wp_assign
  | |- wp (attr _) _ _ =>
      apply wp_attr; proj_simpl;
      let v := fresh "v" in let E := fresh "E" in
      intros v E; first [ injection E as <- | idtac ]
  | |- wp (lift ?r) _ _ =>
      apply wp_lift; let a := fresh "a" in let E := fresh "E" in
      intros a E; proj_simpl;
      try match type of E with
          | ?r' = _ =>
              match goal with
              | H : r' = inr ?b |- _ =>
                  lazymatch H with E => fail | _ => idtac end;
                  rewrite H in E; injection E as <-
              end
          end
  | |- wp (if _ then _ else _) _ _ =>
      proj_simpl;
      lazymatch goal with
      | |- wp (if ?b then _ else _) _ _ =>
          first [ match goal with H : b = _ |- _ => rewrite H end
                | destruct b eqn:? ]
      end
  | |- wp (let _ := _ in _) _ _ => cbv zeta
  end; cbv beta iota.

Ltac wp_go := repeat wp_step.

(** *** What a method may raise *)

(** [Q] holds when the method returns, [E] of the exception when it raises. *)
Definition wpx {A : Type} (c : M A) (Q : A -> Proyecto -> Prop) (E : exn -> Prop)
    (self : Proyecto) : Prop :=
  match c self with
  | (self', inr a) => Q a self'
  | (_, inl e) => E e
  end.

Lemma wpx_ret {A : Type} (a : A) (Q : A -> Proyecto -> Prop) E self :
  Q a self -> wpx (ret a) Q E self.
Proof. exact (fun H => H). Qed.

Lemma wpx_bind {A B : Type} (c : M A) (k : A -> M B) Q E self :
  wpx c (fun a self' => wpx (k a) Q E self') E self -> wpx (bind c k) Q E self.
Proof.
  unfold wpx, bind. destruct (c self) as [self' [e | a]]; auto.
Qed.

Lemma wpx_lift {A : Type} (r : exn + A) (Q : A -> Proyecto -> Prop) (E : exn -> Prop) self :
  (forall a, r = inr a -> Q a self) -> (forall e, r = inl e -> E e) ->
  wpx (lift r) Q E self.
Proof. unfold wpx, lift. destruct r; auto. Qed.

Lemma wpx_field {A : Type} (f : Proyecto -> A) (Q : A -> Proyecto -> Prop) E self :
  Q (f self) self -> wpx (field f) Q E self.
Proof. exact (fun H => H). Qed.

Lemma wpx_attr {A : Type} (f : Proyecto -> option A) (Q : A -> Proyecto -> Prop)
    (E : exn -> Prop) self :
  (forall v, f self = Some v -> Q v self) -> (f self = None -> E AttributeError) ->
  wpx (attr f) Q E self.
Proof. unfold wpx, attr. destruct (f self); auto. Qed.

Lemma wpx_assign (upd : Proyecto -> Proyecto) (Q : unit -> Proyecto -> Prop) E self :
  Q tt (upd self) -> wpx (assign upd) Q E self.
Proof. exact (fun H => H). Qed.

(** One step of symbolic execution under [wpx]; [err] settles what an
    operation that raises leaves to prove. *)
Ltac wpx_step err :=
  lazymatch goal with
  | |- wpx (bind _ _) _ _ _ => apply wpx_bind
  | |- wpx (ret _) _ _ _ => apply wpx_ret
  | |- wpx (field _) _ _ _ => apply wpx_field
  | |- wpx (assign _) _ _ _ => apply wpx_assign
  | |- wpx (attr _) _ _ _ =>
      apply wpx_attr; proj_simpl;
      [ let v := fresh "v" in let E := fresh "E" in
        intros v E; first [ injection E as <- | idtac ]
      | let E := fresh "E" in intro E; first [ discriminate E | err ] ]
  | |- wpx (lift ?r) _ _ _ =>
      apply wpx_lift;
      [ let a := fresh "a" in let E := fresh "E" in
        intros a E; proj_simpl;
        try match type of E with
            | ?r' = _ =>
                match goal with
                | H : r' = inr ?b |- _ =>
                    lazymatch H with E => fail | _ => idtac end;
                    rewrite H in E; injection E as <-
                end
            end
      | let e := fresh "e" in let E := fresh "E" in
        intros e E; proj_simpl; err ]
  | |- wpx (if _ then _ else _) _ _ _ =>
      proj_simpl;
      lazymatch goal with
      | |- wpx (if ?b then _ else _) _ _ _ =>
          first [ match goal with H : b = _ |- _ => rewrite H end
                | destruct b eqn:? ]
      end
  | |- wpx (let _ := _ in _) _ _ _ => cbv zeta
  end; cbv beta iota.

Ltac wpx_go err := repeat (wpx_step err).


(** *** What a method leaves alone *)

(** The attributes [__init__] sets and [_recalcular] never assigns. *)
Definition mismos_datos (p q : Proyecto) : Prop :=
  pid q = pid p /\ tipo q = tipo p /\ fecha_inicio q = fecha_inicio p /\
  fecha_estimada_final q = fecha_estimada_final p /\ direccion q = direccion p /\
  area_lote q = area_lote p /\ precio_terreno_m2 q = precio_terreno_m2 p /\
  tamano q = tamano p /\ estrato q = estrato p /\ habitaciones q = habitaciones p /\
  porc_construccion q = porc_construccion p /\ finalizado q = finalizado p /\
  fecha_real_final q = fecha_real_final p /\ zonas_sociales q = zonas_sociales p.

Definition conserva {A : Type} (c : M A) : Prop :=
  forall self, mismos_datos self (fst (c self)).

Lemma mismos_datos_refl p : mismos_datos p p.
Proof. unfold mismos_datos. repeat split. Qed.

Lemma mismos_datos_trans p q r :
  mismos_datos p q -> mismos_datos q r -> mismos_datos p r.
Proof.
  unfold mismos_datos. intros H1 H2.
  repeat match goal with H : _ /\ _ |- _ => destruct H end.
  repeat split; congruence.
Qed.

Lemma mismos_datos_sym p q : mismos_datos p q -> mismos_datos q p.
Proof.
  unfold mismos_datos. intros H1.
  repeat match goal with H : _ /\ _ |- _ => destruct H end.
  repeat split; congruence.
Qed.

Lemma conserva_ret {A : Type} (a : A) : conserva (ret a).
Proof. intro p. apply mismos_datos_refl. Qed.

Lemma conserva_lift {A : Type} (r : exn + A) : conserva (lift r).
Proof. intro p. apply mismos_datos_refl. Qed.

Lemma conserva_field {A : Type} (f : Proyecto -> A) : conserva (field f).
Proof. intro p. apply mismos_datos_refl. Qed.

Lemma conserva_attr {A : Type} (f : Proyecto -> option A) : conserva (attr f).
Proof. intro p. unfold attr. destruct (f p); apply mismos_datos_refl. Qed.

Lemma conserva_bind {A B : Type} (c : M A) (k : A -> M B) :
  conserva c -> (forall a, conserva (k a)) -> conserva (bind c k).
Proof.
  intros Hc Hk p. unfold bind. specialize (Hc p).
  destruct (c p) as [p' [e | a]]; cbn [fst] in *; auto.
  eapply mismos_datos_trans; [exact Hc | apply Hk].
Qed.

Lemma conserva_if {A : Type} (b : bool) (c1 c2 : M A) :
  conserva c1 -> conserva c2 -> conserva (if b then c1 else c2).
Proof. destruct b; auto. Qed.

(** Each assignment of [_recalcular] writes a derived attribute. *)
Definition es_derivado (upd : Proyecto -> Proyecto) : Prop :=
  forall p, mismos_datos p (upd p).

Lemma conserva_assign upd : es_derivado upd -> conserva (assign upd).
Proof. intros H p. apply H. Qed.

Ltac es_derivado := intro; unfold mismos_datos; proj_simpl; repeat split.

Ltac conserva_step :=
  lazymatch goal with
  | |- conserva (bind _ _) => apply conserva_bind; [ | intro ]
  | |- conserva (ret _) => apply conserva_ret
  | |- conserva (lift _) => apply conserva_lift
  | |- conserva (field _) => apply conserva_field
  | |- conserva (attr _) => apply conserva_attr
  | |- conserva (assign _) => apply conserva_assign; es_derivado
  | |- conserva (if _ then _ else _) => apply conserva_if
  | |- conserva (let _ := _ in _) => cbv zeta
  end.

Lemma conserva_recalcular : conserva _recalcular.
Proof.
  unfold _recalcular, recalcular_areas, recalcular_casas, recalcular_edificio,
    recalcular_otro, recalcular_costos, precio_base_m2_casas, precio_base_m2_edificio,
    unidades.
  repeat conserva_step.
Qed.

(** *** Two runs side by side *)

(** After running a method from two objects, a derived attribute either has
    been assigned the same value in both, or is as it was in each. *)
Definition tocado {A : Type} (f : Proyecto -> option A) (p q p' q' : Proyecto) : Prop :=
  f p' = f q' \/ (f p' = f p /\ f q' = f q).

Definition marco (p q p' q' : Proyecto) : Prop :=
  mismos_datos p p' /\ mismos_datos q q' /\
  tocado area_construida p q p' q' /\ tocado area_no_construida p q p' q' /\
  tocado area_min_vivienda p q p' q' /\ tocado num_viviendas p q p' q' /\
  tocado aptos_por_torre p q p' q' /\ tocado num_torres p q p' q' /\
  tocado area_bodegas p q p' q' /\ tocado costo_terreno_total p q p' q' /\
  tocado costo_construccion_m2 p q p' q' /\
  tocado costo_construccion_total p q p' q' /\
  tocado presupuesto_total p q p' q' /\ tocado ganancia p q p' q' /\
  tocado precio_venta_m2 p q p' q' /\ tocado precio_venta_total p q p' q' /\
  tocado valor_casa p q p' q'.

Definition igual {A : Type} (f : Proyecto -> option A) (p q : Proyecto) : Prop :=
  f p = f q.

(** The attributes known to be equal in both objects. *)
Fixpoint todas (S : list (Proyecto -> Proyecto -> Prop)) (p q : Proyecto) : Prop :=
  match S with
  | [] => True
  | R :: S' => R p q /\ todas S' p q
  end.

Definition sim (S : list (Proyecto -> Proyecto -> Prop)) (p q : Proyecto) : Prop :=
  mismos_datos p q /\ todas S p q.

Definition rel {A : Type} (c : M A) (S S' : list (Proyecto -> Proyecto -> Prop)) : Prop :=
  forall p q, sim S p q ->
    snd (c p) = snd (c q) /\
    marco p q (fst (c p)) (fst (c q)) /\
    (forall a, snd (c p) = inr a -> sim S' (fst (c p)) (fst (c q))).

Lemma tocado_refl {A : Type} (f : Proyecto -> option A) p q : tocado f p q p q.
Proof. right. split; reflexivity. Qed.

Lemma tocado_trans {A : Type} (f : Proyecto -> option A) p q p1 q1 p2 q2 :
  tocado f p q p1 q1 -> tocado f p1 q1 p2 q2 -> tocado f p q p2 q2.
Proof.
  unfold tocado. intros [H1 | [H1 H1']] [H2 | [H2 H2']].
  - left; exact H2.
  - left; congruence.
  - left; exact H2.
  - right; split; congruence.
Qed.

Lemma marco_refl p q : marco p q p q.
Proof.
  unfold marco. repeat split; try apply mismos_datos_refl.
  all: apply tocado_refl.
Qed.

Lemma marco_trans p q p1 q1 p2 q2 :
  marco p q p1 q1 -> marco p1 q1 p2 q2 -> marco p q p2 q2.
Proof.
  unfold marco. intros H1 H2.
  repeat match goal with H : _ /\ _ |- _ => destruct H end.
  repeat match goal with
         | |- _ /\ _ => split
         | |- mismos_datos _ _ => eapply mismos_datos_trans; eassumption
         | |- tocado _ _ _ _ _ => eapply tocado_trans; eassumption
         end.
Qed.

Lemma rel_ret {A : Type} (a : A) S : rel (ret a) S S.
Proof.
  intros p q H. cbn. split; [reflexivity | split; [apply marco_refl | auto]].
Qed.

Lemma rel_lift {A : Type} (r : exn + A) S : rel (lift r) S S.
Proof.
  intros p q H. cbn. split; [reflexivity | split; [apply marco_refl | auto]].
Qed.

(** Reading an attribute that both objects agree on. *)
Lemma rel_field {A : Type} (f : Proyecto -> A) S :
  (forall p q, mismos_datos p q -> f q = f p) -> rel (field f) S S.
Proof.
  intros Hf p q H. cbn. split; [ | split; [apply marco_refl | auto]].
  rewrite (Hf p q); [reflexivity | apply H].
Qed.

Lemma rel_attr {A : Type} (f : Proyecto -> option A) S :
  (forall p q, todas S p q -> f p = f q) -> rel (attr f) S S.
Proof.
  intros Hf p q H. unfold attr. rewrite <- (Hf p q) by apply H.
  destruct (f p); cbn; (split; [reflexivity | split; [apply marco_refl | auto]]).
Qed.

Lemma rel_assign upd S S' :
  (forall p q, marco p q (upd p) (upd q)) ->
  (forall p q, sim S p q -> sim S' (upd p) (upd q)) ->
  rel (assign upd) S S'.
Proof.
  intros Hm Hs p q H. cbn. split; [reflexivity | split; [apply Hm | auto]].
Qed.

Lemma rel_bind {A B : Type} (c : M A) (k : A -> M B) S S1 S2 :
  rel c S S1 -> (forall a, rel (k a) S1 S2) -> rel (bind c k) S S2.
Proof.
  intros Hc Hk p q H. unfold bind.
  destruct (Hc p q H) as (Hr & Hm & Hs).
  destruct (c p) as [p1 [e | a]], (c q) as [q1 [e' | a']]; cbn [fst snd] in *;
    try discriminate.
  - injection Hr as <-. split; [reflexivity | split; [exact Hm | intros; discriminate]].
  - injection Hr as <-.
    destruct (Hk a p1 q1 (Hs a eq_refl)) as (Hr' & Hm' & Hs').
    split; [exact Hr' | split; [ | exact Hs']].
    eapply marco_trans; eassumption.
Qed.

Lemma rel_if {A : Type} (b : bool) (c1 c2 : M A) S S' :
  rel c1 S S' -> rel c2 S S' -> rel (if b then c1 else c2) S S'.
Proof. destruct b; auto. Qed.

(** Forgetting what is known. *)
Lemma rel_post {A : Type} (c : M A) S S1 S2 :
  rel c S S1 -> (forall p q, todas S1 p q -> todas S2 p q) -> rel c S S2.
Proof.
  intros Hc Hw p q H. destruct (Hc p q H) as (Hr & Hm & Hs).
  split; [exact Hr | split; [exact Hm | ]].
  intros a Ha. destruct (Hs a Ha) as [H1 H2]. split; [exact H1 | auto].
Qed.

Ltac marco_assign :=
  intros; unfold marco; repeat split;
  first [ solve [left; reflexivity] | solve [right; split; reflexivity] | idtac ].

Ltac sim_assign :=
  let H := fresh in
  intros ? ? H; unfold sim, mismos_datos, igual in *; cbn [todas] in *; proj_simpl;
  intuition auto.

(** The attribute a setter assigns. *)
Ltac rel_asigna :=
  lazymatch goal with
  | |- rel (assign (set_area_construida _)) ?S _ =>
      eapply (rel_assign _ S (igual area_construida :: S)); [ marco_assign | sim_assign ]
  | |- rel (assign (set_area_no_construida _)) ?S _ =>
      eapply (rel_assign _ S (igual area_no_construida :: S)); [ marco_assign | sim_assign ]
  | |- rel (assign (set_area_min_vivienda _)) ?S _ =>
      eapply (rel_assign _ S (igual area_min_vivienda :: S)); [ marco_assign | sim_assign ]
  | |- rel (assign (set_num_viviendas _)) ?S _ =>
      eapply (rel_assign _ S (igual num_viviendas :: S)); [ marco_assign | sim_assign ]
  | |- rel (assign (set_aptos_por_torre _)) ?S _ =>
      eapply (rel_assign _ S (igual aptos_por_torre :: S)); [ marco_assign | sim_assign ]
  | |- rel (assign (set_num_torres _)) ?S _ =>
      eapply (rel_assign _ S (igual num_torres :: S)); [ marco_assign | sim_assign ]
  | |- rel (assign (set_area_bodegas _)) ?S _ =>
      eapply (rel_assign _ S (igual area_bodegas :: S)); [ marco_assign | sim_assign ]
  | |- rel (assign (set_costo_terreno_total _)) ?S _ =>
      eapply (rel_assign _ S (igual costo_terreno_total :: S)); [ marco_assign | sim_assign ]
  | |- rel (assign (set_costo_construccion_m2 _)) ?S _ =>
      eapply (rel_assign _ S (igual costo_construccion_m2 :: S)); [ marco_assign | sim_assign ]
  | |- rel (assign (set_costo_construccion_total _)) ?S _ =>
      eapply (rel_assign _ S (igual costo_construccion_total :: S)); [ marco_assign | sim_assign ]
  | |- rel (assign (set_presupuesto_total _)) ?S _ =>
      eapply (rel_assign _ S (igual presupuesto_total :: S)); [ marco_assign | sim_assign ]
  | |- rel (assign (set_ganancia _)) ?S _ =>
      eapply (rel_assign _ S (igual ganancia :: S)); [ marco_assign | sim_assign ]
  | |- rel (assign (set_precio_venta_m2 _)) ?S _ =>
      eapply (rel_assign _ S (igual precio_venta_m2 :: S)); [ marco_assign | sim_assign ]
  | |- rel (assign (set_precio_venta_total _)) ?S _ =>
      eapply (rel_assign _ S (igual precio_venta_total :: S)); [ marco_assign | sim_assign ]
  | |- rel (assign (set_valor_casa _)) ?S _ =>
      eapply (rel_assign _ S (igual valor_casa :: S)); [ marco_assign | sim_assign ]
  end.

(** Both runs of a method, statement by statement. *)
Ltac rel_go :=
  lazymatch goal with
  | |- rel (bind _ _) _ _ => eapply rel_bind; [ rel_go | intro; rel_go ]
  | |- rel (ret _) _ _ => apply rel_ret
  | |- rel (lift _) _ _ => apply rel_lift
  | |- rel (field _) _ _ =>
      apply rel_field; unfold mismos_datos; intros; intuition auto
  | |- rel (attr _) _ _ =>
      apply rel_attr; unfold igual; cbn [todas]; intros; intuition auto
  | |- rel (assign _) _ _ => rel_asigna
  | |- rel (if _ then _ else _) _ _ => apply rel_if; rel_go
  | |- rel (let _ := _ in _) _ _ => cbv zeta; rel_go
  end.

Ltac olvida := cbn [todas]; intros; intuition auto.

Definition S_areas : list (Proyecto -> Proyecto -> Prop) :=
  [igual area_no_construida; igual area_construida].

Definition S_unidades : list (Proyecto -> Proyecto -> Prop) :=
  [igual num_viviendas; igual area_construida].

Lemma rel_areas : rel recalcular_areas [] S_areas.
Proof. unfold recalcular_areas, S_areas. rel_go. Qed.

Lemma rel_casas : rel recalcular_casas S_areas S_unidades.
Proof.
  unfold recalcular_casas, precio_base_m2_casas, unidades, S_areas.
  eapply rel_post; [ rel_go | unfold S_unidades; olvida ].
Qed.

Lemma rel_edificio : rel recalcular_edificio S_areas S_unidades.
Proof.
  unfold recalcular_edificio, precio_base_m2_edificio, unidades, S_areas.
  eapply rel_post; [ rel_go | unfold S_unidades; olvida ].
Qed.

Lemma rel_otro : rel recalcular_otro S_areas S_unidades.
Proof.
  unfold recalcular_otro, S_areas.
  eapply rel_post; [ rel_go | unfold S_unidades; olvida ].
Qed.

Lemma rel_costos : rel recalcular_costos S_unidades [].
Proof.
  unfold recalcular_costos, S_unidades.
  eapply rel_post; [ rel_go | olvida ].
Qed.

Lemma rel_recalcular : rel _recalcular [] [].
Proof.
  unfold _recalcular.
  eapply rel_bind; [ apply rel_areas | intros _ ].
  eapply rel_bind; [ apply rel_field; unfold mismos_datos; intros; intuition auto | intro ].
  eapply rel_bind; [ | intros _; apply rel_costos ].
  repeat apply rel_if.
  - apply rel_casas.
  - apply rel_edificio.
  - apply rel_otro.
Qed.

Lemma proyecto_ext (p q : Proyecto) :
  mismos_datos p q ->
  area_construida q = area_construida p ->
  area_no_construida q = area_no_construida p ->
  area_min_vivienda q = area_min_vivienda p ->
  num_viviendas q = num_viviendas p ->
  aptos_por_torre q = aptos_por_torre p ->
  num_torres q = num_torres p ->
  area_bodegas q = area_bodegas p ->
  costo_terreno_total q = costo_terreno_total p ->
  costo_construccion_m2 q = costo_construccion_m2 p ->
  costo_construccion_total q = costo_construccion_total p ->
  presupuesto_total q = presupuesto_total p ->
  ganancia q = ganancia p ->
  precio_venta_m2 q = precio_venta_m2 p ->
  precio_venta_total q = precio_venta_total p ->
  valor_casa q = valor_casa p ->
  q = p.
Proof.
  unfold mismos_datos. destruct p, q. proj_simpl. intros.
  repeat match goal with H : _ /\ _ |- _ => destruct H end.
  subst. reflexivity.
Qed.

Lemma tocado_fijo {A : Type} (f : Proyecto -> option A) p p1 p2 :
  tocado f p p1 p1 p2 -> f p2 = f p1.
Proof. intros [H | [_ H]]; congruence. Qed.

(** ** Floats, bit for bit *)

Lemma SFmul_comm x y : SFmul prec emax x y = SFmul prec emax y x.
Proof.
  destruct x as [sx | sx | | sx mx ex], y as [sy | sy | | sy my ey]; cbn [SFmul];
    rewrite ?(xorb_comm sx sy), ?(Pos.mul_comm mx my), ?(Z.add_comm ex ey);
    reflexivity.
Qed.

Lemma float_mul_comm (x y : float) : (x * y)%float = (y * x)%float.
Proof.
  apply Prim2SF_inj. rewrite !mul_spec. apply SFmul_comm.
Qed.

Lemma eqb_refl_no_nan (x : float) : is_nan x = false -> (x =? x)%float = true.
Proof.
  unfold is_nan. intro H. apply negb_false_iff in H. exact H.
Qed.

Lemma truediv_inr x y q :
  Py.truediv x y = inr q -> q = (x / y)%float /\ (y =? 0)%float = false.
Proof.
  unfold Py.truediv. destruct (y =? 0)%float; [discriminate | ].
  intros [= <-]. split; reflexivity.
Qed.

(** ** Binary64 arithmetic

    What the proofs need of IEEE 754 rounding, derived from the definitions
    of [SpecFloat] that specify the primitive floats: the result of an
    operation lies between the neighbours of the exact value in the format,
    so rounding is monotone and exact on representable values. *)

Module B64.

#[local] Open Scope R_scope.

(** *** Powers of two *)

Definition bpow (e : Z) : R := powerRZ 2 e.

Lemma bpow_gt_0 e : 0 < bpow e.
Proof. apply powerRZ_lt. lra. Qed.

Lemma bpow_add a b : bpow (a + b) = bpow a * bpow b.
Proof. apply powerRZ_add. lra. Qed.

Lemma bpow_0 : bpow 0 = 1.
Proof. reflexivity. Qed.

Lemma bpow_1 : bpow 1 = 2.
Proof. unfold bpow, powerRZ. change (Pos.to_nat 1) with 1%nat. cbn [pow]. lra. Qed.

Lemma bpow_IZR e : (0 <= e)%Z -> bpow e = IZR (2 ^ e).
Proof.
  intro H. unfold bpow.
  rewrite <- (Z2Nat.id e H) at 1.
  rewrite <- pow_powerRZ.
  rewrite pow_IZR. rewrite Z2Nat.id by exact H. reflexivity.
Qed.

Lemma bpow_ge_1 e : (0 <= e)%Z -> 1 <= bpow e.
Proof.
  intro H. rewrite bpow_IZR by exact H.
  apply IZR_le. assert (0 < 2 ^ e)%Z by (apply Z.pow_pos_nonneg; lia). lia.
Qed.

Lemma bpow_le a b : (a <= b)%Z -> bpow a <= bpow b.
Proof.
  intro H. replace b with (a + (b - a))%Z by lia. rewrite bpow_add.
  pose proof (bpow_gt_0 a). pose proof (bpow_ge_1 (b - a) ltac:(lia)). nra.
Qed.

Lemma bpow_lt a b : (a < b)%Z -> bpow a < bpow b.
Proof.
  intro H. replace b with (a + 1 + (b - a - 1))%Z by lia. rewrite !bpow_add, bpow_1.
  pose proof (bpow_gt_0 a). pose proof (bpow_ge_1 (b - a - 1) ltac:(lia)). nra.
Qed.

Lemma bpow_lt_inv a b : bpow a < bpow b -> (a < b)%Z.
Proof.
  intro H. destruct (Z_lt_le_dec a b) as [Hl | Hl]; [exact Hl | ].
  apply bpow_le in Hl. lra.
Qed.

Lemma bpow_le_inv a b : bpow a <= bpow b -> (a <= b)%Z.
Proof.
  intro H. destruct (Z_le_gt_dec a b) as [Hl | Hl]; [exact Hl | ].
  assert (b < a)%Z as Hl' by lia. apply bpow_lt in Hl'. lra.
Qed.

(** The value of a mantissa and an exponent. *)
Definition F2R (m e : Z) : R := IZR m * bpow e.

Lemma F2R_0 e : F2R 0 e = 0.
Proof. unfold F2R. lra. Qed.

Lemma F2R_le m1 m2 e : (m1 <= m2)%Z -> F2R m1 e <= F2R m2 e.
Proof.
  intro H. unfold F2R. apply IZR_le in H. pose proof (bpow_gt_0 e). nra.
Qed.

Lemma F2R_lt m1 m2 e : (m1 < m2)%Z -> F2R m1 e < F2R m2 e.
Proof.
  intro H. unfold F2R. apply IZR_lt in H. pose proof (bpow_gt_0 e). nra.
Qed.

Lemma F2R_lt_inv m1 m2 e : F2R m1 e < F2R m2 e -> (m1 < m2)%Z.
Proof.
  intro H. destruct (Z_lt_le_dec m1 m2) as [Hl | Hl]; [exact Hl | ].
  apply (F2R_le _ _ e) in Hl. lra.
Qed.

Lemma F2R_le_inv m1 m2 e : F2R m1 e <= F2R m2 e -> (m1 <= m2)%Z.
Proof.
  intro H. destruct (Z_le_gt_dec m1 m2) as [Hl | Hl]; [exact Hl | ].
  assert (m2 < m1)%Z as Hl' by lia. apply (F2R_lt _ _ e) in Hl'. lra.
Qed.

(** The same value at a smaller exponent. *)
Lemma F2R_shift m e k : (0 <= k)%Z -> F2R m e = F2R (m * 2 ^ k) (e - k).
Proof.
  intro H. unfold F2R. rewrite mult_IZR, <- (bpow_IZR k H).
  replace e with ((e - k) + k)%Z at 1 by lia. rewrite bpow_add. ring.
Qed.

Lemma F2R_bpow e k : (0 <= k)%Z -> bpow (e + k) = F2R (2 ^ k) e.
Proof.
  intro H. unfold F2R. rewrite <- (bpow_IZR k H), bpow_add. ring.
Qed.

(** *** Number of binary digits *)

Lemma digits2_pos_size p : digits2_pos p = Pos.size p.
Proof. induction p; cbn; congruence. Qed.

Lemma digits2_pos_bounds p :
  (2 ^ (Zpos (digits2_pos p) - 1) <= Zpos p < 2 ^ Zpos (digits2_pos p))%Z.
Proof.
  rewrite digits2_pos_size. split.
  - pose proof (Pos.size_le p) as H.
    assert (Zpos (2 ^ Pos.size p) <= Zpos p~0)%Z as H' by exact H.
    rewrite Pos2Z.inj_pow in H'.
    replace (Zpos (Pos.size p)) with (Zpos (Pos.size p) - 1 + 1)%Z in H' by lia.
    rewrite Z.pow_add_r in H' by lia. lia.
  - pose proof (Pos.size_gt p) as H.
    assert (Zpos p < Zpos (2 ^ Pos.size p))%Z as H' by exact H.
    rewrite Pos2Z.inj_pow in H'. exact H'.
Qed.

Lemma Zdigits2_nonneg m : (0 <= Zdigits2 m)%Z.
Proof. destruct m; cbn; lia. Qed.

Lemma Zdigits2_bounds m :
  (0 < m)%Z -> (2 ^ (Zdigits2 m - 1) <= m < 2 ^ Zdigits2 m)%Z.
Proof.
  destruct m as [| p | p]; try lia. intros _. apply digits2_pos_bounds.
Qed.

Lemma Zdigits2_unique m d :
  (0 < m)%Z -> (2 ^ (d - 1) <= m < 2 ^ d)%Z -> Zdigits2 m = d.
Proof.
  intros Hm [H1 H2]. pose proof (Zdigits2_bounds m Hm) as [H3 H4].
  pose proof (Zdigits2_nonneg m).
  assert (0 < d)%Z as Hd.
  { destruct (Z_lt_le_dec 0 d) as [Hd | Hd]; [assumption | exfalso].
    destruct (Z.eq_dec d 0) as [-> | Hd0]; [cbn in H2; lia | ].
    rewrite Z.pow_neg_r in H2 by lia. lia. }
  assert (0 < Zdigits2 m)%Z.
  { destruct (Z.eq_dec (Zdigits2 m) 0) as [E | E]; [ | lia].
    rewrite E in H4. cbn in H4. lia. }
  destruct (Z.lt_trichotomy (Zdigits2 m) d) as [Hlt | [Heq | Hgt]]; [ | exact Heq | ].
  - exfalso. assert (2 ^ Zdigits2 m <= 2 ^ (d - 1))%Z by (apply Z.pow_le_mono_r; lia). lia.
  - exfalso. assert (2 ^ d <= 2 ^ (Zdigits2 m - 1))%Z by (apply Z.pow_le_mono_r; lia). lia.
Qed.

Lemma Zdigits2_bpow m e :
  (0 < m)%Z -> bpow (Zdigits2 m - 1 + e) <= F2R m e < bpow (Zdigits2 m + e).
Proof.
  intro Hm. pose proof (Zdigits2_bounds m Hm) as [H1 H2].
  pose proof (Zdigits2_nonneg m) as Hn.
  assert (0 < Zdigits2 m)%Z as Hd.
  { destruct (Z.eq_dec (Zdigits2 m) 0) as [E | E]; [ | lia].
    rewrite E in H2. cbn in H2. lia. }
  rewrite (Z.add_comm _ e), (Z.add_comm _ e).
  rewrite (F2R_bpow e (Zdigits2 m - 1)) by lia.
  rewrite (F2R_bpow e (Zdigits2 m)) by lia.
  split; [apply F2R_le | apply F2R_lt]; assumption.
Qed.

(** *** Shifting a mantissa right *)

#[local] Abbreviation fexp := (SpecFloat.fexp prec emax).

Lemma fexp_eq e : fexp e = Z.max (e - 53) (-1074).
Proof. reflexivity. Qed.

Lemma F2R_double m e : F2R (2 * m) e = F2R m (e + 1).
Proof. unfold F2R. rewrite mult_IZR, bpow_add, bpow_1. ring. Qed.

Lemma F2R_succ m e : F2R (m + 1) e = F2R m e + bpow e.
Proof. unfold F2R. rewrite plus_IZR. ring. Qed.

(** The record keeps no bit, neither the round bit nor the sticky bit. *)
Definition exacto (mrs : shr_record) : bool := negb (shr_r mrs || shr_s mrs).

(** The record [mrs] at exponent [e] locates the real [x]: between the
    mantissa and its successor, and on the mantissa when no bit was lost. *)
Definition rep (mrs : shr_record) (e : Z) (x : R) : Prop :=
  (0 <= shr_m mrs)%Z /\
  F2R (shr_m mrs) e <= x < F2R (shr_m mrs + 1) e /\
  (exacto mrs = true <-> x = F2R (shr_m mrs) e).

Lemma shr_1_rep mrs e x : rep mrs e x -> rep (shr_1 mrs) (e + 1) x.
Proof.
  destruct mrs as [m r s]. unfold rep, exacto. cbn [shr_m shr_r shr_s].
  intros (Hm & [Hl Hu] & He).
  pose proof (bpow_gt_0 e) as Hb.
  destruct m as [| [p | p |] | p]; try lia; cbn [shr_1 shr_m shr_r shr_s].
  - (* 0 *)
    rewrite F2R_0 in *. change (0 + 1)%Z with 1%Z in *.
    split; [lia | ]. split.
    + split; [lra | ]. unfold F2R in *. rewrite bpow_add, bpow_1. lra.
    + cbn [orb]. exact He.
  - (* 2p + 1 *)
    change (Z.pos p~1) with (2 * Z.pos p + 1)%Z in *.
    rewrite F2R_succ, F2R_double in Hl.
    replace (2 * Z.pos p + 1 + 1)%Z with (2 * (Z.pos p + 1))%Z in Hu by lia.
    rewrite F2R_double in Hu.
    split; [lia | ]. split; [lra | ].
    cbn [orb negb]. split; [discriminate | ]. intro E. lra.
  - (* 2p *)
    change (Z.pos p~0) with (2 * Z.pos p)%Z in *.
    rewrite F2R_double in Hl, He.
    rewrite F2R_succ, F2R_double in Hu.
    split; [lia | ]. split.
    + split; [lra | ]. rewrite F2R_succ, bpow_add, bpow_1. lra.
    + cbn [orb]. exact He.
  - (* 1 *)
    change 1%Z with (0 + 1)%Z in Hl, Hu at 1.
    rewrite F2R_succ, F2R_0 in Hl.
    change (0 + 1 + 1)%Z with (2 * (0 + 1))%Z in Hu. rewrite F2R_double in Hu.
    split; [lia | ]. rewrite F2R_0. split; [lra | ].
    cbn [orb negb]. split; [discriminate | ]. intro E. lra.
Qed.

Lemma iter_pos_shr_1_rep p : forall mrs e x,
  rep mrs e x -> rep (SpecFloat.iter_pos shr_1 p mrs) (e + Zpos p) x.
Proof.
  induction p as [p IH | p IH | ]; intros mrs e x H; cbn [SpecFloat.iter_pos].
  - replace (e + Z.pos p~1)%Z with (e + 1 + Z.pos p + Z.pos p)%Z by lia.
    apply IH, IH, shr_1_rep, H.
  - replace (e + Z.pos p~0)%Z with (e + Z.pos p + Z.pos p)%Z by lia.
    apply IH, IH, H.
  - apply shr_1_rep, H.
Qed.

Lemma shr_rep mrs e n x :
  rep mrs e x -> rep (fst (shr mrs e n)) (snd (shr mrs e n)) x /\
                 snd (shr mrs e n) = Z.max e (e + n).
Proof.
  intro H. destruct n as [| p | p]; cbn [shr fst snd].
  - split; [exact H | lia].
  - split; [apply iter_pos_shr_1_rep, H | lia].
  - split; [exact H | lia].
Qed.

(** What a location says of the real [x] it locates. *)
Definition ubica (m e : Z) (l : location) (x : R) : Prop :=
  match l with
  | loc_Exact => x = F2R m e
  | loc_Inexact _ => F2R m e < x < F2R (m + 1) e
  end.

Lemma rep_of_loc m e l x :
  (0 <= m)%Z -> ubica m e l x -> rep (shr_record_of_loc m l) e x.
Proof.
  intros Hm H. unfold rep, exacto.
  pose proof (bpow_gt_0 e) as Hb.
  destruct l as [| [ | | ]]; cbn [shr_record_of_loc shr_m shr_r shr_s ubica orb negb] in *.
  - split; [exact Hm | ]. split; [ | tauto]. rewrite F2R_succ. lra.
  - split; [exact Hm | ]. split; [lra | ]. split; [discriminate | lra].
  - split; [exact Hm | ]. split; [lra | ]. split; [discriminate | lra].
  - split; [exact Hm | ]. split; [lra | ]. split; [discriminate | lra].
Qed.

Lemma shr_fexp_rep m e l x :
  (0 <= m)%Z -> ubica m e l x ->
  rep (fst (shr_fexp prec emax m e l)) (snd (shr_fexp prec emax m e l)) x /\
  snd (shr_fexp prec emax m e l) = Z.max e (fexp (Zdigits2 m + e)).
Proof.
  intros Hm H. unfold shr_fexp.
  destruct (shr_rep (shr_record_of_loc m l) e (fexp (Zdigits2 m + e) - e) x
              (rep_of_loc m e l x Hm H)) as [H1 H2].
  split; [exact H1 | ]. rewrite H2. lia.
Qed.

Lemma round_nearest_even_rep mrs e x :
  rep mrs e x ->
  let m1 := round_nearest_even (shr_m mrs) (loc_of_shr_record mrs) in
  (m1 = shr_m mrs \/ m1 = (shr_m mrs + 1)%Z) /\
  (x = F2R (shr_m mrs) e -> m1 = shr_m mrs).
Proof.
  destruct mrs as [m r s]. unfold rep, exacto. cbn [shr_m shr_r shr_s].
  intros (Hm & Hx & He).
  destruct r, s; cbn [loc_of_shr_record round_nearest_even orb negb] in *.
  - split; [right; reflexivity | ]. intro E. apply He in E. discriminate.
  - split; [destruct (Z.even m); auto | ]. intro E. apply He in E. discriminate.
  - split; [left; reflexivity | reflexivity].
  - split; [left; reflexivity | reflexivity].
Qed.

(** *** Rounding *)

Ltac zlia := unfold SpecFloat.fexp, SpecFloat.emin, prec, emax in *; lia.

(** The non-negative reals of the format: at most [prec] bits of mantissa
    and an exponent not below [emin]. *)
Definition formato (f : R) : Prop :=
  exists m e, f = F2R m e /\ (0 <= m < 2 ^ prec)%Z /\ (emin <= e)%Z.

(** [v] is a rounding of [x]: no number of the format separates them. *)
Definition rnd (x v : R) : Prop :=
  forall f, formato f -> (f <= x -> f <= v) /\ (x <= f -> v <= f).

(** The float of sign [s] that holds the magnitude [v]. *)
Definition repr (s : bool) (v : R) (r : spec_float) : Prop :=
  (v = 0 /\ r = S754_zero s) \/
  (exists m e, r = S754_finite s m e /\ v = F2R (Zpos m) e /\
               SpecFloat.bounded prec emax m e = true) \/
  (r = S754_infinity s /\ bpow emax <= v).

Lemma formato_0 : formato 0.
Proof. exists 0%Z, emin. rewrite F2R_0. repeat split; cbn; lia. Qed.

Lemma pow2_prec : (2 ^ prec = 9007199254740992)%Z.
Proof. reflexivity. Qed.

Lemma pow2_prec1 : (2 ^ (prec - 1) = 4503599627370496)%Z.
Proof. reflexivity. Qed.

(** After the first shift the mantissa has at most [prec] bits, and all of
    them unless the exponent is the smallest. *)
Lemma primer_paso m e l x :
  (0 <= m)%Z -> ubica m e l x -> (e <= fexp (Zdigits2 m + e))%Z ->
  let mrs := fst (shr_fexp prec emax m e l) in
  let e' := snd (shr_fexp prec emax m e l) in
  rep mrs e' x /\ (emin <= e')%Z /\ (shr_m mrs < 2 ^ prec)%Z /\
  ((emin < e')%Z -> (2 ^ (prec - 1) <= shr_m mrs)%Z).
Proof.
  intros Hm Hx He. cbv zeta.
  destruct (shr_fexp_rep m e l x Hm Hx) as [Hrep He'].
  set (mrs := fst (shr_fexp prec emax m e l)) in *.
  set (e' := snd (shr_fexp prec emax m e l)) in *.
  assert (e' = fexp (Zdigits2 m + e)) as Ee' by lia.
  destruct Hrep as (Hm' & [Hl Hu] & Hex).
  assert (F2R m e <= x < F2R (m + 1) e) as [Hxl Hxu].
  { pose proof (bpow_gt_0 e). destruct l; cbn [ubica] in Hx.
    - rewrite Hx, F2R_succ. lra.
    - lra. }
  split; [exact (conj Hm' (conj (conj Hl Hu) Hex)) | ].
  split; [zlia | ].
  destruct (Z.eq_dec m 0) as [-> | Hm0].
  - (* nothing but lost bits *)
    cbn [Zdigits2 Z.add] in *. rewrite fexp_eq in He, Ee'.
    assert (e' = emin) as Em by zlia. rewrite Em in *.
    assert (e <= emin)%Z as Hee by zlia.
    change (0 + 1)%Z with 1%Z in Hxu.
    assert (x < F2R 1 emin).
    { eapply Rlt_le_trans; [exact Hxu | ]. unfold F2R. apply bpow_le in Hee. lra. }
    assert (shr_m mrs < 1)%Z by (apply (F2R_lt_inv _ _ emin); lra).
    split; [rewrite pow2_prec; lia | lia].
  - assert (0 < m)%Z as Hmp by lia.
    pose proof (Zdigits2_bpow m e Hmp) as [Hd1 Hd2].
    pose proof (Zdigits2_bounds m Hmp) as [_ Hd3].
    assert (F2R (m + 1) e <= bpow (Zdigits2 m + e)) as Hd4.
    { rewrite (Z.add_comm _ e), (F2R_bpow e (Zdigits2 m)) by apply Zdigits2_nonneg.
      apply F2R_le. lia. }
    split.
    + apply (F2R_lt_inv _ _ e').
      eapply Rle_lt_trans; [exact Hl | ].
      eapply Rlt_le_trans; [exact Hxu | ].
      eapply Rle_trans; [exact Hd4 | ].
      rewrite <- (F2R_bpow e' prec) by zlia.
      apply bpow_le. zlia.
    + intro Hn.
      assert (e' = Zdigits2 m + e - prec)%Z as Ed by zlia.
      assert (F2R (2 ^ (prec - 1)) e' < F2R (shr_m mrs + 1) e') as Hlt.
      { rewrite <- (F2R_bpow e' (prec - 1)) by zlia.
        replace (e' + (prec - 1))%Z with (Zdigits2 m - 1 + e)%Z by lia. lra. }
      apply F2R_lt_inv in Hlt. lia.
Qed.

Lemma rnd_paso mrs e' x :
  rep mrs e' x -> (emin <= e')%Z ->
  ((emin < e')%Z -> (2 ^ (prec - 1) <= shr_m mrs)%Z) ->
  rnd x (F2R (round_nearest_even (shr_m mrs) (loc_of_shr_record mrs)) e').
Proof.
  intros Hrep He Hn.
  destruct (round_nearest_even_rep mrs e' x Hrep) as [Hm1 Hex].
  destruct Hrep as (Hm' & [Hl Hu] & _).
  set (m' := shr_m mrs) in *.
  set (m1 := round_nearest_even m' (loc_of_shr_record mrs)) in *.
  assert (F2R m' e' <= F2R m1 e') as Hv1 by (apply F2R_le; lia).
  assert (F2R m1 e' <= F2R (m' + 1) e') as Hv2 by (apply F2R_le; lia).
  intros f (mf & ef & -> & Hmf & Hef).
  destruct (Z_lt_le_dec ef e') as [Hlt | Hge].
  - (* a number of the format below the binade of [x] *)
    assert (F2R mf ef < F2R m' e') as Hf.
    { apply Rlt_le_trans with (F2R (2 ^ (prec - 1)) e').
      - rewrite <- (F2R_bpow e' (prec - 1)) by zlia.
        apply Rlt_le_trans with (bpow (ef + prec)).
        + rewrite (F2R_bpow ef prec) by zlia. apply F2R_lt. lia.
        + apply bpow_le. lia.
      - apply F2R_le. apply Hn. lia. }
    split; intro; lra.
  - (* a number of the format on the grid of [x] *)
    rewrite (F2R_shift mf ef (ef - e')) by lia.
    replace (ef - (ef - e'))%Z with e' by lia.
    set (k := (mf * 2 ^ (ef - e'))%Z).
    split; intro H.
    + assert (F2R k e' < F2R (m' + 1) e') as Hk by lra.
      apply F2R_lt_inv in Hk.
      apply Rle_trans with (F2R m' e'); [apply F2R_le; lia | exact Hv1].
    + assert (m' <= k)%Z as Hk by (apply (F2R_le_inv _ _ e'); lra).
      destruct (Z.eq_dec k m') as [E | E].
      * rewrite E in *. assert (x = F2R m' e') as Ex by lra.
        rewrite (Hex Ex). lra.
      * apply F2R_le. lia.
Qed.

(** The end of [binary_round_aux]: the rounded mantissa, renormalized after
    a carry, and the overflow test. *)
Definition empaqueta (s : bool) (m1 e' : Z) : spec_float :=
  let '(mrs'', e'') := shr_fexp prec emax m1 e' loc_Exact in
  match shr_m mrs'' with
  | Z0 => S754_zero s
  | Zpos m => if Z.leb e'' (emax - prec) then S754_finite s m e'' else S754_infinity s
  | _ => S754_nan
  end.

Lemma binary_round_aux_eq s m e l :
  binary_round_aux prec emax s m e l =
  empaqueta s
    (round_nearest_even (shr_m (fst (shr_fexp prec emax m e l)))
       (loc_of_shr_record (fst (shr_fexp prec emax m e l))))
    (snd (shr_fexp prec emax m e l)).
Proof.
  unfold binary_round_aux, empaqueta.
  destruct (shr_fexp prec emax m e l) as [mrs' e']. reflexivity.
Qed.

Lemma bounded_iff m e :
  SpecFloat.bounded prec emax m e = true <->
  (fexp (Zpos (digits2_pos m) + e) = e /\ e <= emax - prec)%Z.
Proof.
  unfold SpecFloat.bounded, canonical_mantissa.
  rewrite Bool.andb_true_iff, Z.eqb_eq, Z.leb_le. tauto.
Qed.

Lemma Zdigits2_le_prec m : (0 < m < 2 ^ prec)%Z -> (Zdigits2 m <= prec)%Z.
Proof.
  intros [H0 H1]. pose proof (Zdigits2_bounds m H0) as [H2 _].
  pose proof (Zdigits2_nonneg m).
  destruct (Z_le_gt_dec (Zdigits2 m) prec) as [Hle | Hgt]; [exact Hle | exfalso].
  assert (2 ^ prec <= 2 ^ (Zdigits2 m - 1))%Z by (apply Z.pow_le_mono_r; lia).
  lia.
Qed.

Lemma Zdigits2_eq_prec m :
  (2 ^ (prec - 1) <= m < 2 ^ prec)%Z -> Zdigits2 m = prec.
Proof.
  intro H. apply Zdigits2_unique; [ | exact H].
  rewrite pow2_prec1 in H. lia.
Qed.

Lemma empaqueta_repr s m1 e' :
  (0 <= m1 <= 2 ^ prec)%Z -> (emin <= e')%Z ->
  ((emin < e')%Z -> (2 ^ (prec - 1) <= m1)%Z) ->
  repr s (F2R m1 e') (empaqueta s m1 e').
Proof.
  intros [H0 H1] He Hn. unfold empaqueta, shr_fexp.
  destruct (Z.eq_dec m1 0) as [-> | Hm0].
  - (* rounded to zero *)
    cbn [Zdigits2 Z.add shr_record_of_loc].
    destruct (fexp e' - e')%Z as [| p | p] eqn:En; try zlia;
      cbn [shr shr_m]; left; split; (apply F2R_0 || reflexivity).
  - destruct (Z.eq_dec m1 (2 ^ prec)) as [-> | Hm1].
    + (* a carry: one more shift *)
      assert (fexp (Zdigits2 (2 ^ prec) + e') - e' = 1)%Z as ->
        by (change (Zdigits2 (2 ^ prec)) with 54%Z; zlia).
      change (2 ^ prec)%Z with 9007199254740992%Z.
      cbn -[Z.leb emax prec F2R bpow].
      change (F2R 9007199254740992 e') with (F2R (2 * 4503599627370496) e').
      rewrite F2R_double.
      destruct (Z.leb (e' + 1) (emax - prec)) eqn:El; right; [left | right].
      * exists 4503599627370496%positive, (e' + 1)%Z.
        split; [reflexivity | ]. split; [reflexivity | ].
        apply bounded_iff. apply Z.leb_le in El. cbn [digits2_pos Pos.succ]. zlia.
      * split; [reflexivity | ].
        apply Z.leb_gt in El.
        change 4503599627370496%Z with (2 ^ 52)%Z.
        rewrite <- (F2R_bpow (e' + 1) 52) by lia. apply bpow_le. zlia.
    + (* no carry: the mantissa is canonical *)
      assert (0 < m1 < 2 ^ prec)%Z as Hm by lia.
      pose proof (Zdigits2_le_prec m1 Hm) as Hd.
      assert (0 < Zdigits2 m1)%Z as Hd0.
      { pose proof (Zdigits2_bounds m1 (proj1 Hm)) as [_ Hb].
        pose proof (Zdigits2_nonneg m1).
        destruct (Z.eq_dec (Zdigits2 m1) 0) as [E | E]; [ | lia].
        rewrite E in Hb. cbn in Hb. lia. }
      assert (emin < e' -> Zdigits2 m1 = prec)%Z as Hfull.
      { intro Hlt. apply Zdigits2_eq_prec. split; [apply Hn, Hlt | lia]. }
      assert (fexp (Zdigits2 m1 + e') = e') as Ec by zlia.
      rewrite Ec, Z.sub_diag. cbn [shr shr_record_of_loc shr_m].
      destruct m1 as [| p | p]; try lia.
      destruct (Z.leb e' (emax - prec)) eqn:El; right; [left | right].
      * exists p, e'. split; [reflexivity | ]. split; [reflexivity | ].
        apply bounded_iff. apply Z.leb_le in El. split; [exact Ec | exact El].
      * split; [reflexivity | ].
        apply Z.leb_gt in El.
        assert (emin < e')%Z as Hlt by zlia.
        apply Rle_trans with (F2R (2 ^ (prec - 1)) e').
        -- rewrite <- (F2R_bpow e' (prec - 1)) by zlia. apply bpow_le. zlia.
        -- apply F2R_le. apply Hn, Hlt.
Qed.

(** The result of [binary_round_aux] on a mantissa, an exponent and a
    location that locate [x] finely enough is a rounding of [x]. *)
Theorem binary_round_aux_spec s m e l x :
  (0 <= m)%Z -> ubica m e l x -> (e <= fexp (Zdigits2 m + e))%Z ->
  exists v, rnd x v /\ repr s v (binary_round_aux prec emax s m e l).
Proof.
  intros Hm Hx He.
  destruct (primer_paso m e l x Hm Hx He) as (Hrep & He' & Hlt & Hn).
  rewrite binary_round_aux_eq.
  set (mrs := fst (shr_fexp prec emax m e l)) in *.
  set (e' := snd (shr_fexp prec emax m e l)) in *.
  exists (F2R (round_nearest_even (shr_m mrs) (loc_of_shr_record mrs)) e').
  split; [apply rnd_paso; assumption | ].
  destruct (round_nearest_even_rep mrs e' x Hrep) as [Hm1 _].
  destruct Hrep as (Hm' & _).
  apply empaqueta_repr.
  - lia.
  - exact He'.
  - intro H. specialize (Hn H). lia.
Qed.

(** *** Floats of the format *)

Lemma bounded_canonical m e :
  SpecFloat.bounded prec emax m e = true ->
  (Zpos m < 2 ^ prec)%Z /\ (emin <= e)%Z /\ (e <= emax - prec)%Z /\
  (Zdigits2 (Zpos m) <= prec)%Z /\
  ((emin < e)%Z -> (2 ^ (prec - 1) <= Zpos m)%Z /\ Zdigits2 (Zpos m) = prec).
Proof.
  intro H. apply bounded_iff in H. destruct H as [Hc He].
  pose proof (Zdigits2_bounds (Zpos m) ltac:(lia)) as [Hd1 Hd2].
  change (Zdigits2 (Zpos m)) with (Zpos (digits2_pos m)) in *.
  assert (Zpos (digits2_pos m) <= prec)%Z as Hd by zlia.
  assert (Zpos m < 2 ^ prec)%Z.
  { eapply Z.lt_le_trans; [exact Hd2 | ]. apply Z.pow_le_mono_r; lia. }
  repeat split; try assumption; try zlia.
  assert (Zpos (digits2_pos m) = prec) as E by zlia.
  rewrite E in Hd1. exact Hd1.
Qed.

Lemma bounded_formato m e :
  SpecFloat.bounded prec emax m e = true -> formato (F2R (Zpos m) e).
Proof.
  intro H. destruct (bounded_canonical m e H) as (H1 & H2 & _).
  exists (Zpos m), e. repeat split; try assumption; lia.
Qed.

(** Floats of the format are ordered as their exponents, then as their
    mantissas. *)
Lemma canonical_lt m1 e1 m2 e2 :
  SpecFloat.bounded prec emax m1 e1 = true ->
  SpecFloat.bounded prec emax m2 e2 = true ->
  (e1 < e2)%Z -> F2R (Zpos m1) e1 < F2R (Zpos m2) e2.
Proof.
  intros H1 H2 He.
  destruct (bounded_canonical m1 e1 H1) as (Hm1 & He1 & _).
  destruct (bounded_canonical m2 e2 H2) as (_ & _ & _ & _ & Hn).
  destruct (Hn ltac:(lia)) as [Hm2 _].
  apply Rlt_le_trans with (bpow (e1 + prec)).
  - rewrite (F2R_bpow e1 prec) by zlia. apply F2R_lt. exact Hm1.
  - apply Rle_trans with (F2R (2 ^ (prec - 1)) e2).
    + rewrite <- (F2R_bpow e2 (prec - 1)) by zlia. apply bpow_le. lia.
    + apply F2R_le. exact Hm2.
Qed.

(** Two floats of the format with the same value are the same float. *)
Lemma canonical_unique m1 e1 m2 e2 :
  SpecFloat.bounded prec emax m1 e1 = true ->
  SpecFloat.bounded prec emax m2 e2 = true ->
  F2R (Zpos m1) e1 = F2R (Zpos m2) e2 -> m1 = m2 /\ e1 = e2.
Proof.
  intros H1 H2 E.
  destruct (Z.lt_trichotomy e1 e2) as [Hlt | [Heq | Hgt]].
  - pose proof (canonical_lt m1 e1 m2 e2 H1 H2 Hlt). lra.
  - subst e2. split; [ | reflexivity].
    assert (Zpos m1 <= Zpos m2)%Z by (apply (F2R_le_inv _ _ e1); lra).
    assert (Zpos m2 <= Zpos m1)%Z by (apply (F2R_le_inv _ _ e1); lra).
    lia.
  - pose proof (canonical_lt m2 e2 m1 e1 H2 H1 ltac:(lia)). lra.
Qed.

Lemma SFcompare_pos m1 e1 m2 e2 :
  SpecFloat.bounded prec emax m1 e1 = true ->
  SpecFloat.bounded prec emax m2 e2 = true ->
  match SFcompare (S754_finite false m1 e1) (S754_finite false m2 e2) with
  | Some Lt => F2R (Zpos m1) e1 < F2R (Zpos m2) e2
  | Some Eq => F2R (Zpos m1) e1 = F2R (Zpos m2) e2
  | Some Gt => F2R (Zpos m2) e2 < F2R (Zpos m1) e1
  | None => False
  end.
Proof.
  intros H1 H2. cbn [SFcompare].
  destruct (Z.compare_spec e1 e2) as [E | E | E].
  - subst e2. rewrite Pos.compare_cont_spec. cbn [Pos.switch_Eq].
    destruct (Pos.compare_spec m1 m2) as [Em | Em | Em].
    + subst. reflexivity.
    + apply F2R_lt. lia.
    + apply F2R_lt. lia.
  - apply canonical_lt; assumption.
  - apply canonical_lt; assumption.
Qed.

(** *** Division *)

Lemma new_location_exact n k :
  new_location n k = loc_Exact <-> k = 0%Z.
Proof.
  unfold new_location, new_location_even, new_location_odd.
  destruct (Z.even n); destruct (Z.eqb_spec k 0); split; intro H;
    try reflexivity; try assumption; try discriminate; try contradiction.
Qed.

Lemma SFdiv_core_binary_spec m1 e1 m2 e2 :
  (0 < m1)%Z -> (0 < m2)%Z ->
  let '(q, e', l) := SFdiv_core_binary prec emax m1 e1 m2 e2 in
  (0 <= q)%Z /\ ubica q e' l (F2R m1 e1 / F2R m2 e2) /\
  (e' <= fexp (Zdigits2 q + e'))%Z.
Proof.
  intros H1 H2. unfold SFdiv_core_binary.
  set (D := (Zdigits2 m1 + e1 - (Zdigits2 m2 + e2))%Z).
  set (e' := Z.min (fexp D) (e1 - e2)).
  set (s := (e1 - e2 - e')%Z).
  assert (0 <= s)%Z as Hs by (unfold s, e'; lia).
  set (m' := match s with Zpos _ => Z.shiftl m1 s | Z0 => m1 | Zneg _ => 0%Z end).
  assert (m' = m1 * 2 ^ s)%Z as Em'.
  { unfold m'. destruct s as [| p | p]; try lia.
    rewrite Z.shiftl_mul_pow2 by lia. reflexivity. }
  pose proof (Z_div_mod m' m2 ltac:(lia)) as Hdiv.
  destruct (Z.div_eucl m' m2) as [q r]. destruct Hdiv as [Eq Hr].
  set (x := F2R m1 e1 / F2R m2 e2).
  assert (0 < F2R m2 e2) as HB.
  { unfold F2R. apply Rmult_lt_0_compat; [apply IZR_lt; lia | apply bpow_gt_0]. }
  assert (F2R m1 e1 = F2R m' (e' + e2)) as EA.
  { rewrite (F2R_shift m1 e1 s Hs). rewrite <- Em'. f_equal. unfold s. lia. }
  assert (forall k, F2R k e' * F2R m2 e2 = F2R (k * m2) (e' + e2)) as Hmul.
  { intro k. unfold F2R. rewrite mult_IZR, bpow_add. ring. }
  assert (forall k, (k * m2 <= m')%Z -> F2R k e' <= x) as Hle.
  { intros k Hk. unfold x. apply Rmult_le_reg_r with (F2R m2 e2); [exact HB | ].
    unfold Rdiv. rewrite Rmult_assoc, Rinv_l, Rmult_1_r by lra.
    rewrite Hmul, EA. apply F2R_le. exact Hk. }
  assert (forall k, (m' < k * m2)%Z -> x < F2R k e') as Hlt.
  { intros k Hk. unfold x. apply Rmult_lt_reg_r with (F2R m2 e2); [exact HB | ].
    unfold Rdiv. rewrite Rmult_assoc, Rinv_l, Rmult_1_r by lra.
    rewrite Hmul, EA. apply F2R_lt. exact Hk. }
  assert (forall k, (k * m2 < m')%Z -> F2R k e' < x) as Hlt'.
  { intros k Hk. unfold x. apply Rmult_lt_reg_r with (F2R m2 e2); [exact HB | ].
    unfold Rdiv. rewrite Rmult_assoc, Rinv_l, Rmult_1_r by lra.
    rewrite Hmul, EA. apply F2R_lt. exact Hk. }
  assert (0 <= q)%Z as Hq by nia.
  split; [exact Hq | ]. split.
  - (* the location of the quotient *)
    destruct (new_location m2 r) as [| c] eqn:El.
    + apply new_location_exact in El. subst r. cbn [ubica].
      assert (x * F2R m2 e2 = F2R m' (e' + e2)) as Ex.
      { unfold x, Rdiv. rewrite Rmult_assoc, Rinv_l, Rmult_1_r by lra. exact EA. }
      apply Rmult_eq_reg_r with (F2R m2 e2); [ | lra].
      rewrite Ex, Hmul. f_equal. lia.
    + assert (r <> 0%Z) as Hr0.
      { intro E. apply (new_location_exact m2) in E. congruence. }
      cbn [ubica]. split; [apply Hlt'; lia | apply Hlt; lia].
  - (* the quotient has enough bits *)
    assert (bpow (D - 1) < x) as Hx.
    { pose proof (Zdigits2_bpow m1 e1 H1) as [Ha _].
      pose proof (Zdigits2_bpow m2 e2 H2) as [_ Hb].
      unfold x. apply Rmult_lt_reg_r with (F2R m2 e2); [exact HB | ].
      unfold Rdiv. rewrite Rmult_assoc, Rinv_l, Rmult_1_r by lra.
      apply Rlt_le_trans with (bpow (D - 1) * bpow (Zdigits2 m2 + e2)).
      - apply Rmult_lt_compat_l; [apply bpow_gt_0 | exact Hb].
      - rewrite <- bpow_add. replace (D - 1 + (Zdigits2 m2 + e2))%Z
          with (Zdigits2 m1 - 1 + e1)%Z by (unfold D; lia). exact Ha. }
    assert (x < F2R (q + 1) e') as Hxu by (apply Hlt; lia).
    destruct (Z.eq_dec q 0) as [-> | Hq0].
    + cbn [Zdigits2 Z.add] in *. unfold F2R in Hxu. rewrite Rmult_1_l in Hxu.
      assert (D - 1 < e')%Z by (apply bpow_lt_inv; lra).
      unfold e' in *. zlia.
    + assert (0 < q)%Z as Hqp by lia.
      pose proof (Zdigits2_bounds q Hqp) as [_ Hd].
      assert (F2R (q + 1) e' <= bpow (Zdigits2 q + e')) as Hd'.
      { rewrite (Z.add_comm _ e'), (F2R_bpow e' (Zdigits2 q)) by apply Zdigits2_nonneg.
        apply F2R_le. lia. }
      assert (D - 1 < Zdigits2 q + e')%Z by (apply bpow_lt_inv; lra).
      unfold e' in *. zlia.
Qed.

Theorem SFdiv_finite s1 m1 e1 s2 m2 e2 :
  exists v,
    rnd (F2R (Zpos m1) e1 / F2R (Zpos m2) e2) v /\
    repr (xorb s1 s2) v
      (SFdiv prec emax (S754_finite s1 m1 e1) (S754_finite s2 m2 e2)).
Proof.
  cbn [SFdiv].
  pose proof (SFdiv_core_binary_spec (Zpos m1) e1 (Zpos m2) e2 ltac:(lia) ltac:(lia)) as H.
  destruct (SFdiv_core_binary prec emax (Zpos m1) e1 (Zpos m2) e2) as [[q e'] l].
  destruct H as (Hq & Hx & He).
  apply binary_round_aux_spec; assumption.
Qed.

(** *** Multiplication *)

Lemma Zdigits2_mul_ge m1 m2 :
  (0 < m1)%Z -> (0 < m2)%Z ->
  (Zdigits2 m1 + Zdigits2 m2 - 1 <= Zdigits2 (m1 * m2))%Z.
Proof.
  intros H1 H2.
  pose proof (Zdigits2_bounds m1 H1) as [Ha _].
  pose proof (Zdigits2_bounds m2 H2) as [Hb _].
  pose proof (Zdigits2_bounds (m1 * m2) ltac:(nia)) as [_ Hc].
  pose proof (Zdigits2_nonneg (m1 * m2)) as Hn.
  assert (0 < Zdigits2 m1)%Z as Hd1.
  { pose proof (Zdigits2_bounds m1 H1) as [_ Hx]. pose proof (Zdigits2_nonneg m1).
    destruct (Z.eq_dec (Zdigits2 m1) 0) as [E | E]; [rewrite E in Hx; cbn in Hx; lia | lia]. }
  assert (0 < Zdigits2 m2)%Z as Hd2.
  { pose proof (Zdigits2_bounds m2 H2) as [_ Hx]. pose proof (Zdigits2_nonneg m2).
    destruct (Z.eq_dec (Zdigits2 m2) 0) as [E | E]; [rewrite E in Hx; cbn in Hx; lia | lia]. }
  destruct (Z_le_gt_dec (Zdigits2 m1 + Zdigits2 m2 - 1) (Zdigits2 (m1 * m2)))
    as [Hle | Hgt]; [exact Hle | exfalso].
  assert (2 ^ (Zdigits2 m1 - 1) * 2 ^ (Zdigits2 m2 - 1) <= m1 * m2)%Z as Hp by nia.
  rewrite <- Z.pow_add_r in Hp by lia.
  assert (2 ^ Zdigits2 (m1 * m2) <= 2 ^ (Zdigits2 m1 - 1 + (Zdigits2 m2 - 1)))%Z
    by (apply Z.pow_le_mono_r; lia).
  lia.
Qed.

Theorem SFmul_finite s1 m1 e1 s2 m2 e2 :
  SpecFloat.bounded prec emax m1 e1 = true ->
  SpecFloat.bounded prec emax m2 e2 = true ->
  exists v,
    rnd (F2R (Zpos m1) e1 * F2R (Zpos m2) e2) v /\
    repr (xorb s1 s2) v
      (SFmul prec emax (S754_finite s1 m1 e1) (S754_finite s2 m2 e2)).
Proof.
  intros H1 H2. cbn [SFmul].
  apply binary_round_aux_spec.
  - lia.
  - cbn [ubica]. unfold F2R. rewrite Pos2Z.inj_mul, mult_IZR, bpow_add. ring.
  - rewrite Pos2Z.inj_mul.
    pose proof (Zdigits2_mul_ge (Zpos m1) (Zpos m2) ltac:(lia) ltac:(lia)) as Hd.
    apply bounded_iff in H1, H2. destruct H1 as [C1 _], H2 as [C2 _].
    change (Zpos (digits2_pos m1)) with (Zdigits2 (Zpos m1)) in C1.
    change (Zpos (digits2_pos m2)) with (Zdigits2 (Zpos m2)) in C2.
    pose proof (Zdigits2_bounds (Zpos m1) ltac:(lia)) as [_ Hx1].
    pose proof (Zdigits2_bounds (Zpos m2) ltac:(lia)) as [_ Hx2].
    assert (0 < Zdigits2 (Zpos m1))%Z by (cbn; lia).
    assert (0 < Zdigits2 (Zpos m2))%Z by (cbn; lia).
    zlia.
Qed.

(** *** Rounding an integer mantissa: addition, subtraction, conversion *)

Lemma iter_xO m d : Zpos (Pos.iter xO m d) = (Zpos m * 2 ^ Zpos d)%Z.
Proof.
  induction d as [| d IH] using Pos.peano_ind.
  - cbn [Pos.iter]. rewrite Pos2Z.inj_xO. change (2 ^ 1)%Z with 2%Z. lia.
  - rewrite Pos.iter_succ, Pos2Z.inj_xO, IH, Pos2Z.inj_succ, Z.pow_succ_r by lia. lia.
Qed.

Lemma shl_align_spec m e e' :
  let '(mz, ez) := shl_align m e e' in
  F2R (Zpos mz) ez = F2R (Zpos m) e /\ ez = Z.min e e' /\
  Zdigits2 (Zpos mz) = (Zdigits2 (Zpos m) + (e - ez))%Z.
Proof.
  unfold shl_align. destruct (e' - e)%Z as [| d | d] eqn:Ed.
  - repeat split; lia.
  - repeat split; lia.
  - assert (e - e' = Zpos d)%Z as Ek by lia.
    split; [ | split; [lia | ]].
    + rewrite iter_xO. rewrite (F2R_shift (Zpos m) e (Zpos d)) by lia.
      f_equal. lia.
    + rewrite iter_xO. rewrite Ek.
      pose proof (Zdigits2_bounds (Zpos m) ltac:(lia)) as [Ha Hb].
      assert (0 < Zdigits2 (Zpos m))%Z by (cbn; lia).
      apply Zdigits2_unique; [lia | ].
      replace (Zdigits2 (Zpos m) + Zpos d - 1)%Z with (Zdigits2 (Zpos m) - 1 + Zpos d)%Z by lia.
      rewrite !Z.pow_add_r by lia.
      assert (0 < 2 ^ Zpos d)%Z by (apply Z.pow_pos_nonneg; lia).
      nia.
Qed.

Theorem binary_round_spec s m e :
  exists v, rnd (F2R (Zpos m) e) v /\ repr s v (binary_round prec emax s m e).
Proof.
  unfold binary_round.
  pose proof (shl_align_spec m e (fexp (Zpos (digits2_pos m) + e))) as H.
  destruct (shl_align m e (fexp (Zpos (digits2_pos m) + e))) as [mz ez].
  destruct H as (Ev & Ez & Ed).
  rewrite <- Ev.
  apply binary_round_aux_spec.
  - lia.
  - reflexivity.
  - rewrite Ed. change (Zdigits2 (Zpos m)) with (Zpos (digits2_pos m)). zlia.
Qed.

Lemma F2R_opp m e : F2R (- m) e = - F2R m e.
Proof. unfold F2R. rewrite opp_IZR. ring. Qed.

Lemma F2R_plus m1 m2 e : F2R (m1 + m2) e = F2R m1 e + F2R m2 e.
Proof. unfold F2R. rewrite plus_IZR. ring. Qed.

Lemma F2R_minus m1 m2 e : F2R (m1 - m2) e = F2R m1 e - F2R m2 e.
Proof. unfold F2R. rewrite minus_IZR. ring. Qed.

(** The real value of a float; zero for what has none. *)
Definition SF2R (x : spec_float) : R :=
  match x with
  | S754_finite s m e => F2R (cond_Zopp s (Zpos m)) e
  | _ => 0
  end.

Theorem binary_normalize_spec m e sz :
  match m with
  | Z0 => binary_normalize prec emax m e sz = S754_zero sz
  | _ => exists v, rnd (Rabs (F2R m e)) v /\
                   repr (m <? 0)%Z v (binary_normalize prec emax m e sz)
  end.
Proof.
  destruct m as [| p | p]; cbn [binary_normalize].
  - reflexivity.
  - replace (Rabs (F2R (Zpos p) e)) with (F2R (Zpos p) e).
    + apply binary_round_spec.
    + symmetry. apply Rabs_pos_eq. unfold F2R.
      apply Rmult_le_pos; [apply IZR_le; lia | left; apply bpow_gt_0].
  - replace (Rabs (F2R (Zneg p) e)) with (F2R (Zpos p) e).
    + apply binary_round_spec.
    + change (Zneg p) with (- Zpos p)%Z. rewrite F2R_opp, Rabs_Ropp.
      symmetry. apply Rabs_pos_eq. unfold F2R.
      apply Rmult_le_pos; [apply IZR_le; lia | left; apply bpow_gt_0].
Qed.

Lemma shl_align_fst m e e' :
  (e' <= e)%Z -> F2R (Zpos (fst (shl_align m e e'))) e' = F2R (Zpos m) e.
Proof.
  intro H. pose proof (shl_align_spec m e e') as Hs.
  destruct (shl_align m e e') as [mz ez]. cbn [fst].
  destruct Hs as (Ev & Ez & _). rewrite <- Ev. f_equal. lia.
Qed.

Lemma F2R_cond_Zopp s m e : F2R (cond_Zopp s m) e = (if s then - F2R m e else F2R m e).
Proof. destruct s; cbn [cond_Zopp]; [apply F2R_opp | reflexivity]. Qed.

(** The sum and the difference of two finite floats are roundings of an
    integer mantissa that holds the exact result. *)
Lemma SFadd_finite s1 m1 e1 s2 m2 e2 :
  exists k,
    SFadd prec emax (S754_finite s1 m1 e1) (S754_finite s2 m2 e2) =
      binary_normalize prec emax k (Z.min e1 e2) false /\
    F2R k (Z.min e1 e2) =
      SF2R (S754_finite s1 m1 e1) + SF2R (S754_finite s2 m2 e2).
Proof.
  cbn [SFadd SF2R]. eexists. split; [reflexivity | ].
  rewrite F2R_plus, !F2R_cond_Zopp, !shl_align_fst by lia.
  destruct s1, s2; reflexivity.
Qed.

Lemma SFsub_finite s1 m1 e1 s2 m2 e2 :
  exists k,
    SFsub prec emax (S754_finite s1 m1 e1) (S754_finite s2 m2 e2) =
      binary_normalize prec emax k (Z.min e1 e2) false /\
    F2R k (Z.min e1 e2) =
      SF2R (S754_finite s1 m1 e1) - SF2R (S754_finite s2 m2 e2).
Proof.
  cbn [SFsub SF2R]. eexists. split; [reflexivity | ].
  rewrite F2R_minus, !F2R_cond_Zopp, !shl_align_fst by lia.
  destruct s1, s2; reflexivity.
Qed.

(** *** Signs *)

Definition no_negativo (r : spec_float) : Prop :=
  match r with
  | S754_zero _ | S754_finite false _ _ | S754_infinity false => True
  | _ => False
  end.

Definition positivo (r : spec_float) : Prop :=
  match r with
  | S754_finite false _ _ | S754_infinity false => True
  | _ => False
  end.

Lemma positivo_no_negativo r : positivo r -> no_negativo r.
Proof. destruct r as [s | s | | s m e]; try destruct s; cbn; auto. Qed.

Lemma repr_no_negativo v r : repr false v r -> no_negativo r.
Proof.
  intros [[_ ->] | [(m & e & -> & _) | [-> _]]]; exact I.
Qed.

Lemma repr_positivo v r : repr false v r -> 0 < v -> positivo r.
Proof.
  intros [[-> _] | [(m & e & -> & _) | [-> _]]] Hv; [lra | exact I | exact I].
Qed.

Lemma repr_valid s v r : repr s v r -> valid_binary r = true.
Proof.
  intros [[_ ->] | [(m & e & -> & _ & Hb) | [-> _]]]; [reflexivity | exact Hb | reflexivity].
Qed.

Lemma F2R_pos m e : 0 < F2R (Zpos m) e.
Proof.
  unfold F2R. apply Rmult_lt_0_compat; [apply IZR_lt; lia | apply bpow_gt_0].
Qed.

Lemma leb_0_no_negativo (x : float) :
  (0 <=? x)%float = true <-> no_negativo (Prim2SF x).
Proof.
  rewrite FloatAxioms.leb_spec. change (Prim2SF 0) with (S754_zero false).
  destruct (Prim2SF x) as [s | s | | s m e]; try destruct s; cbn; intuition discriminate.
Qed.

Lemma ltb_0_positivo (x : float) :
  (0 <? x)%float = true <-> positivo (Prim2SF x).
Proof.
  rewrite FloatAxioms.ltb_spec. change (Prim2SF 0) with (S754_zero false).
  destruct (Prim2SF x) as [s | s | | s m e]; try destruct s; cbn; intuition discriminate.
Qed.

Lemma positivo_no_cero (x : float) :
  positivo (Prim2SF x) -> (x =? 0)%float = false.
Proof.
  rewrite FloatAxioms.eqb_spec. change (Prim2SF 0) with (S754_zero false).
  destruct (Prim2SF x) as [s | s | | s m e]; try destruct s; cbn; intuition discriminate.
Qed.

Lemma Prim2SF_bounded (x : float) s m e :
  Prim2SF x = S754_finite s m e -> SpecFloat.bounded prec emax m e = true.
Proof.
  intro E. pose proof (Prim2SF_valid x) as H. rewrite E in H. exact H.
Qed.

(** The product of a float that is not negative and a positive finite one
    is not negative. *)
Lemma mul_no_negativo (x c : float) mc ec :
  (0 <=? x)%float = true -> Prim2SF c = S754_finite false mc ec ->
  (0 <=? x * c)%float = true.
Proof.
  rewrite !leb_0_no_negativo, FloatAxioms.mul_spec. unfold SF64mul.
  intros Hx Ec. rewrite Ec.
  pose proof (Prim2SF_bounded c _ _ _ Ec) as Hc.
  destruct (Prim2SF x) as [s | s | | s m e] eqn:Ex; try destruct s; try contradiction;
    try exact I.
  pose proof (Prim2SF_bounded x _ _ _ Ex) as Hb.
  destruct (SFmul_finite false m e false mc ec Hb Hc) as (v & _ & Hr).
  exact (repr_no_negativo _ _ Hr).
Qed.

(** The sum of a float that is not negative and a positive finite one is
    positive. *)
Lemma add_positivo (x c : float) mc ec :
  (0 <=? x)%float = true -> Prim2SF c = S754_finite false mc ec ->
  (0 <? x + c)%float = true.
Proof.
  rewrite leb_0_no_negativo, ltb_0_positivo, FloatAxioms.add_spec. unfold SF64add.
  intros Hx Ec. rewrite Ec.
  pose proof (Prim2SF_bounded c _ _ _ Ec) as Hc.
  destruct (Prim2SF x) as [s | s | | s m e] eqn:Ex; try destruct s; try contradiction;
    try exact I.
  destruct (SFadd_finite false m e false mc ec) as (k & -> & Ek).
  cbn [SF2R cond_Zopp] in Ek.
  pose proof (F2R_pos m e). pose proof (F2R_pos mc ec).
  assert (0 < k)%Z as Hk.
  { apply (F2R_lt_inv _ _ (Z.min e ec)). rewrite F2R_0. lra. }
  pose proof (binary_normalize_spec k (Z.min e ec) false) as Hn.
  destruct k as [| p | p]; try lia.
  destruct Hn as (v & Hrnd & Hr).
  change (Zpos p <? 0)%Z with false in Hr.
  apply (repr_positivo v _ Hr).
  destruct (Hrnd (F2R (Zpos mc) ec) (bounded_formato _ _ Hc)) as [Hlow _].
  rewrite Rabs_pos_eq in Hlow by lra.
  specialize (Hlow ltac:(lra)). lra.
Qed.

(** *** The quotient of two positive floats against 1 *)

Lemma formato_1 : formato 1.
Proof.
  exists 1%Z, 0%Z. unfold F2R. rewrite bpow_0. split; [lra | ].
  split; [rewrite pow2_prec; lia | zlia].
Qed.

(** The largest float below 1. *)
Definition pred_1 : R := F2R (2 ^ prec - 1) (- prec).

Lemma formato_pred_1 : formato pred_1.
Proof.
  exists (2 ^ prec - 1)%Z, (- prec)%Z. split; [reflexivity | ].
  split; [rewrite pow2_prec; lia | zlia].
Qed.

Lemma pred_1_eq : pred_1 = 1 - bpow (- prec).
Proof.
  unfold pred_1. rewrite F2R_minus. unfold F2R at 2. rewrite Rmult_1_l.
  rewrite <- (F2R_bpow (- prec) prec) by zlia.
  replace (- prec + prec)%Z with 0%Z by lia. rewrite bpow_0. reflexivity.
Qed.

Lemma pred_1_lt_1 : pred_1 < 1.
Proof. rewrite pred_1_eq. pose proof (bpow_gt_0 (- prec)). lra. Qed.

(** Below a float of the format, the next one is at least a relative
    2^-53 away. *)
Lemma canonical_gap m1 e1 m2 e2 :
  SpecFloat.bounded prec emax m1 e1 = true ->
  SpecFloat.bounded prec emax m2 e2 = true ->
  F2R (Zpos m1) e1 < F2R (Zpos m2) e2 ->
  F2R (Zpos m1) e1 <= F2R (Zpos m2) e2 * pred_1.
Proof.
  intros H1 H2 Hlt. rewrite pred_1_eq.
  destruct (bounded_canonical m1 e1 H1) as (Hm1 & He1 & _).
  destruct (bounded_canonical m2 e2 H2) as (Hm2 & He2 & _ & _ & Hn).
  pose proof (bpow_gt_0 e2) as Hb2.
  assert (F2R (Zpos m2) e2 * bpow (- prec) < bpow e2) as Hulp.
  { unfold F2R. rewrite Rmult_assoc, <- bpow_add.
    replace (bpow e2) with (F2R (2 ^ prec) (e2 + - prec)).
    - apply F2R_lt. exact Hm2.
    - rewrite <- (F2R_bpow (e2 + - prec) prec) by zlia. f_equal. lia. }
  destruct (Z_le_gt_dec e2 e1) as [Hge | Hgt].
  - (* the smaller one is on the grid of the larger one *)
    rewrite (F2R_shift (Zpos m1) e1 (e1 - e2)) in * by lia.
    replace (e1 - (e1 - e2))%Z with e2 in * by lia.
    apply F2R_lt_inv in Hlt.
    assert (F2R (Zpos m1 * 2 ^ (e1 - e2)) e2 <= F2R (Zpos m2 - 1) e2) as Hle
      by (apply F2R_le; lia).
    rewrite F2R_minus in Hle. unfold F2R at 3 in Hle. lra.
  - (* the larger one has all its bits *)
    destruct (Hn ltac:(lia)) as [Hm2' _].
    assert (F2R (Zpos m1) e1 <= F2R (2 ^ prec - 1) (e2 - 1)) as Ha.
    { apply Rle_trans with (F2R (2 ^ prec - 1) e1).
      - apply F2R_le. lia.
      - unfold F2R. apply Rmult_le_compat_l.
        + apply IZR_le. rewrite pow2_prec. lia.
        + apply bpow_le. lia. }
    assert (F2R (2 ^ (prec - 1)) e2 <= F2R (Zpos m2) e2) as Hb by (apply F2R_le; exact Hm2').
    assert (F2R (2 ^ prec - 1) (e2 - 1) = F2R (2 ^ (prec - 1)) e2 * (1 - bpow (- prec))) as Ec.
    { unfold F2R. rewrite minus_IZR.
      assert (IZR (2 ^ (prec - 1)) * 2 = IZR (2 ^ prec)) as E2.
      { rewrite pow2_prec, pow2_prec1, <- mult_IZR. reflexivity. }
      assert (IZR (2 ^ prec) * bpow (- prec) = 1) as E1.
      { rewrite <- (bpow_IZR prec), <- bpow_add by zlia.
        replace (prec + - prec)%Z with 0%Z by lia. apply bpow_0. }
      replace (bpow e2) with (2 * bpow (e2 - 1))
        by (rewrite <- bpow_1, <- bpow_add; f_equal; lia).
      set (u := bpow (e2 - 1)). set (w := bpow (- prec)) in *.
      set (h := IZR (2 ^ (prec - 1))) in *. set (P := IZR (2 ^ prec)) in *.
      replace (h * (2 * u) * (1 - w)) with (h * 2 * u - (h * 2 * w) * u) by ring.
      rewrite E2, E1. ring. }
    rewrite Ec in Ha.
    pose proof (bpow_gt_0 (- prec)).
    assert (bpow (- prec) < 1).
    { rewrite <- bpow_0. apply bpow_lt. zlia. }
    nra.
Qed.

Lemma SFdiv_ge_1 ma ea mm em :
  SpecFloat.bounded prec emax ma ea = true ->
  SpecFloat.bounded prec emax mm em = true ->
  F2R (Zpos mm) em <= F2R (Zpos ma) ea ->
  match SFdiv prec emax (S754_finite false ma ea) (S754_finite false mm em) with
  | S754_finite false mr er => 1 <= F2R (Zpos mr) er
  | S754_infinity false => True
  | _ => False
  end.
Proof.
  intros Ha Hm Hle.
  destruct (SFdiv_finite false ma ea false mm em) as (v & Hrnd & Hr).
  cbn [xorb] in Hr.
  pose proof (F2R_pos mm em) as Hb.
  assert (1 <= F2R (Zpos ma) ea / F2R (Zpos mm) em) as Hx.
  { apply Rmult_le_reg_r with (F2R (Zpos mm) em); [exact Hb | ].
    unfold Rdiv. rewrite Rmult_assoc, Rinv_l, Rmult_1_r by lra. lra. }
  destruct (Hrnd 1 formato_1) as [Hlow _]. specialize (Hlow Hx).
  destruct Hr as [[-> _] | [(m & e & -> & Ev & _) | [-> _]]].
  - lra.
  - rewrite <- Ev. exact Hlow.
  - exact I.
Qed.

Lemma SFdiv_lt_1 ma ea mm em :
  SpecFloat.bounded prec emax ma ea = true ->
  SpecFloat.bounded prec emax mm em = true ->
  F2R (Zpos ma) ea < F2R (Zpos mm) em ->
  match SFdiv prec emax (S754_finite false ma ea) (S754_finite false mm em) with
  | S754_finite false mr er => F2R (Zpos mr) er < 1
  | S754_zero false => True
  | _ => False
  end.
Proof.
  intros Ha Hm Hlt.
  destruct (SFdiv_finite false ma ea false mm em) as (v & Hrnd & Hr).
  cbn [xorb] in Hr.
  pose proof (F2R_pos mm em) as Hb.
  pose proof (canonical_gap ma ea mm em Ha Hm Hlt) as Hgap.
  assert (F2R (Zpos ma) ea / F2R (Zpos mm) em <= pred_1) as Hx.
  { apply Rmult_le_reg_r with (F2R (Zpos mm) em); [exact Hb | ].
    unfold Rdiv. rewrite Rmult_assoc, Rinv_l, Rmult_1_r by lra. lra. }
  destruct (Hrnd pred_1 formato_pred_1) as [_ Hup]. specialize (Hup Hx).
  pose proof pred_1_lt_1.
  destruct Hr as [[_ ->] | [(m & e & -> & Ev & _) | [-> Hinf]]].
  - exact I.
  - rewrite <- Ev. lra.
  - assert (1 <= bpow emax) by (apply bpow_ge_1; zlia). lra.
Qed.

(** *** The integer part of a positive float *)

Lemma shiftl_ge_1 m e : 1 <= F2R (Zpos m) e -> (1 <= Z.shiftl (Zpos m) e)%Z.
Proof.
  intro H. destruct (Z_le_gt_dec 0 e) as [He | He].
  - rewrite Z.shiftl_mul_pow2 by exact He.
    assert (0 < 2 ^ e)%Z by (apply Z.pow_pos_nonneg; lia). nia.
  - rewrite Z.shiftl_div_pow2 by lia.
    assert (0 < 2 ^ (- e))%Z as Hp by (apply Z.pow_pos_nonneg; lia).
    apply Z.div_le_lower_bound; [exact Hp | ].
    rewrite Z.mul_1_r. apply (F2R_le_inv _ _ e).
    rewrite <- (F2R_bpow e (- e)) by lia.
    replace (e + - e)%Z with 0%Z by lia. rewrite bpow_0. exact H.
Qed.

Lemma shiftl_lt_1 m e : F2R (Zpos m) e < 1 -> Z.shiftl (Zpos m) e = 0%Z.
Proof.
  intro H. destruct (Z_le_gt_dec 0 e) as [He | He].
  - exfalso. pose proof (bpow_ge_1 e He).
    assert (1 <= IZR (Zpos m)) by (apply IZR_le; lia).
    unfold F2R in H. nra.
  - rewrite Z.shiftl_div_pow2 by lia.
    apply Z.div_small. split; [lia | ].
    apply (F2R_lt_inv _ _ e).
    rewrite <- (F2R_bpow e (- e)) by lia.
    replace (e + - e)%Z with 0%Z by lia. rewrite bpow_0. exact H.
Qed.

(** *** A product by a factor between 1/2 and 1, taken off and added back *)

Lemma rnd_exact x v : rnd x v -> formato x -> v = x.
Proof.
  intros H Hx. destruct (H x Hx) as [H1 H2].
  specialize (H1 (Rle_refl x)). specialize (H2 (Rle_refl x)). lra.
Qed.

Lemma bounded_lt_emax m e :
  SpecFloat.bounded prec emax m e = true -> F2R (Zpos m) e < bpow emax.
Proof.
  intro H. destruct (bounded_canonical m e H) as (Hm & _ & He & _).
  apply Rlt_le_trans with (bpow (e + prec)).
  - rewrite (F2R_bpow e prec) by zlia. apply F2R_lt. exact Hm.
  - apply bpow_le. lia.
Qed.

Lemma repr_finite v r :
  repr false v r -> 0 < v -> v < bpow emax ->
  exists m e, r = S754_finite false m e /\ v = F2R (Zpos m) e /\
              SpecFloat.bounded prec emax m e = true.
Proof.
  intros [[-> _] | [H | [_ Hinf]]] H0 H1; [lra | exact H | lra].
Qed.

(** A float with exponent [-prec] and all its bits is in [1/2, 1). *)
Lemma factor_medio mc :
  SpecFloat.bounded prec emax mc (- prec) = true ->
  / 2 <= F2R (Zpos mc) (- prec) <= 1.
Proof.
  intro H. destruct (bounded_canonical mc (- prec) H) as (Hm & _ & _ & _ & Hn).
  destruct (Hn ltac:(zlia)) as [Hm' _].
  split.
  - replace (/ 2) with (F2R (2 ^ (prec - 1)) (- prec)).
    + apply F2R_le. exact Hm'.
    + rewrite <- (F2R_bpow (- prec) (prec - 1)) by zlia.
      replace (- prec + (prec - 1))%Z with (-1)%Z by lia.
      unfold bpow, powerRZ. change (Pos.to_nat 1) with 1%nat. cbn [pow].
      rewrite Rmult_1_r. reflexivity.
  - replace 1 with (F2R (2 ^ prec) (- prec)).
    + apply F2R_le. lia.
    + rewrite <- (F2R_bpow (- prec) prec) by zlia.
      replace (- prec + prec)%Z with 0%Z by lia. apply bpow_0.
Qed.

(** The difference of a float and a float between its half and itself is a
    float. *)
Lemma resta_en_formato mL eL mA eA :
  SpecFloat.bounded prec emax mL eL = true ->
  SpecFloat.bounded prec emax mA eA = true ->
  F2R (Zpos mA) eA <= F2R (Zpos mL) eL ->
  ((emin < eL)%Z -> F2R (Zpos mL) eL / 2 <= F2R (Zpos mA) eA) ->
  formato (F2R (Zpos mL) eL - F2R (Zpos mA) eA).
Proof.
  intros HL HA Hle Hhalf.
  destruct (bounded_canonical mL eL HL) as (HmL & HeL & _).
  destruct (bounded_canonical mA eA HA) as (HmA & HeA & _).
  assert (eA <= eL)%Z as He.
  { destruct (Z_le_gt_dec eA eL) as [H | H]; [exact H | exfalso].
    pose proof (canonical_lt mL eL mA eA HL HA ltac:(lia)). lra. }
  rewrite (F2R_shift (Zpos mL) eL (eL - eA)) in * by lia.
  replace (eL - (eL - eA))%Z with eA in * by lia.
  set (k := (Zpos mL * 2 ^ (eL - eA))%Z) in *.
  rewrite <- F2R_minus.
  exists (k - Zpos mA)%Z, eA. split; [reflexivity | ]. split; [ | exact HeA].
  assert (Zpos mA <= k)%Z as Hk by (apply (F2R_le_inv _ _ eA); exact Hle).
  split; [lia | ].
  destruct (Z.eq_dec eL emin) as [E | E].
  - assert (eA = eL) as EA by lia. unfold k. rewrite EA, Z.sub_diag, Z.pow_0_r. lia.
  - specialize (Hhalf ltac:(lia)).
    assert (F2R (k - Zpos mA) eA <= F2R (Zpos mA) eA) as Hd
      by (rewrite F2R_minus; lra).
    apply F2R_le_inv in Hd. lia.
Qed.

Theorem quita_y_pon mL eL mc :
  SpecFloat.bounded prec emax mL eL = true ->
  SpecFloat.bounded prec emax mc (- prec) = true ->
  let l := S754_finite false mL eL in
  let a := SFmul prec emax l (S754_finite false mc (- prec)) in
  SFadd prec emax a (SFsub prec emax l a) = l.
Proof.
  intros HL Hc. cbv zeta.
  destruct (SFmul_finite false mL eL false mc (- prec) HL Hc) as (v & Hrnd & Hr).
  cbn [xorb] in Hr.
  pose proof (factor_medio mc Hc) as [Hc1 Hc2].
  pose proof (F2R_pos mL eL) as HLpos.
  pose proof (bounded_lt_emax mL eL HL) as HLmax.
  pose proof (bounded_formato mL eL HL) as HLf.
  set (VL := F2R (Zpos mL) eL) in *. set (C := F2R (Zpos mc) (- prec)) in *.
  assert (v <= VL) as Hv.
  { destruct (Hrnd VL HLf) as [_ Hup]. apply Hup. nra. }
  destruct Hr as [[Ev Ea] | [(mA & eA & Ea & Ev & HA) | [_ Hinf]]]; [ | | lra].
  - (* the product rounds to zero *)
    rewrite Ea. reflexivity.
  - rewrite Ea.
    assert ((emin < eL)%Z -> VL / 2 <= v) as Hhalf.
    { intro He. destruct (bounded_canonical mL eL HL) as (HmL & _).
      assert (formato (VL / 2)) as Hf.
      { exists (Zpos mL), (eL - 1)%Z. split; [ | split; [lia | lia]].
        unfold VL, F2R. replace eL with (eL - 1 + 1)%Z at 1 by lia.
        rewrite bpow_add, bpow_1. field. }
      destruct (Hrnd (VL / 2) Hf) as [Hlow _]. apply Hlow. nra. }
    rewrite Ev in Hv, Hhalf.
    pose proof (resta_en_formato mL eL mA eA HL HA Hv Hhalf) as Hdf.
    destruct (SFsub_finite false mL eL false mA eA) as (k & -> & Ek).
    cbn [SF2R cond_Zopp] in Ek. fold VL in Ek, Hdf.
    pose proof (binary_normalize_spec k (Z.min eL eA) false) as Hn.
    destruct (Z.eq_dec k 0) as [-> | Hk0].
    + (* the product is the float itself *)
      rewrite Hn. cbn [SFadd]. rewrite F2R_0 in Ek.
      destruct (canonical_unique mA eA mL eL HA HL) as [-> ->]; [unfold VL in Ek; lra | ].
      reflexivity.
    + assert (0 < k)%Z as Hkp.
      { assert (0 <= k)%Z by (apply (F2R_le_inv _ _ (Z.min eL eA)); rewrite F2R_0; lra).
        lia. }
      destruct k as [| pk | pk]; try lia.
      destruct Hn as (vU & HrU & HreU). change (Zpos pk <? 0)%Z with false in HreU.
      pose proof (F2R_pos pk (Z.min eL eA)) as Hkpos.
      rewrite Rabs_pos_eq in HrU by lra. rewrite Ek in HrU, Hkpos.
      pose proof (rnd_exact _ _ HrU Hdf) as EU.
      pose proof (F2R_pos mA eA) as HApos.
      destruct (repr_finite vU _ HreU ltac:(lra) ltac:(lra)) as (mU & eU & -> & EvU & HU).
      (* adding the difference back *)
      destruct (SFadd_finite false mA eA false mU eU) as (k2 & -> & Ek2).
      cbn [SF2R cond_Zopp] in Ek2.
      assert (F2R k2 (Z.min eA eU) = VL) as Ek2' by (rewrite Ek2, <- EvU, EU; lra).
      assert (0 < k2)%Z as Hk2.
      { apply (F2R_lt_inv _ _ (Z.min eA eU)). rewrite F2R_0. lra. }
      pose proof (binary_normalize_spec k2 (Z.min eA eU) false) as Hn2.
      destruct k2 as [| p2 | p2]; try lia.
      destruct Hn2 as (vS & HrS & HreS). change (Zpos p2 <? 0)%Z with false in HreS.
      rewrite Rabs_pos_eq in HrS by lra. rewrite Ek2' in HrS.
      pose proof (rnd_exact _ _ HrS HLf) as ES.
      destruct (repr_finite vS _ HreS ltac:(lra) ltac:(lra)) as (mS & eS & -> & EvS & HS).
      destruct (canonical_unique mS eS mL eL HS HL) as [-> ->];
        [unfold VL in ES; lra | reflexivity].
Qed.

End B64.

(** ** Python's operations on floats that are not negative *)

Lemma floor_inr_finite (x : float) m e c :
  Prim2SF x = S754_finite false m e -> Py.floor x = inr c -> c = Z.shiftl (Zpos m) e.
Proof.
  unfold Py.floor. intros ->. cbn [cond_Zopp]. intros [= <-]. reflexivity.
Qed.

(** A built area at least the minimum area holds at least one unit. *)
Lemma floor_div_ge_1 (a m : float) (c : Z) :
  (0 <? m)%float = true -> (m <=? a)%float = true ->
  Py.floor (a / m) = inr c -> 1 <= c.
Proof.
  rewrite B64.ltb_0_positivo, FloatAxioms.leb_spec. unfold Py.floor.
  rewrite FloatAxioms.div_spec. unfold SF64div.
  intros Hm Hle.
  destruct (Prim2SF m) as [sm | sm | | sm mm em] eqn:Em; try destruct sm; try contradiction.
  - (* an infinite minimum area *)
    destruct (Prim2SF a) as [sa | sa | | sa ma ea]; try destruct sa; try discriminate.
  - destruct (Prim2SF a) as [sa | sa | | sa ma ea] eqn:Ea; try destruct sa;
      try discriminate.
    pose proof (B64.Prim2SF_bounded a _ _ _ Ea) as Ha.
    pose proof (B64.Prim2SF_bounded m _ _ _ Em) as Hb.
    pose proof (B64.SFcompare_pos mm em ma ea Hb Ha) as Hc.
    unfold SFleb in Hle.
    assert (B64.F2R (Zpos mm) em <= B64.F2R (Zpos ma) ea)%R as Hr.
    { destruct (SFcompare (S754_finite false mm em) (S754_finite false ma ea))
        as [[ | | ] | ]; try discriminate; lra. }
    pose proof (B64.SFdiv_ge_1 ma ea mm em Ha Hb Hr) as Hd.
    destruct (SFdiv prec emax (S754_finite false ma ea) (S754_finite false mm em))
      as [s | s | | s mr er]; try destruct s; try contradiction; try discriminate.
    cbn [cond_Zopp]. intros [= <-]. apply B64.shiftl_ge_1. exact Hd.
Qed.

(** A built area below the minimum area holds no unit. *)
Lemma floor_div_lt_1 (a m : float) :
  (0 <=? a)%float = true -> (a <? m)%float = true -> Py.floor (a / m) = inr 0.
Proof.
  rewrite B64.leb_0_no_negativo, FloatAxioms.ltb_spec. unfold Py.floor.
  rewrite FloatAxioms.div_spec. unfold SF64div.
  intros Ha Hlt.
  destruct (Prim2SF a) as [sa | sa | | sa ma ea] eqn:Ea; try destruct sa;
    try contradiction;
    destruct (Prim2SF m) as [sm | sm | | sm mm em] eqn:Em; try destruct sm;
    try discriminate; try reflexivity.
  pose proof (B64.Prim2SF_bounded a _ _ _ Ea) as Hba.
  pose proof (B64.Prim2SF_bounded m _ _ _ Em) as Hbm.
  pose proof (B64.SFcompare_pos ma ea mm em Hba Hbm) as Hc.
  unfold SFltb in Hlt.
  assert (B64.F2R (Zpos ma) ea < B64.F2R (Zpos mm) em)%R as Hr.
  { destruct (SFcompare (S754_finite false ma ea) (S754_finite false mm em))
      as [[ | | ] | ]; try discriminate; lra. }
  pose proof (B64.SFdiv_lt_1 ma ea mm em Hba Hbm Hr) as Hd.
  destruct (SFdiv prec emax (S754_finite false ma ea) (S754_finite false mm em))
    as [s | s | | s mr er]; try destruct s; try contradiction; try reflexivity.
  cbn [cond_Zopp]. f_equal. apply B64.shiftl_lt_1. exact Hd.
Qed.

Lemma float_of_int_inr (n : Z) (y : float) :
  Py.float_of_int n = inr y ->
  y = SF2Prim (binary_normalize prec emax n 0 false) /\
  forall s, binary_normalize prec emax n 0 false <> S754_infinity s.
Proof.
  unfold Py.float_of_int.
  destruct (binary_normalize prec emax n 0 false) as [s | s | | s m e];
    intro H; try discriminate H; injection H as H;
    (split; [symmetry; exact H | intros s'; discriminate]).
Qed.

(** [float(n)] of an int that is not negative is not negative. *)
Lemma float_of_int_no_negativo (n : Z) (y : float) :
  0 <= n -> Py.float_of_int n = inr y -> (0 <=? y)%float = true.
Proof.
  intros Hn Hy. apply float_of_int_inr in Hy. destruct Hy as [-> Hfin].
  rewrite B64.leb_0_no_negativo.
  pose proof (B64.binary_normalize_spec n 0 false) as Hs.
  destruct n as [| p | p]; try lia.
  - rewrite Hs. reflexivity.
  - destruct Hs as (v & _ & Hr). change (Zpos p <? 0) with false in Hr.
    rewrite Prim2SF_SF2Prim by exact (B64.repr_valid _ _ _ Hr).
    exact (B64.repr_no_negativo _ _ Hr).
Qed.

(** [n * k + c], the minimum area of a unit of [n] rooms, is positive. *)
Lemma area_min_positiva (n : Z) (k c x : float) mk ek mc ec :
  0 <= n ->
  Prim2SF k = S754_finite false mk ek -> Prim2SF c = S754_finite false mc ec ->
  Py.int_mul n k = inr x -> (0 <? x + c)%float = true.
Proof.
  intros Hn Ek Ec. unfold Py.int_mul.
  destruct (Py.float_of_int n) as [e | y] eqn:Ey; [discriminate | ].
  intros [= <-].
  eapply B64.add_positivo; [ | exact Ec].
  eapply B64.mul_no_negativo; [ | exact Ek].
  eapply float_of_int_no_negativo; eassumption.
Qed.

(** The number of units of steps 2.3 and 2.4, from the floor [fl] of the
    optimum and the capacity [c] of the built area [a] for units of area [m]. *)
Lemma unidades_por_capacidad (a m : float) (fl c : Z) :
  (0 <=? a)%float = true -> (0 <? m)%float = true ->
  Py.floor (a / m) = inr c ->
  let n := if Z.max 1 fl >? c then c else Z.max 1 fl in
  ((m <=? a)%float = true -> 1 <= n) /\ ((a <? m)%float = true -> n = 0).
Proof.
  intros Ha Hm Hc n. subst n. split; intro H.
  - pose proof (floor_div_ge_1 a m c Hm H Hc).
    destruct (Z.max 1 fl >? c) eqn:E; lia.
  - pose proof (floor_div_lt_1 a m Ha H) as H0. rewrite H0 in Hc.
    injection Hc as <-.
    destruct (Z.max 1 fl >? 0) eqn:E; [reflexivity | ].
    rewrite Z.gtb_ltb in E. apply Z.ltb_ge in E. lia.
Qed.

(** The built fraction of the lot, for each size. *)
Lemma porc_de_tamano_finito (t : string) :
  exists mq eq, Prim2SF (porc_de_tamano t / 100)%float = S754_finite false mq eq.
Proof.
  unfold porc_de_tamano.
  destruct (String.eqb t "grande"); [ | destruct (String.eqb t "mediana")];
    do 2 eexists; vm_compute; reflexivity.
Qed.

Lemma area_construida_no_negativa (l : float) (t : string) :
  (0 <=? l)%float = true -> (0 <=? l * (porc_de_tamano t / 100))%float = true.
Proof.
  intro H. destruct (porc_de_tamano_finito t) as (mq & eq & E).
  exact (B64.mul_no_negativo l _ mq eq H E).
Qed.

(** A positive finite float. *)
Definition finito_positivo (x : float) : bool := ((0 <? x) && (x <? infinity))%float.

Lemma finito_positivo_spec (x : float) :
  finito_positivo x = true -> exists m e, Prim2SF x = S754_finite false m e.
Proof.
  unfold finito_positivo. rewrite andb_true_iff, !FloatAxioms.ltb_spec.
  change (Prim2SF 0) with (S754_zero false).
  change (Prim2SF infinity) with (S754_infinity false).
  intros [H0 H1].
  destruct (Prim2SF x) as [s | s | | s m e]; try destruct s; try discriminate.
  do 2 eexists. reflexivity.
Qed.

Lemma eqb_refl_finite (x : float) s m e :
  Prim2SF x = S754_finite s m e -> (x =? x)%float = true.
Proof.
  intro E. rewrite FloatAxioms.eqb_spec, E. unfold SFeqb. cbn [SFcompare].
  rewrite Z.compare_refl, Pos.compare_cont_refl. destruct s; reflexivity.
Qed.

(** A part of a positive finite float, by a factor between 1/2 and 1, and
    what the part leaves add up to the float, exactly. *)
Lemma parte_y_resto (l c : float) (mc : positive) :
  finito_positivo l = true -> Prim2SF c = S754_finite false mc (- prec) ->
  (l * c + (l - l * c))%float = l.
Proof.
  intros Hl Ec. destruct (finito_positivo_spec l Hl) as (mL & eL & El).
  apply Prim2SF_inj.
  rewrite FloatAxioms.add_spec, FloatAxioms.sub_spec, FloatAxioms.mul_spec.
  unfold SF64add, SF64sub, SF64mul. rewrite El, Ec.
  apply B64.quita_y_pon.
  - exact (B64.Prim2SF_bounded l _ _ _ El).
  - exact (B64.Prim2SF_bounded c _ _ _ Ec).
Qed.

(** *** Which exceptions the operations raise *)

Lemma truediv_inl x y e :
  Py.truediv x y = inl e -> e = ZeroDivisionError /\ (y =? 0)%float = true.
Proof.
  unfold Py.truediv. destruct (y =? 0)%float; [ | discriminate].
  intros [= <-]. split; reflexivity.
Qed.

Lemma floor_inl x e : Py.floor x = inl e -> e <> ZeroDivisionError.
Proof.
  unfold Py.floor. destruct (Prim2SF x); intros [= <-]; discriminate.
Qed.

Lemma ceil_inl x e : Py.ceil x = inl e -> e <> ZeroDivisionError.
Proof.
  unfold Py.ceil. destruct (Prim2SF x); intros [= <-]; discriminate.
Qed.

Lemma float_of_int_inl n e : Py.float_of_int n = inl e -> e <> ZeroDivisionError.
Proof.
  unfold Py.float_of_int.
  destruct (binary_normalize prec emax n 0 false); intros [= <-]; discriminate.
Qed.

Lemma int_mul_inl n x e : Py.int_mul n x = inl e -> e <> ZeroDivisionError.
Proof.
  unfold Py.int_mul. destruct (Py.float_of_int n) eqn:E; [ | discriminate].
  intros [= <-]. exact (float_of_int_inl _ _ E).
Qed.

Lemma int_truediv_inl a b e :
  b <> 0 -> Py.int_truediv a b = inl e -> e <> ZeroDivisionError.
Proof.
  intro Hb. unfold Py.int_truediv.
  destruct (Z.eqb_spec b 0) as [E | _]; [contradiction | ].
  destruct (a =? 0); [discriminate | ].
  destruct (SFdiv_core_binary prec emax (Z.abs a) 0 (Z.abs b) 0) as [[q e'] l].
  destruct (binary_round_aux prec emax _ q e' l); intros [= <-]; discriminate.
Qed.

(** The table of costs raises nothing. *)
Lemma costo_m2_inr (e : Z) :
  exists c,
    (if e =? 3 then Py.int_truediv (1800000 + 2300000) 2
     else if e =? 4 then Py.int_truediv (2300000 + 2800000) 2
     else if e =? 5 then Py.int_truediv (2800000 + 3600000) 2
     else Py.int_truediv (3600000 + 4500000) 2) = inr c.
Proof.
  destruct (e =? 3); [ | destruct (e =? 4); [ | destruct (e =? 5)]];
    eexists; vm_compute; reflexivity.
Qed.

Lemma gt0_no_cero (x : float) : Py.gt0 x = true -> (x =? 0)%float = false.
Proof.
  unfold Py.gt0. intro H. apply B64.positivo_no_cero, B64.ltb_0_positivo, H.
Qed.

(** [float(n)] of a positive int is positive. *)
Lemma float_of_int_positivo (n : Z) (y : float) :
  0 < n -> Py.float_of_int n = inr y -> (0 <? y)%float = true.
Proof.
  intros Hn Hy. apply float_of_int_inr in Hy. destruct Hy as [-> Hfin].
  rewrite B64.ltb_0_positivo.
  pose proof (B64.binary_normalize_spec n 0 false) as Hs.
  destruct n as [| p | p]; try lia.
  destruct Hs as (v & Hrnd & Hr). change (Zpos p <? 0) with false in Hr.
  rewrite Prim2SF_SF2Prim by exact (B64.repr_valid _ _ _ Hr).
  apply (B64.repr_positivo v _ Hr).
  destruct (Hrnd 1%R B64.formato_1) as [Hlow _].
  assert (1 <= Rabs (B64.F2R (Zpos p) 0))%R as H1.
  { rewrite Rabs_pos_eq.
    - unfold B64.F2R. rewrite B64.bpow_0, Rmult_1_r. apply IZR_le. lia.
    - left. apply B64.F2R_pos. }
  specialize (Hlow H1). lra.
Qed.

Lemma truediv_int_inl (x : float) (n : Z) e :
  0 < n -> Py.truediv_int x n = inl e -> e <> ZeroDivisionError.
Proof.
  intros Hn. unfold Py.truediv_int.
  destruct (Py.float_of_int n) as [e' | y] eqn:Ey.
  - intros [= <-]. exact (float_of_int_inl _ _ Ey).
  - intro H. apply truediv_inl in H. destruct H as [_ H].
    pose proof (float_of_int_positivo n y Hn Ey) as Hy.
    apply B64.ltb_0_positivo, B64.positivo_no_cero in Hy. congruence.
Qed.

(** ** The properties of the specification *)

(** [_recalcular] returns normally from [p] and leaves [p']. *)
Definition recalculado (p p' : Proyecto) : Prop := _recalcular p = (p', inr tt).

Definition es_vivienda (p : Proyecto) : Prop :=
  tipo p = "casas" \/ tipo p = "edificio".

Ltac desplegar :=
  unfold _recalcular, recalcular_areas, recalcular_casas, recalcular_edificio,
    recalcular_otro, recalcular_costos, precio_base_m2_casas, precio_base_m2_edificio,
    unidades.

(** From a normal return [H] of the recomputation to the property of the
    object it leaves: the method is run symbolically, statement by statement. *)
Ltac ejecuta H :=
  lazymatch type of H with
  | recalculado ?p ?p' =>
      pattern p';
      lazymatch goal with
      | |- ?Q p' =>
          let post := fresh "post" in
          set (post := Q);
          refine (wp_run _recalcular (fun _ => post) p p' tt _ H); clear H;
          desplegar; wp_go; subst post; cbv beta; proj_simpl
      end
  end.

(** The capacity of the built area bounds the number of units. *)
Definition bajo_capacidad (p' : Proyecto) : Prop :=
  exists n a m q c,
    num_viviendas p' = Some n /\ area_construida p' = Some a /\
    area_min_vivienda p' = Some m /\ Py.truediv a m = inr q /\ Py.floor q = inr c /\
    n <= c.

Definition proyecto_otro_50 : Proyecto :=
  fst (__init__ "P1" "otro" 739000 "Cali" 50 500000 "grande" 4 1 739365).

(** C2, as stated, fails on a project of type "otro": a lot of 50 m2 has one
    warehouse unit although 40 m2 built hold no unit of 100 m2. *)
Lemma C2_otro_sobre_capacidad :
  recalculado proyecto_otro_50 proyecto_otro_50 /\ ~ bajo_capacidad proyecto_otro_50.
Proof.
  split; [vm_compute; reflexivity | ].
  intros (n & a & m & q & c & Hn & Ha & Hm & Hq & Hc & Hle).
  vm_compute in Hn, Ha, Hm.
  injection Hn as <-. injection Ha as <-. injection Hm as <-.
  vm_compute in Hq. injection Hq as <-.
  vm_compute in Hc. injection Hc as <-.
  lia.
Qed.

(** C2, amended: for houses and buildings the number of units never exceeds
    floor(built_area / min_unit_area); a project of another type has
    max(1, floor(0.70 * lot_area / 100)) units, whatever its built area. *)
Theorem C2_capacidad_es_techo (p p' : Proyecto) :
  recalculado p p' ->
  (es_vivienda p -> bajo_capacidad p') /\
  (~ es_vivienda p ->
   exists q c, Py.truediv (area_lote p * 0.70)%float 100 = inr q /\
     Py.floor q = inr c /\ num_viviendas p' = Some (Z.max 1 c)).
Proof.
  intro H. unfold bajo_capacidad, es_vivienda. ejecuta H.
  all: repeat match goal with
         | H : String.eqb _ _ = true |- _ => apply String.eqb_eq in H
         | H : String.eqb _ _ = false |- _ => apply String.eqb_neq in H
         end.
  all: split; [ intros Ht | intros Ht ]; try tauto.
  all: try solve [ do 5 eexists;
                   do 3 (split; [reflexivity | ]); do 2 (split; [eassumption | ]);
                   match goal with |- (if ?b then _ else _) <= _ => destruct b eqn:Hb end; lia ].
  all: try solve [ do 2 eexists; do 2 (split; [eassumption | ]); reflexivity ].
Qed.

Lemma C2_capacidad_es_techo_witness :
  bajo_capacidad (fst (__init__ "A" "casas" 739000 "Cali" 1000 500000 "grande" 4 3 739365)).
Proof.
  refine (proj1 (C2_capacidad_es_techo
            (fst (__init__ "A" "casas" 739000 "Cali" 1000 500000 "grande" 4 3 739365))
            _ _) _).
  - vm_compute. reflexivity.
  - left. reflexivity.
Defined.

(** The project of scenario A, whatever its id, dates and address. *)
Definition escenario_A (pid : string) (fecha_inicio : date) (direccion : string)
    (fecha_estimada_final : date) : Proyecto * (exn + unit) :=
  __init__ pid "casas" fecha_inicio direccion 1000 500000 "grande" 4 3
    fecha_estimada_final.

(** C4: scenario A. A house project on a lot of 1000 m2 at 500000 per m2, size
    "grande", stratum 4 and 3 rooms has built area 800, minimum unit area 130,
    cost 2550000 per m2, construction cost 2040000000, land cost 500000000,
    budget 2540000000, base price 3810000 per m2, optimum floor(38.1) = 38,
    capacity floor(800 / 130) = 6 and min(38, 6) = 6 units. *)
Theorem C4_escenario_A (pid : string) (fi : date) (dir : string) (ff : date) :
  let p' := fst (escenario_A pid fi dir ff) in
  snd (escenario_A pid fi dir ff) = inr tt /\
  area_construida p' = Some 800%float /\
  area_min_vivienda p' = Some 130%float /\
  costo_construccion_m2 p' = Some 2550000%float /\
  costo_construccion_total p' = Some 2040000000%float /\
  costo_terreno_total p' = Some 500000000%float /\
  presupuesto_total p' = Some 2540000000%float /\
  snd (precio_base_m2_casas p') = inr 3810000%float /\
  Py.floor (3810000 / (2.0 * 50000.0))%float = inr 38 /\
  Py.floor (800 / 130)%float = inr 6 /\
  num_viviendas p' = Some (Z.min 38 6) /\
  num_viviendas p' = Some 6.
Proof.
  cbv zeta. repeat split; vm_compute; reflexivity.
Qed.

(** C5: after a recomputation the budget is the float sum of the land cost and
    the construction cost, and the profit is the float product of 0.20 and the
    budget, bit for bit; so Python's [==] holds between them whenever the
    value is not NaN. *)
Theorem C5_presupuesto_y_ganancia (p p' : Proyecto) :
  recalculado p p' ->
  exists ct cc pt g,
    costo_terreno_total p' = Some ct /\
    costo_construccion_total p' = Some cc /\
    presupuesto_total p' = Some pt /\
    ganancia p' = Some g /\
    pt = (ct + cc)%float /\
    g = (0.20 * pt)%float /\
    (is_nan pt = false -> (pt =? ct + cc)%float = true) /\
    (is_nan g = false -> (g =? 0.20 * pt)%float = true).
Proof.
  intro H. ejecuta H.
  all: do 4 eexists; do 4 (split; [reflexivity | ]).
  all: split; [reflexivity | ]; split; [apply float_mul_comm | ].
  all: split; [apply eqb_refl_no_nan | ].
  all: rewrite <- float_mul_comm; apply eqb_refl_no_nan.
Qed.

Lemma C5_presupuesto_y_ganancia_witness :
  exists ct cc pt g,
    costo_terreno_total (fst (escenario_A "A" 739000 "Cali" 739365)) = Some ct /\
    costo_construccion_total (fst (escenario_A "A" 739000 "Cali" 739365)) = Some cc /\
    presupuesto_total (fst (escenario_A "A" 739000 "Cali" 739365)) = Some pt /\
    ganancia (fst (escenario_A "A" 739000 "Cali" 739365)) = Some g /\
    pt = (ct + cc)%float /\
    g = (0.20 * pt)%float /\
    (is_nan pt = false -> (pt =? ct + cc)%float = true) /\
    (is_nan g = false -> (g =? 0.20 * pt)%float = true).
Proof.
  apply (C5_presupuesto_y_ganancia (fst (escenario_A "A" 739000 "Cali" 739365))).
  vm_compute. reflexivity.
Defined.

(** C7: the recomputation is idempotent. Run again on the object it has left,
    with no attribute changed in between, it leaves the same object, every
    derived attribute with the same value, and ends the same way. *)
Theorem C7_recalcular_idempotente (p : Proyecto) :
  _recalcular (fst (_recalcular p)) = _recalcular p.
Proof.
  pose proof (conserva_recalcular p) as Hd.
  destruct (rel_recalcular p (fst (_recalcular p))) as (Hr & Hm & _).
  { split; [exact Hd | exact I]. }
  destruct (_recalcular p) as [p1 r1] eqn:E1. cbn [fst snd] in *.
  destruct (_recalcular p1) as [p2 r2] eqn:E2. cbn [fst snd] in *.
  subst r2. f_equal.
  unfold marco in Hm.
  repeat match goal with H : _ /\ _ |- _ => destruct H end.
  apply proyecto_ext; try (eapply tocado_fijo; eassumption).
  assumption.
Qed.

(** C9: the recomputation assigns derived attributes only. However it ends,
    the id, type, dates, address, lot area, land price, size class, stratum,
    rooms, construction percent and the finalization state are as before. *)
Theorem C9_recalcular_conserva_datos (p : Proyecto) :
  let p' := fst (_recalcular p) in
  pid p' = pid p /\ tipo p' = tipo p /\ fecha_inicio p' = fecha_inicio p /\
  fecha_estimada_final p' = fecha_estimada_final p /\ direccion p' = direccion p /\
  area_lote p' = area_lote p /\ precio_terreno_m2 p' = precio_terreno_m2 p /\
  tamano p' = tamano p /\ estrato p' = estrato p /\
  habitaciones p' = habitaciones p /\
  porc_construccion p' = porc_construccion p /\ finalizado p' = finalizado p /\
  fecha_real_final p' = fecha_real_final p.
Proof.
  cbv zeta. pose proof (conserva_recalcular p) as H. unfold mismos_datos in H.
  repeat match goal with H : _ /\ _ |- _ => destruct H end.
  repeat split; assumption.
Qed.

(** The local [precio_base_m2] of step 2.1, in the branch of the type. *)
Definition precio_base_m2 (p : Proyecto) : M float :=
  if String.eqb (tipo p) "casas" then precio_base_m2_casas else precio_base_m2_edificio.





Lemma dict_get_default {V : Type} (d : list (string * V)) (key : string) (default : V) :
  ~ In key (map fst d) -> Py.dict_get d key default = default.
Proof.
  induction d as [| [k v] d IH]; cbn [Py.dict_get map fst In]; intro H.
  - reflexivity.
  - destruct (String.eqb k key) eqn:E.
    + apply String.eqb_eq in E. exfalso. apply H. left. exact E.
    + apply IH. intro Hin. apply H. right. exact Hin.
Qed.

(** *** The formatter writes what it should *)

Lemma list_ascii_of_string_app (a b : string) :
  list_ascii_of_string (a ++ b) = (list_ascii_of_string a ++ list_ascii_of_string b)%list.
Proof. induction a as [| c a IH]; cbn; [reflexivity | rewrite IH; reflexivity]. Qed.

(** The characters [agrupa] adds, last first. *)
Fixpoint con_comas (rev_digits : list ascii) (k : nat) : list ascii :=
  match rev_digits with
  | [] => []
  | c :: rest =>
      match k with
      | 3%nat => "," :: c :: con_comas rest 1
      | _ => c :: con_comas rest (S k)
      end
  end%char.

Lemma agrupa_con_comas (rd : list ascii) (k : nat) (acc : string) :
  rev (list_ascii_of_string (Format.agrupa rd k acc)) =
  (rev (list_ascii_of_string acc) ++ con_comas rd k)%list.
Proof.
  revert k acc. induction rd as [| c rd IH]; intros k acc; cbn [Format.agrupa con_comas].
  - rewrite app_nil_r. reflexivity.
  - destruct k as [| [| [| [| k]]]]; rewrite IH; cbn [list_ascii_of_string rev];
      rewrite <- ?app_assoc; reflexivity.
Qed.

Lemma digito_no_signo (c : ascii) :
  Monto.es_digito c = true -> Ascii.eqb c "-" = false /\ Ascii.eqb c "," = false.
Proof.
  intro H. split; destruct (Ascii.eqb_spec c "-"), (Ascii.eqb_spec c ",");
    subst; try reflexivity; discriminate H.
Qed.

Lemma sin_comas_con_comas (rd : list ascii) (k : nat) (signo : bool) :
  Forall (fun c => Monto.es_digito c = true) rd -> (k <= 3)%nat -> (rd <> [] \/ k <> O) ->
  Monto.sin_comas (con_comas rd k ++ (if signo then ["-"%char] else []))%list k =
  Some (rd, signo).
Proof.
  intro H. revert k. induction H as [| c rd Hc H IH]; intros k Hk Hne.
  - destruct Hne as [Hne | Hne]; [contradiction | ].
    destruct k as [| k]; [contradiction | ].
    destruct signo; cbn; [ | reflexivity].
    destruct k as [| [| [| k]]]; reflexivity.
  - destruct (digito_no_signo c Hc) as [Hs Hco].
    assert (forall j, (j <= 3)%nat ->
              Monto.sin_comas
                (c :: con_comas rd (S j) ++ (if signo then ["-"%char] else []))%list j =
              Some (c :: rd, signo) \/ j = 3%nat) as Hpaso.
    { intros j Hj. destruct (Nat.eq_dec j 3) as [-> | Hj3]; [right; reflexivity | left].
      cbn [Monto.sin_comas]. rewrite Hs, Hc.
      rewrite (IH (S j)) by (try lia; right; discriminate).
      destruct j as [| [| [| j]]]; try reflexivity. lia. }
    destruct (Nat.eq_dec k 3) as [-> | Hk3].
    + cbn [con_comas app Monto.sin_comas]. change (Ascii.eqb "," "-") with false.
      cbv iota. rewrite Ascii.eqb_refl.
      destruct (Hpaso 0%nat ltac:(lia)) as [E | E]; [exact E | discriminate E].
    + destruct (Hpaso k Hk) as [E | E]; [ | contradiction].
      destruct k as [| [| [| k]]]; try exact E. lia.
Qed.

Lemma string_of_uint_digitos (u : Decimal.uint) :
  Forall (fun c => Monto.es_digito c = true)
    (list_ascii_of_string (NilEmpty.string_of_uint u)).
Proof.
  induction u; cbn [NilEmpty.string_of_uint list_ascii_of_string];
    constructor; solve [reflexivity | assumption].
Qed.

Lemma decimal_digitos (n : Z) :
  Forall (fun c => Monto.es_digito c = true) (list_ascii_of_string (Format.decimal n)) /\
  list_ascii_of_string (Format.decimal n) <> [].
Proof.
  unfold Format.decimal, NilZero.string_of_uint.
  destruct (N.to_uint (Z.to_N n)) as [| u | u | u | u | u | u | u | u | u | u] eqn:E.
  - split; [repeat constructor | discriminate].
  - split; [apply (string_of_uint_digitos (Decimal.D0 u)) | discriminate].
  - split; [apply (string_of_uint_digitos (Decimal.D1 u)) | discriminate].
  - split; [apply (string_of_uint_digitos (Decimal.D2 u)) | discriminate].
  - split; [apply (string_of_uint_digitos (Decimal.D3 u)) | discriminate].
  - split; [apply (string_of_uint_digitos (Decimal.D4 u)) | discriminate].
  - split; [apply (string_of_uint_digitos (Decimal.D5 u)) | discriminate].
  - split; [apply (string_of_uint_digitos (Decimal.D6 u)) | discriminate].
  - split; [apply (string_of_uint_digitos (Decimal.D7 u)) | discriminate].
  - split; [apply (string_of_uint_digitos (Decimal.D8 u)) | discriminate].
  - split; [apply (string_of_uint_digitos (Decimal.D9 u)) | discriminate].
Qed.

(** The digits of a number are written without a zero in front. *)
Lemma to_uint_normal (n : N) :
  N.to_uint n <> Decimal.Nil /\
  forall u, N.to_uint n = Decimal.D0 u -> u = Decimal.Nil.
Proof.
  pose proof (DecimalN.Unsigned.to_of (N.to_uint n)) as H.
  rewrite DecimalN.Unsigned.of_to in H.
  split.
  - intro E. rewrite E in H. discriminate H.
  - intros u E. rewrite E in H. unfold Decimal.unorm in H.
    rewrite DecimalFacts.nzhead_D0 in H.
    destruct (Decimal.nzhead u) eqn:Eu; try discriminate H.
    + injection H as H. exact H.
    + exfalso. exact (DecimalFacts.nzhead_nonzero u _ (eq_trans Eu (eq_sym H))).
Qed.

Lemma entero_decimal (n : Z) : 0 <= n -> Monto.entero (Format.decimal n) = Some n.
Proof.
  intro Hn. unfold Monto.entero, Format.decimal.
  destruct (to_uint_normal (Z.to_N n)) as [Hnil H0].
  rewrite (NilZero.usu _ Hnil), DecimalN.Unsigned.of_to, Z2N.id by exact Hn.
  destruct (N.to_uint (Z.to_N n)) as [| u | u | u | u | u | u | u | u | u | u] eqn:E;
    try contradiction; cbn [NilZero.string_of_uint NilEmpty.string_of_uint];
    try reflexivity.
  rewrite (H0 u eq_refl). reflexivity.
Qed.

Lemma dos_digitos_dos (r : Z) :
  0 <= r < 100 ->
  exists d1 d2 c,
    Format.dos_digitos r = String d1 (String d2 "") /\
    NilZero.uint_of_string (String d1 (String d2 "")) = Some c /\
    Z.of_N (N.of_uint c) = r.
Proof.
  intro H.
  assert (exists k, (k < 100)%nat /\ r = Z.of_nat k) as (k & Hk & ->)
    by (exists (Z.to_nat r); split; lia).
  clear H.
  do 100 (destruct k as [| k];
          [do 3 eexists; split; [vm_compute; reflexivity | ];
           split; vm_compute; reflexivity | ]).
  lia.
Qed.

(** Read back, what the formatter writes for [n] hundredths is [n]
    hundredths and the sign. *)
Lemma leer_escrito (signo : bool) (n : Z) :
  0 <= n ->
  Monto.leer ((if signo then "-" else "") ++ Format.miles (n / 100) ++ "." ++
              Format.dos_digitos (n mod 100)) = Some (signo, n).
Proof.
  intro Hn.
  destruct (dos_digitos_dos (n mod 100)) as (d1 & d2 & c & E2 & Ec & Vc);
    [apply Z.mod_pos_bound; lia | ].
  destruct (decimal_digitos (n / 100)) as [Hd Hne].
  unfold Monto.leer.
  rewrite !list_ascii_of_string_app, E2, !rev_app_distr.
  cbn [list_ascii_of_string rev app].
  unfold Format.miles. rewrite agrupa_con_comas. cbn [list_ascii_of_string rev app].
  replace (rev (list_ascii_of_string (if signo then "-" else "")))
    with (if signo then ["-"%char] else []) by (destruct signo; reflexivity).
  rewrite sin_comas_con_comas.
  - rewrite Ec, rev_involutive, string_of_list_ascii_of_string.
    rewrite entero_decimal by (apply Z.div_pos; lia).
    rewrite Vc. f_equal. f_equal. rewrite (Z.div_mod n 100) at 3 by lia. reflexivity.
  - apply Forall_rev. exact Hd.
  - lia.
  - left. intro E. apply (f_equal (@rev ascii)) in E. rewrite rev_involutive in E.
    exact (Hne E).
Qed.

(** The hundredths the formatter writes are the integer nearest to a
    hundred times the float, the even one of two that are as near. *)
Lemma centesimas_cercana (m : positive) (e : Z) :
  let n := Format.centesimas m e in
  let x := (100 * B64.F2R (Zpos m) e)%R in
  0 <= n /\ (Rabs (IZR n - x) <= 1 / 2)%R /\
  (Rabs (IZR n - x) = (1 / 2)%R -> Z.even n = true).
Proof.
  cbv zeta. unfold Format.centesimas, B64.F2R.
  destruct (Z.leb_spec 0 e) as [He | He].
  - rewrite (B64.bpow_IZR e He), <- !mult_IZR.
    replace (IZR (Z.pos m * 100 * 2 ^ e) - IZR (100 * (Z.pos m * 2 ^ e)))%R with 0%R
      by (rewrite <- minus_IZR; f_equal; ring).
    rewrite Rabs_R0. split; [ | split; [lra | lra]].
    apply Z.mul_nonneg_nonneg; [lia | apply Z.pow_nonneg; lia].
  - set (d := 2 ^ (- e)). set (N := Z.pos m * 100).
    assert (0 < d) as Hd by (apply Z.pow_pos_nonneg; lia).
    pose proof (Z.div_mod N d ltac:(lia)) as Hdm.
    pose proof (Z.mod_pos_bound N d Hd) as Hr.
    assert (0 <= N / d) as Hq by (apply Z.div_pos; lia).
    set (q := N / d) in *. set (r := N mod d) in *.
    assert (B64.bpow e * IZR d = 1)%R as Hb.
    { unfold d. rewrite <- (B64.bpow_IZR (- e)) by lia.
      rewrite <- B64.bpow_add. replace (e + - e) with 0 by lia. apply B64.bpow_0. }
    assert (0 < IZR d)%R as HD by (apply IZR_lt; exact Hd).
    assert (100 * (IZR (Z.pos m) * B64.bpow e) = IZR q + IZR r * B64.bpow e)%R as Hx.
    { replace (100 * (IZR (Z.pos m) * B64.bpow e))%R with (IZR N * B64.bpow e)%R
        by (unfold N; rewrite mult_IZR; ring).
      rewrite Hdm, plus_IZR, mult_IZR.
      replace ((IZR d * IZR q + IZR r) * B64.bpow e)%R
        with (IZR q * (B64.bpow e * IZR d) + IZR r * B64.bpow e)%R by ring.
      rewrite Hb. ring. }
    rewrite Hx. set (rho := (IZR r * B64.bpow e)%R).
    assert (rho * IZR d = IZR r)%R as Hrho
      by (unfold rho; rewrite Rmult_assoc, Hb; ring).
    assert (0 <= IZR r < IZR d)%R as HrR
      by (split; [apply IZR_le | apply IZR_lt]; lia).
    destruct (Z.compare_spec (2 * r) d) as [E | E | E].
    + assert (2 * IZR r = IZR d)%R as ER by (rewrite <- E, mult_IZR; reflexivity).
      assert (rho = 1 / 2)%R as -> by nra.
      destruct (Z.even q) eqn:Eq.
      * split; [exact Hq | ].
        replace (IZR q - (IZR q + 1 / 2))%R with (- (1 / 2))%R by lra.
        rewrite Rabs_Ropp, Rabs_pos_eq by lra. split; [lra | intros _; exact Eq].
      * split; [lia | ]. rewrite plus_IZR.
        replace (IZR q + 1 - (IZR q + 1 / 2))%R with (1 / 2)%R by lra.
        rewrite Rabs_pos_eq by lra. split; [lra | intros _].
        rewrite Z.add_1_r, Z.even_succ, <- Z.negb_even, Eq. reflexivity.
    + assert (2 * IZR r < IZR d)%R as ER
        by (rewrite <- mult_IZR; apply IZR_lt; exact E).
      assert (0 <= rho < 1 / 2)%R as Hh by nra.
      split; [exact Hq | ].
      replace (IZR q - (IZR q + rho))%R with (- rho)%R by lra.
      rewrite Rabs_Ropp, Rabs_pos_eq by lra. split; [lra | lra].
    + assert (IZR d < 2 * IZR r)%R as ER
        by (rewrite <- mult_IZR; apply IZR_lt; exact E).
      assert (1 / 2 < rho < 1)%R as Hh by nra.
      split; [lia | ]. rewrite plus_IZR.
      replace (IZR q + 1 - (IZR q + rho))%R with (1 - rho)%R by lra.
      rewrite Rabs_pos_eq by lra. split; [lra | lra].
Qed.

(** C8: the formatted value is the symbol of the selected currency, a space,
    the amount times the rate of the currency with two decimals, a space and
    the code.  With two decimals: read back, the digits written for a finite
    amount are its sign and the whole number of hundredths nearest to it (the
    even one of two that are as near), in groups of three with commas and
    with exactly two digits after the point.  A code in neither table has
    rate 1.0 and symbol "$"; and 10000 in USD, at rate 1/4000, is
    "$ 2.50 USD". *)
Theorem C8_formatear_valor (moneda : string) (valor : float) :
  let simbolo := Py.dict_get SIMBOLO_MONEDA moneda "$" in
  let tasa := Py.dict_get TASA_DE_CONVERSION moneda 1.0%float in
  let convertido := (valor * tasa)%float in
  formatear_valor moneda valor =
    simbolo ++ " " ++ Format.coma_2f convertido ++ " " ++ moneda /\
  (forall s m e,
      Prim2SF convertido = S754_finite s m e ->
      exists n,
        Monto.leer (Format.coma_2f convertido) = Some (s, n) /\ 0 <= n /\
        (Rabs (IZR n - 100 * B64.F2R (Zpos m) e) <= 1 / 2)%R /\
        ((Rabs (IZR n - 100 * B64.F2R (Zpos m) e) = 1 / 2)%R -> Z.even n = true)) /\
  (forall s,
      Prim2SF convertido = S754_zero s ->
      Monto.leer (Format.coma_2f convertido) = Some (s, 0)) /\
  (~ In moneda (map fst TASA_DE_CONVERSION) ->
   ~ In moneda (map fst SIMBOLO_MONEDA) ->
   formatear_valor moneda valor =
     "$ " ++ Format.coma_2f (valor * 1.0)%float ++ " " ++ moneda) /\
  Py.dict_get TASA_DE_CONVERSION "USD" 1.0%float = (1 / 4000)%float /\
  (10000 * (1 / 4000))%float = 2.5%float /\
  formatear_valor "USD" 10000 = "$ 2.50 USD".
Proof.
  cbv zeta. split; [reflexivity | ].
  split.
  { intros s m e E. unfold Format.coma_2f. rewrite E.
    destruct (centesimas_cercana m e) as (Hn & Hc & Hp).
    exists (Format.centesimas m e).
    split; [apply leer_escrito; exact Hn | ].
    split; [exact Hn | ]. split; [exact Hc | exact Hp]. }
  split.
  { intros s E. unfold Format.coma_2f. rewrite E. destruct s; reflexivity. }
  split.
  - intros Ht Hs. unfold formatear_valor.
    rewrite (dict_get_default _ _ _ Ht), (dict_get_default _ _ _ Hs). reflexivity.
  - repeat split; vm_compute; reflexivity.
Qed.

Lemma C8_formatear_valor_witness :
  formatear_valor "GBP" 1234567.125 = "$ 1,234,567.12 GBP" /\
  Monto.leer (Format.coma_2f (-1234567.125 * 1.0)%float) = Some (true, 123456712).
Proof.
  pose proof (C8_formatear_valor "GBP" 1234567.125) as H. cbv zeta in H.
  destruct H as (_ & _ & _ & Hf & _).
  split.
  - rewrite Hf.
    + vm_compute. reflexivity.
    + cbn. intros [H | [H | [H | []]]]; discriminate H.
    + cbn. intros [H | [H | [H | []]]]; discriminate H.
  - pose proof (C8_formatear_valor "GBP" (-1234567.125)) as H. cbv zeta in H.
    destruct H as (_ & Hl & _).
    change (Py.dict_get TASA_DE_CONVERSION "GBP" 1.0%float) with 1.0%float in Hl.
    destruct (Hl true 5302425426591744%positive (- 32)%Z ltac:(vm_compute; reflexivity))
      as (n & En & _). rewrite En. vm_compute in En. symmetry. exact En.
Defined.

(** The inputs [_recalcular] is meant for: a lot area that is not negative
    (and not NaN), the construction percent of the size, as [__init__] and the
    edit menu set it, and a number of rooms that is not negative. *)
Definition datos_validos (p : Proyecto) : Prop :=
  (0 <=? area_lote p)%float = true /\
  porc_construccion p = porc_de_tamano (tamano p) /\
  0 <= habitaciones p.

(** The project of scenario D: a lot too small for one unit. *)
Definition proyecto_casas_100 : Proyecto :=
  fst (__init__ "D" "casas" 739000 "Cali" 100 500000 "grande" 4 3 739365).

(** What is left to prove when an operation of [_recalcular] raises: it is
    not a division by zero. *)
Ltac sin_division_por_cero Hh :=
  lazymatch goal with
  | E : Py.floor _ = inl _ |- _ => exact (floor_inl _ _ E)
  | E : Py.ceil _ = inl _ |- _ => exact (ceil_inl _ _ E)
  | E : Py.int_mul _ _ = inl _ |- _ => exact (int_mul_inl _ _ _ E)
  | E : Py.int_truediv _ 10 = inl _ |- _ =>
      exact (int_truediv_inl _ 10 _ ltac:(discriminate) E)
  | E : (if ?x =? 3 then _ else _) = inl _ |- _ =>
      exfalso; destruct (costo_m2_inr x) as [? Hc]; rewrite Hc in E; discriminate E
  | E : Py.truediv_int _ _ = inl _, H : (_ >? 0) = true |- _ =>
      rewrite Z.gtb_ltb in H; apply Z.ltb_lt in H; exact (truediv_int_inl _ _ _ H E)
  | E : Py.truediv _ ?y = inl _ |- _ =>
      exfalso; apply truediv_inl in E; destruct E as [_ E];
      first
        [ vm_compute in E; discriminate E
        | match goal with
          | Hg : Py.gt0 y = true |- _ => rewrite (gt0_no_cero _ Hg) in E; discriminate E
          | Hm : Py.int_mul _ ?k = inr ?x |- _ =>
              assert ((0 <? y)%float = true) as Hpos
                by (eapply (area_min_positiva _ k _ x);
                    [exact Hh | vm_compute; reflexivity | vm_compute; reflexivity | exact Hm]);
              apply B64.ltb_0_positivo, B64.positivo_no_cero in Hpos; congruence
          end ]
  end.

(** With a number of rooms that is not negative, no division of
    [_recalcular] is by zero. *)
Lemma recalcular_sin_division_por_cero (p : Proyecto) :
  0 <= habitaciones p -> snd (_recalcular p) <> inl ZeroDivisionError.
Proof.
  intro Hh.
  assert (wpx _recalcular (fun _ _ => True) (fun e => e <> ZeroDivisionError) p) as H.
  { desplegar. wpx_go ltac:(idtac; sin_division_por_cero Hh). all: exact I. }
  unfold wpx in H. destruct (_recalcular p) as [p' [e | []]]; cbn [snd].
  - intros [= ->]. apply H. reflexivity.
  - discriminate.
Qed.

(** C3: for a house or building project, a built area at least the minimum
    unit area gives at least one unit, and a built area below it gives no
    unit and a unit value of 0.0; and no division is by zero. *)
Theorem C3_unidades_segun_capacidad (p : Proyecto) :
  es_vivienda p -> datos_validos p ->
  snd (_recalcular p) <> inl ZeroDivisionError /\
  forall p', recalculado p p' ->
  exists a m n v,
    area_construida p' = Some a /\ area_min_vivienda p' = Some m /\
    num_viviendas p' = Some n /\ valor_casa p' = Some v /\
    ((m <=? a)%float = true -> 1 <= n) /\
    ((a <? m)%float = true -> n = 0 /\ v = 0%float).
Proof.
  intros Ht (Hl & Hp & Hh).
  split; [exact (recalcular_sin_division_por_cero p Hh) | ].
  intros p' H. revert Ht. unfold es_vivienda. ejecuta H.
  all: intros Ht.
  all: repeat match goal with
         | H : String.eqb _ _ = false |- _ => apply String.eqb_neq in H
         end.
  all: try solve [destruct Ht; congruence].
  all: match goal with
       | H : Py.truediv (porc_construccion _) 100 = inr _ |- _ =>
           apply truediv_inr in H; destruct H as [-> _]; rewrite Hp in *
       end.
  all: pose proof (area_construida_no_negativa _ (tamano p) Hl) as Ha.
  all: match goal with
       | H : Py.truediv (area_lote _ * _) _ = inr _ |- _ =>
           apply truediv_inr in H; destruct H as [-> _]
       end.
  all: do 4 eexists; do 4 (split; [reflexivity | ]).
  all: match goal with
       | Hm : Py.int_mul _ ?k = inr ?x, Hc : Py.floor (_ / (?x + ?c)) = inr ?cap
         |- context [Z.max 1 ?fl] =>
           assert ((0 <? x + c)%float = true) as Hpos
             by (eapply (area_min_positiva _ k c x); [exact Hh | vm_compute; reflexivity
                                                      | vm_compute; reflexivity | exact Hm]);
           destruct (unidades_por_capacidad _ _ fl cap Ha Hpos Hc) as [U1 U2]
       | Hc : Py.floor (_ / 60) = inr ?cap |- context [Z.max 1 ?fl] =>
           destruct (unidades_por_capacidad _ 60%float fl cap Ha eq_refl Hc) as [U1 U2]
       end.
  all: split; [exact U1 | ].
  all: intro Hlt; specialize (U2 Hlt); split; [exact U2 | ].
  all: try reflexivity.
  all: match goal with H : (_ >? 0) = true |- _ => rewrite U2 in H; discriminate H end.
Qed.

Lemma C3_unidades_segun_capacidad_witness :
  snd (_recalcular proyecto_casas_100) <> inl ZeroDivisionError /\
  exists a m n v,
    area_construida proyecto_casas_100 = Some a /\
    area_min_vivienda proyecto_casas_100 = Some m /\
    num_viviendas proyecto_casas_100 = Some n /\
    valor_casa proyecto_casas_100 = Some v /\
    ((m <=? a)%float = true -> 1 <= n) /\
    ((a <? m)%float = true -> n = 0 /\ v = 0%float).
Proof.
  assert (es_vivienda proyecto_casas_100) as Ht by (left; reflexivity).
  assert (datos_validos proyecto_casas_100) as Hv.
  { split; [vm_compute; reflexivity | ]. split; [vm_compute; reflexivity | ].
    vm_compute. discriminate. }
  destruct (C3_unidades_segun_capacidad proyecto_casas_100 Ht Hv) as [H1 H2].
  split; [exact H1 | ].
  apply H2. vm_compute. reflexivity.
Defined.

(** At least one unit on any positive built area: what C1 states. *)
Definition al_menos_una_unidad (p' : Proyecto) : Prop :=
  forall a n,
    area_construida p' = Some a -> Py.gt0 a = true ->
    num_viviendas p' = Some n -> 1 <= n.

(** C1, as stated, fails: a house project on a lot of 100 m2, size "grande",
    3 rooms, has a built area of 80 m2, below the 130 m2 of a unit, and
    no unit. *)
Lemma C1_sin_unidades :
  recalculado proyecto_casas_100 proyecto_casas_100 /\
  es_vivienda proyecto_casas_100 /\
  area_construida proyecto_casas_100 = Some 80%float /\
  num_viviendas proyecto_casas_100 = Some 0 /\
  ~ al_menos_una_unidad proyecto_casas_100.
Proof.
  split; [vm_compute; reflexivity | ].
  split; [left; reflexivity | ].
  split; [vm_compute; reflexivity | ].
  split; [vm_compute; reflexivity | ].
  intro H. specialize (H 80%float 0).
  assert (1 <= 0) as Habs.
  { apply H; vm_compute; reflexivity. }
  lia.
Qed.

(** C1, amended: a house or building project whose built area is at least
    the minimum unit area has at least one unit. *)
Theorem C1_al_menos_una_unidad (p p' : Proyecto) :
  recalculado p p' -> es_vivienda p -> 0 <= habitaciones p ->
  forall a m n,
    area_construida p' = Some a -> area_min_vivienda p' = Some m ->
    num_viviendas p' = Some n ->
    (m <=? a)%float = true -> 1 <= n.
Proof.
  intro H. unfold es_vivienda. ejecuta H.
  all: intros Ht Hh a' m' n' [= <-] [= <-] [= <-] Hle.
  all: repeat match goal with
         | H : String.eqb _ _ = false |- _ => apply String.eqb_neq in H
         end.
  all: try solve [destruct Ht; congruence].
  all: match goal with
       | H : Py.truediv (area_lote _ * _) _ = inr _ |- _ =>
           apply truediv_inr in H; destruct H as [-> _]
       end.
  all: match goal with
       | Hm : Py.int_mul _ ?k = inr ?x, Hc : Py.floor (_ / (?x + ?c)) = inr ?cap |- _ =>
           assert ((0 <? x + c)%float = true) as Hpos
             by (eapply (area_min_positiva _ k c x); [exact Hh | vm_compute; reflexivity
                                                      | vm_compute; reflexivity | exact Hm]);
           pose proof (floor_div_ge_1 _ _ cap Hpos Hle Hc)
       | Hc : Py.floor (_ / 60) = inr ?cap |- _ =>
           pose proof (floor_div_ge_1 _ 60%float cap eq_refl Hle Hc)
       end.
  all: match goal with |- 1 <= (if ?b then _ else _) => destruct b end; lia.
Qed.

Lemma C1_al_menos_una_unidad_witness :
  num_viviendas (fst (escenario_A "A" 739000 "Cali" 739365)) = Some 6 /\ 1 <= 6.
Proof.
  split; [vm_compute; reflexivity | ].
  apply (C1_al_menos_una_unidad
           (fst (escenario_A "A" 739000 "Cali" 739365))
           (fst (escenario_A "A" 739000 "Cali" 739365))
           ltac:(vm_compute; reflexivity) (or_introl eq_refl)
           ltac:(vm_compute; discriminate) 800%float 130%float 6
           ltac:(vm_compute; reflexivity) ltac:(vm_compute; reflexivity)
           ltac:(vm_compute; reflexivity) ltac:(vm_compute; reflexivity)).
Defined.

(** The built and the unbuilt area add up to the lot area, in Python's [==]. *)
Definition areas_suman_el_lote (p' : Proyecto) : Prop :=
  exists a u,
    area_construida p' = Some a /\ area_no_construida p' = Some u /\
    (a + u =? area_lote p')%float = true.

Definition proyecto_chica_123 : Proyecto :=
  fst (__init__ "E" "casas" 739000 "Cali" 123.45 500000 "chica" 4 3 739365).

(** With 45% of it built, the float sum is not always the lot area: of a lot
    of 123.45 m2, 55.5525 m2 are built and 67.89750000000001 m2 are not, and
    their float sum is 123.45000000000002, the float next to 123.45. *)
Lemma suma_de_un_lote_chico :
  recalculado proyecto_chica_123 proyecto_chica_123 /\
  area_construida proyecto_chica_123 = Some 55.5525%float /\
  area_no_construida proyecto_chica_123 = Some 67.89750000000001%float /\
  (55.5525 + 67.89750000000001)%float = 123.45000000000002%float /\
  next_up 123.45 = 123.45000000000002%float /\
  ~ areas_suman_el_lote proyecto_chica_123.
Proof.
  split; [vm_compute; reflexivity | ].
  split; [vm_compute; reflexivity | ].
  split; [vm_compute; reflexivity | ].
  split; [vm_compute; reflexivity | ].
  split; [vm_compute; reflexivity | ].
  intros (a & u & Ha & Hu & Hs).
  vm_compute in Ha, Hu. injection Ha as <-. injection Hu as <-.
  vm_compute in Hs. discriminate Hs.
Qed.

(** With 80% or 60% of a positive finite lot built, the float sum of the
    built area and of what is left is the lot area, exactly. *)
Lemma areas_exactas (l q : float) :
  q = 80%float \/ q = 60%float -> finito_positivo l = true ->
  (l * (q / 100) + (l - l * (q / 100)))%float = l /\
  (l * (q / 100) + (l - l * (q / 100)) =? l)%float = true.
Proof.
  intros Hp Hl.
  assert ((l * (q / 100) + (l - l * (q / 100)))%float = l) as Es
    by (destruct Hp as [-> | ->];
        eapply (parte_y_resto l); try exact Hl; vm_compute; reflexivity).
  split; [exact Es | ]. rewrite Es.
  destruct (finito_positivo_spec _ Hl) as (mL & eL & El).
  exact (eqb_refl_finite _ _ _ _ El).
Qed.

(** ** Bounds on floats

    The real value of a finite float and what the operations of the source do
    to bounds that are powers of two: enough to see that no intermediate value
    of the recomputation overflows on inputs of a sensible size. *)

Module Cotas.
Import B64.
#[local] Open Scope R_scope.

(** The real value of a float; 0 for an infinity and for NaN. *)
Definition B2R (x : float) : R := SF2R (Prim2SF x).

(** A finite float that is not negative. *)
Definition finito_sf (r : spec_float) : Prop :=
  match r with
  | S754_zero _ | S754_finite false _ _ => True
  | _ => False
  end.

Definition finito (x : float) : Prop := finito_sf (Prim2SF x).

(** A finite float between 0 and [2^k]. *)
Definition hasta (k : Z) (x : float) : Prop := finito x /\ B2R x <= bpow k.

(** A float between [2^j] and [2^k]. *)
Definition entre (j k : Z) (x : float) : Prop := bpow j <= B2R x <= bpow k.

Ltac zl := unfold FloatOps.emin, SpecFloat.emin, emax, prec in *; lia.

Lemma formato_bpow k : (emin <= k)%Z -> formato (bpow k).
Proof.
  intro H. exists 1%Z, k. unfold F2R. rewrite Rmult_1_l.
  split; [reflexivity | ]. split; [rewrite pow2_prec; lia | exact H].
Qed.

Lemma bpow_doble k : bpow k = 2 * bpow (k - 1).
Proof.
  replace k with (k - 1 + 1)%Z at 1 by lia. rewrite bpow_add, bpow_1. ring.
Qed.

Lemma rnd_refl x : rnd x x.
Proof. intros f _. split; auto. Qed.

Lemma finito_casos x :
  finito x ->
  (exists s, Prim2SF x = S754_zero s) /\ B2R x = 0 \/
  (exists m e, Prim2SF x = S754_finite false m e /\ B2R x = F2R (Zpos m) e /\
               SpecFloat.bounded prec emax m e = true).
Proof.
  unfold finito, B2R. intro H.
  destruct (Prim2SF x) as [s | s | | s m e] eqn:E; cbn in H; try contradiction.
  - left. split; [exists s; reflexivity | reflexivity].
  - destruct s; [contradiction | ]. right. exists m, e.
    split; [reflexivity | ]. split; [reflexivity | ].
    exact (Prim2SF_bounded x _ _ _ E).
Qed.

Lemma finito_no_negativo x : finito x -> 0 <= B2R x.
Proof.
  intro H. destruct (finito_casos x H) as [[_ ->] | (m & e & _ & -> & _)].
  - lra.
  - pose proof (F2R_pos m e). lra.
Qed.

Lemma positivo_casos x :
  0 < B2R x ->
  exists m e, Prim2SF x = S754_finite false m e /\ B2R x = F2R (Zpos m) e /\
              SpecFloat.bounded prec emax m e = true.
Proof.
  unfold B2R. intro H.
  destruct (Prim2SF x) as [s | s | | s m e] eqn:E; cbn [SF2R] in *; try lra.
  destruct s.
  - exfalso. cbn [cond_Zopp] in H.
    assert (F2R (Z.opp (Zpos m)) e < 0); [ | lra].
    unfold F2R. rewrite opp_IZR. pose proof (bpow_gt_0 e).
    assert (0 < IZR (Zpos m)) by (apply IZR_lt; lia). nra.
  - exists m, e. split; [reflexivity | ]. split; [reflexivity | ].
    exact (Prim2SF_bounded x _ _ _ E).
Qed.

Lemma entre_casos j k x :
  entre j k x ->
  exists m e, Prim2SF x = S754_finite false m e /\ B2R x = F2R (Zpos m) e /\
              SpecFloat.bounded prec emax m e = true.
Proof.
  intros [H _]. apply positivo_casos. pose proof (bpow_gt_0 j). lra.
Qed.

Lemma entre_finito j k x : entre j k x -> finito x.
Proof.
  intro H. destruct (entre_casos j k x H) as (m & e & E & _).
  unfold finito. rewrite E. exact I.
Qed.

Lemma entre_hasta j k x : entre j k x -> hasta k x.
Proof. intro H. split; [exact (entre_finito j k x H) | exact (proj2 H)]. Qed.

Lemma entre_positivo j k x : entre j k x -> (0 <? x)%float = true.
Proof.
  intro H. destruct (entre_casos j k x H) as (m & e & E & _).
  rewrite ltb_0_positivo, E. exact I.
Qed.

Lemma hasta_mono k k' x : hasta k x -> (k <= k')%Z -> hasta k' x.
Proof.
  intros [H1 H2] Hk. split; [exact H1 | ]. pose proof (bpow_le k k' Hk). lra.
Qed.

Lemma entre_mono j k j' k' x :
  entre j k x -> (j' <= j)%Z -> (k <= k')%Z -> entre j' k' x.
Proof.
  intros [H1 H2] Hj Hk.
  pose proof (bpow_le j' j Hj). pose proof (bpow_le k k' Hk). split; lra.
Qed.

(** What a result that does not overflow is. *)
Lemma repr_acotado v r :
  repr false v r -> v < bpow emax -> finito_sf r /\ SF2R r = v.
Proof.
  intros [[-> ->] | [(m & e & -> & -> & _) | [_ H]]] Hv.
  - split; [exact I | reflexivity].
  - split; [exact I | reflexivity].
  - lra.
Qed.

(** *** Constants *)

Lemma entre_const (x : float) m e j k :
  Prim2SF x = S754_finite false m e ->
  (e <= j)%Z -> (e <= k)%Z -> (2 ^ (j - e) <= Zpos m <= 2 ^ (k - e))%Z ->
  entre j k x.
Proof.
  intros E Hj Hk [H1 H2]. unfold entre, B2R. rewrite E. cbn [SF2R cond_Zopp].
  assert (bpow j = F2R (2 ^ (j - e)) e) as ->
    by (rewrite <- F2R_bpow by lia; f_equal; lia).
  assert (bpow k = F2R (2 ^ (k - e)) e) as ->
    by (rewrite <- F2R_bpow by lia; f_equal; lia).
  split; apply F2R_le; assumption.
Qed.

(** *** Comparisons *)

Lemma leb_finitos (x y : float) :
  finito x -> finito y -> ((x <=? y)%float = true <-> B2R x <= B2R y).
Proof.
  intros Hx Hy. rewrite FloatAxioms.leb_spec. unfold SFleb.
  destruct (finito_casos x Hx) as [[[sx Ex] Vx] | (mx & ex & Ex & Vx & Bx)];
    destruct (finito_casos y Hy) as [[[sy Ey] Vy] | (my & ey & Ey & Vy & By)];
    rewrite Ex, Ey, Vx, Vy.
  - cbn. split; [lra | reflexivity].
  - cbn. pose proof (F2R_pos my ey). split; [lra | reflexivity].
  - cbn. pose proof (F2R_pos mx ex). split; [discriminate | lra].
  - pose proof (SFcompare_pos mx ex my ey Bx By) as H.
    destruct (SFcompare (S754_finite false mx ex) (S754_finite false my ey))
      as [[ | | ] | ]; split; intro; try reflexivity; try discriminate;
      try lra; contradiction.
Qed.

(** A float between two floats with known bounds. *)
Lemma entre_leb (c1 c2 x : float) j j' k k' :
  entre j j' c1 -> entre k' k c2 ->
  (c1 <=? x)%float = true -> (x <=? c2)%float = true -> entre j k x.
Proof.
  intros H1 H2 L1 L2.
  destruct (entre_casos _ _ _ H1) as (m1 & e1 & E1 & V1 & B1).
  destruct (entre_casos _ _ _ H2) as (m2 & e2 & E2 & V2 & B2).
  assert (finito x) as Hx.
  { unfold finito. rewrite FloatAxioms.leb_spec in L1, L2. unfold SFleb in *.
    rewrite E1 in L1. rewrite E2 in L2.
    destruct (Prim2SF x) as [s | s | | s m e]; cbn in *; try discriminate;
      destruct s; cbn in *; first [discriminate | exact I]. }
  apply (leb_finitos c1 x (entre_finito _ _ _ H1) Hx) in L1.
  apply (leb_finitos x c2 Hx (entre_finito _ _ _ H2)) in L2.
  destruct H1, H2. split; lra.
Qed.

Lemma hasta_leb (c2 x : float) k k' :
  entre k' k c2 ->
  (0 <=? x)%float = true -> (x <=? c2)%float = true -> hasta k x.
Proof.
  intros H2 L1 L2.
  destruct (entre_casos _ _ _ H2) as (m2 & e2 & E2 & V2 & B2).
  assert (finito x) as Hx.
  { unfold finito. rewrite leb_0_no_negativo in L1.
    rewrite FloatAxioms.leb_spec in L2. unfold SFleb in *. rewrite E2 in L2.
    destruct (Prim2SF x) as [s | s | | s m e]; cbn in *; try discriminate;
      try contradiction; try exact I;
      destruct s; cbn in *; first [contradiction | discriminate | exact I]. }
  split; [exact Hx | ].
  apply (leb_finitos x c2 Hx (entre_finito _ _ _ H2)) in L2.
  destruct H2. lra.
Qed.

(** *** Multiplication, addition and division *)

Lemma mul_cota (x y : float) :
  finito x -> finito y ->
  exists v, rnd (B2R x * B2R y) v /\
            (v < bpow emax -> finito (x * y) /\ B2R (x * y) = v).
Proof.
  intros Hx Hy. unfold finito. unfold B2R at 3.
  rewrite FloatAxioms.mul_spec. unfold SF64mul.
  destruct (finito_casos x Hx) as [[[sx Ex] Vx] | (mx & ex & Ex & Vx & Bx)];
    destruct (finito_casos y Hy) as [[[sy Ey] Vy] | (my & ey & Ey & Vy & By)];
    rewrite Ex, Ey, Vx, Vy.
  - exists 0. rewrite Rmult_0_l. split; [apply rnd_refl | ].
    intros _. cbn. split; [exact I | reflexivity].
  - exists 0. rewrite Rmult_0_l. split; [apply rnd_refl | ].
    intros _. cbn. split; [exact I | reflexivity].
  - exists 0. rewrite Rmult_0_r. split; [apply rnd_refl | ].
    intros _. cbn. split; [exact I | reflexivity].
  - destruct (SFmul_finite false mx ex false my ey Bx By) as (v & Hr & Hv).
    exists v. split; [exact Hr | ]. intro Hlt.
    exact (repr_acotado v _ Hv Hlt).
Qed.

Lemma div_cota (x y : float) :
  finito x -> 0 < B2R y ->
  exists v, rnd (B2R x / B2R y) v /\
            (v < bpow emax -> finito (x / y) /\ B2R (x / y) = v).
Proof.
  intros Hx Hy. unfold finito. unfold B2R at 3.
  rewrite FloatAxioms.div_spec. unfold SF64div.
  destruct (positivo_casos y Hy) as (my & ey & Ey & Vy & By).
  destruct (finito_casos x Hx) as [[[sx Ex] Vx] | (mx & ex & Ex & Vx & Bx)];
    rewrite Ex, Ey, Vx, Vy.
  - exists 0. unfold Rdiv. rewrite Rmult_0_l. split; [apply rnd_refl | ].
    intros _. cbn. split; [exact I | reflexivity].
  - destruct (SFdiv_finite false mx ex false my ey) as (v & Hr & Hv).
    exists v. split; [exact Hr | ]. intro Hlt.
    exact (repr_acotado v _ Hv Hlt).
Qed.

Lemma normalize_cota k e :
  (0 <= k)%Z ->
  exists v, rnd (F2R k e) v /\
            (v < bpow emax ->
             finito_sf (binary_normalize prec emax k e false) /\
             SF2R (binary_normalize prec emax k e false) = v) /\
            valid_binary (binary_normalize prec emax k e false) = true.
Proof.
  intro Hk. pose proof (binary_normalize_spec k e false) as H.
  destruct k as [| p | p]; [ | | lia].
  - exists 0. rewrite F2R_0. split; [apply rnd_refl | ].
    rewrite H. split; [ | reflexivity].
    intros _. split; [exact I | reflexivity].
  - destruct H as (v & Hr & Hv). exists v.
    rewrite Rabs_pos_eq in Hr by (pose proof (F2R_pos p e); lra).
    split; [exact Hr | ].
    change (Z.pos p <? 0)%Z with false in Hv.
    split; [ | exact (repr_valid _ _ _ Hv)].
    intro Hlt. exact (repr_acotado v _ Hv Hlt).
Qed.

Lemma add_cota (x y : float) :
  finito x -> finito y ->
  exists v, rnd (B2R x + B2R y) v /\
            (v < bpow emax -> finito (x + y) /\ B2R (x + y) = v).
Proof.
  intros Hx Hy. unfold finito. unfold B2R at 3.
  rewrite FloatAxioms.add_spec. unfold SF64add.
  destruct (finito_casos x Hx) as [[[sx Ex] Vx] | (mx & ex & Ex & Vx & Bx)];
    destruct (finito_casos y Hy) as [[[sy Ey] Vy] | (my & ey & Ey & Vy & By)];
    rewrite Ex, Ey, Vx, Vy.
  - exists 0. rewrite Rplus_0_l. split; [apply rnd_refl | ].
    intros _. destruct sx, sy; cbn; split; first [exact I | reflexivity].
  - exists (F2R (Zpos my) ey). rewrite Rplus_0_l. split; [apply rnd_refl | ].
    intros _. cbn. split; [exact I | reflexivity].
  - exists (F2R (Zpos mx) ex). rewrite Rplus_0_r. split; [apply rnd_refl | ].
    intros _. cbn. split; [exact I | reflexivity].
  - destruct (SFadd_finite false mx ex false my ey) as (n & -> & Hn).
    cbn [SF2R cond_Zopp] in Hn. rewrite <- Hn.
    assert (0 <= n)%Z as Hn0.
    { assert (0 <= F2R n (Z.min ex ey)) as H0
        by (rewrite Hn; pose proof (F2R_pos mx ex); pose proof (F2R_pos my ey); lra).
      rewrite <- (F2R_0 (Z.min ex ey)) in H0. apply F2R_le_inv in H0. exact H0. }
    destruct (normalize_cota n (Z.min ex ey) Hn0) as (v & Hr & Hv & _).
    exists v. split; assumption.
Qed.

(** An upper bound of the format that is below the largest float bounds
    the rounded result as it bounds the exact one. *)
Lemma cota_mul (x y : float) u1 u2 u :
  finito x -> finito y -> B2R x <= u1 -> B2R y <= u2 -> u1 * u2 <= u ->
  formato u -> u < bpow emax ->
  finito (x * y) /\ B2R (x * y) <= u.
Proof.
  intros Fx Fy Hx Hy Hu Hf Hlt.
  destruct (mul_cota x y Fx Fy) as (v & Hr & Hv).
  pose proof (finito_no_negativo x Fx). pose proof (finito_no_negativo y Fy).
  assert (v <= u) as Hle by (apply (Hr _ Hf); nra).
  destruct (Hv ltac:(lra)) as [F E]. split; [exact F | rewrite E; exact Hle].
Qed.

Lemma cota_add (x y : float) u1 u2 u :
  finito x -> finito y -> B2R x <= u1 -> B2R y <= u2 -> u1 + u2 <= u ->
  formato u -> u < bpow emax ->
  finito (x + y) /\ B2R (x + y) <= u.
Proof.
  intros Fx Fy Hx Hy Hu Hf Hlt.
  destruct (add_cota x y Fx Fy) as (v & Hr & Hv).
  assert (v <= u) as Hle by (apply (Hr _ Hf); lra).
  destruct (Hv ltac:(lra)) as [F E]. split; [exact F | rewrite E; exact Hle].
Qed.

Lemma cota_div (x y : float) u :
  finito x -> 0 < B2R y -> B2R x <= u * B2R y ->
  formato u -> u < bpow emax ->
  finito (x / y) /\ B2R (x / y) <= u.
Proof.
  intros Fx Hy Hx Hf Hlt.
  destruct (div_cota x y Fx Hy) as (v & Hr & Hv).
  assert (B2R x / B2R y <= u) as Hq.
  { apply Rmult_le_reg_r with (B2R y); [lra | ].
    unfold Rdiv. rewrite Rmult_assoc, Rinv_l, Rmult_1_r by lra. exact Hx. }
  assert (v <= u) as Hle by (apply (Hr _ Hf); exact Hq).
  destruct (Hv ltac:(lra)) as [F E]. split; [exact F | rewrite E; exact Hle].
Qed.

Lemma sub_cota (x y : float) :
  finito x -> finito y -> B2R y <= B2R x ->
  exists v, rnd (B2R x - B2R y) v /\
            (v < bpow emax -> finito (x - y) /\ B2R (x - y) = v).
Proof.
  intros Hx Hy Hle. unfold finito. unfold B2R at 3.
  rewrite FloatAxioms.sub_spec. unfold SF64sub.
  destruct (finito_casos x Hx) as [[[sx Ex] Vx] | (mx & ex & Ex & Vx & Bx)];
    destruct (finito_casos y Hy) as [[[sy Ey] Vy] | (my & ey & Ey & Vy & By)];
    rewrite Ex, Ey, Vx, Vy; rewrite Vx, Vy in Hle.
  - exists 0. rewrite Rminus_0_r. split; [apply rnd_refl | ].
    intros _. destruct sx, sy; cbn; split; first [exact I | reflexivity].
  - exfalso. pose proof (F2R_pos my ey). lra.
  - exists (F2R (Zpos mx) ex). rewrite Rminus_0_r. split; [apply rnd_refl | ].
    intros _. cbn. split; [exact I | reflexivity].
  - destruct (SFsub_finite false mx ex false my ey) as (n & -> & Hn).
    cbn [SF2R cond_Zopp] in Hn. rewrite <- Hn.
    assert (0 <= n)%Z as Hn0.
    { assert (0 <= F2R n (Z.min ex ey)) as H0 by (rewrite Hn; lra).
      rewrite <- (F2R_0 (Z.min ex ey)) in H0. apply F2R_le_inv in H0. exact H0. }
    destruct (normalize_cota n (Z.min ex ey) Hn0) as (v & Hr & Hv & _).
    exists v. split; assumption.
Qed.

(** The difference of two finite floats, the smaller taken off the larger,
    lies between 0 and the larger. *)
Lemma cota_sub (x y : float) :
  finito x -> finito y -> B2R y <= B2R x ->
  finito (x - y) /\ B2R (x - y) <= B2R x.
Proof.
  intros Fx Fy Hle.
  destruct (sub_cota x y Fx Fy Hle) as (v & Hr & Hv).
  pose proof (finito_no_negativo y Fy) as Hy0.
  assert (formato (B2R x) /\ B2R x < bpow emax) as [Hf Hlt].
  { destruct (finito_casos x Fx) as [[_ ->] | (m & e & _ & -> & B)].
    - split; [apply formato_0 | apply bpow_gt_0].
    - split; [apply bounded_formato; exact B | apply bounded_lt_emax; exact B]. }
  assert (v <= B2R x) as Hvx by (apply (Hr _ Hf); lra).
  destruct (Hv ltac:(lra)) as [F E]. split; [exact F | rewrite E; exact Hvx].
Qed.

(** The product of a finite float and a factor that is at most 1 is at most
    that float. *)
Lemma cota_parte (x q : float) j :
  finito x -> entre j 0 q -> finito (x * q) /\ B2R (x * q) <= B2R x.
Proof.
  intros Fx Hq.
  assert (formato (B2R x) /\ B2R x < bpow emax) as [Hf Hlt].
  { destruct (finito_casos x Fx) as [[_ ->] | (m & e & _ & -> & B)].
    - split; [apply formato_0 | apply bpow_gt_0].
    - split; [apply bounded_formato; exact B | apply bounded_lt_emax; exact B]. }
  pose proof (finito_no_negativo x Fx).
  destruct Hq as [Lq Uq]. rewrite bpow_0 in Uq.
  apply (cota_mul x q (B2R x) 1); try assumption; try lra.
  apply (entre_finito j 0). split; [exact Lq | rewrite bpow_0; exact Uq].
Qed.

Lemma finito_bool (x : float) :
  finito x <-> ((0 <=? x) && (x <? infinity))%float = true.
Proof.
  unfold finito. rewrite andb_true_iff, leb_0_no_negativo, FloatAxioms.ltb_spec.
  change (Prim2SF infinity) with (S754_infinity false).
  destruct (Prim2SF x) as [s | s | | s m e]; try destruct s; cbn;
    intuition (try discriminate; auto).
Qed.

Lemma hasta_mul (x y : float) k1 k2 :
  hasta k1 x -> hasta k2 y -> (emin <= k1 + k2 < emax)%Z -> hasta (k1 + k2) (x * y).
Proof.
  intros [Fx Hx] [Fy Hy] Hk.
  apply (cota_mul x y (bpow k1) (bpow k2)); try assumption.
  - rewrite bpow_add. lra.
  - apply formato_bpow. zl.
  - apply bpow_lt. zl.
Qed.

Lemma entre_mul (x y : float) j1 k1 j2 k2 :
  entre j1 k1 x -> entre j2 k2 y -> (emin <= j1 + j2)%Z -> (k1 + k2 < emax)%Z ->
  entre (j1 + j2) (k1 + k2) (x * y).
Proof.
  intros Hx Hy Hj Hk.
  destruct (mul_cota x y (entre_finito _ _ _ Hx) (entre_finito _ _ _ Hy))
    as (v & Hr & Hv).
  destruct Hx as [Lx Ux], Hy as [Ly Uy].
  pose proof (bpow_gt_0 j1). pose proof (bpow_gt_0 j2).
  assert (j1 + j2 <= k1 + k2)%Z as Hjk.
  { apply bpow_le_inv. rewrite !bpow_add. nra. }
  assert (v <= bpow (k1 + k2)) as Hle.
  { apply (Hr _ (formato_bpow (k1 + k2) ltac:(zl))). rewrite bpow_add. nra. }
  assert (bpow (j1 + j2) <= v) as Hge.
  { apply (Hr _ (formato_bpow (j1 + j2) ltac:(zl))). rewrite bpow_add. nra. }
  pose proof (bpow_lt (k1 + k2) emax ltac:(zl)).
  destruct (Hv ltac:(lra)) as [F E]. unfold entre. rewrite E. split; assumption.
Qed.

Lemma suma_bpow k1 k2 k :
  (k1 < k)%Z -> (k2 < k)%Z -> bpow k1 + bpow k2 <= bpow k.
Proof.
  intros H1 H2.
  pose proof (bpow_le k1 (k - 1) ltac:(lia)).
  pose proof (bpow_le k2 (k - 1) ltac:(lia)).
  rewrite (bpow_doble k). lra.
Qed.

Lemma hasta_add (x y : float) k1 k2 k :
  hasta k1 x -> hasta k2 y -> (k1 < k)%Z -> (k2 < k)%Z -> (emin <= k < emax)%Z ->
  hasta k (x + y).
Proof.
  intros [Fx Hx] [Fy Hy] H1 H2 Hk.
  apply (cota_add x y (bpow k1) (bpow k2)); try assumption.
  - apply suma_bpow; assumption.
  - apply formato_bpow. zl.
  - apply bpow_lt. zl.
Qed.

Lemma entre_add (x y : float) k1 j k2 k :
  hasta k1 x -> entre j k2 y -> (k1 < k)%Z -> (k2 < k)%Z -> (emin <= j)%Z ->
  (k < emax)%Z -> entre j k (x + y).
Proof.
  intros [Fx Hx] Hy H1 H2 Hj Hk.
  destruct (add_cota x y Fx (entre_finito _ _ _ Hy)) as (v & Hr & Hv).
  pose proof (finito_no_negativo x Fx).
  destruct Hy as [Ly Uy].
  assert (j <= k2)%Z as Hjk by (apply bpow_le_inv; lra).
  pose proof (suma_bpow k1 k2 k H1 H2) as Hs.
  assert (v <= bpow k) as Hle
    by (apply (Hr _ (formato_bpow k ltac:(zl))); lra).
  assert (bpow j <= v) as Hge
    by (apply (Hr _ (formato_bpow j ltac:(zl))); lra).
  pose proof (bpow_lt k emax ltac:(zl)).
  destruct (Hv ltac:(lra)) as [F E]. unfold entre. rewrite E. split; assumption.
Qed.

Lemma hasta_suma (x y : float) k1 k2 :
  hasta k1 x -> hasta k2 y -> (emin <= Z.max k1 k2 + 1 < emax)%Z ->
  hasta (Z.max k1 k2 + 1) (x + y).
Proof.
  intros Hx Hy Hk. apply (hasta_add x y k1 k2); try assumption; lia.
Qed.

Lemma entre_suma (x y : float) k1 j k2 :
  hasta k1 x -> entre j k2 y -> (emin <= j)%Z -> (Z.max k1 k2 + 1 < emax)%Z ->
  entre j (Z.max k1 k2 + 1) (x + y).
Proof.
  intros Hx Hy Hj Hk. apply (entre_add x y k1 j k2); try assumption; lia.
Qed.

Lemma hasta_div (x y : float) k j k' :
  hasta k x -> entre j k' y -> (emin <= k - j < emax)%Z -> hasta (k - j) (x / y).
Proof.
  intros [Fx Hx] [Ly Uy] Hk. pose proof (bpow_gt_0 j).
  apply (cota_div x y (bpow (k - j))); try assumption.
  - lra.
  - apply Rle_trans with (bpow (k - j) * bpow j).
    + rewrite <- bpow_add. replace (k - j + j)%Z with k by lia. exact Hx.
    + pose proof (bpow_gt_0 (k - j)). nra.
  - apply formato_bpow. zl.
  - apply bpow_lt. zl.
Qed.

(** *** Integer parts *)

Lemma shiftl_parte_entera m e :
  (0 <= Z.shiftl (Zpos m) e)%Z /\
  IZR (Z.shiftl (Zpos m) e) <= F2R (Zpos m) e < IZR (Z.shiftl (Zpos m) e) + 1.
Proof.
  destruct (Z_le_gt_dec 0 e) as [He | He].
  - rewrite Z.shiftl_mul_pow2 by exact He.
    assert (0 < 2 ^ e)%Z by (apply Z.pow_pos_nonneg; lia).
    split; [nia | ].
    unfold F2R. rewrite (bpow_IZR e He), <- mult_IZR. lra.
  - rewrite Z.shiftl_div_pow2 by lia.
    assert (0 < 2 ^ (- e))%Z as Hd by (apply Z.pow_pos_nonneg; lia).
    pose proof (Z.div_pos (Zpos m) (2 ^ (- e)) ltac:(lia) Hd) as Hq.
    split; [exact Hq | ].
    pose proof (Z.mul_div_le (Zpos m) (2 ^ (- e)) Hd) as H1.
    pose proof (Z.mul_succ_div_gt (Zpos m) (2 ^ (- e)) Hd) as H2.
    apply IZR_le in H1. apply IZR_lt in H2.
    rewrite mult_IZR in H1. rewrite mult_IZR, succ_IZR in H2.
    rewrite <- (bpow_IZR (- e)) in H1, H2 by lia.
    unfold F2R. pose proof (bpow_gt_0 e) as Hb. pose proof (bpow_gt_0 (- e)) as Hb'.
    assert (bpow (- e) * bpow e = 1) as Hi
      by (rewrite <- bpow_add; replace (- e + e)%Z with 0%Z by lia; apply bpow_0).
    set (q := IZR (Z.pos m / 2 ^ (- e))) in *.
    set (M := IZR (Z.pos m)) in *.
    split.
    + apply Rmult_le_reg_l with (bpow (- e)); [lra | ].
      replace (bpow (- e) * (M * bpow e)) with (M * (bpow (- e) * bpow e)) by ring.
      rewrite Hi. lra.
    + apply Rmult_lt_reg_l with (bpow (- e)); [lra | ].
      replace (bpow (- e) * (M * bpow e)) with (M * (bpow (- e) * bpow e)) by ring.
      rewrite Hi. lra.
Qed.

Lemma shiftl_techo m e :
  IZR (- Z.shiftl (Zneg m) e) - 1 < F2R (Zpos m) e <= IZR (- Z.shiftl (Zneg m) e).
Proof.
  destruct (Z_le_gt_dec 0 e) as [He | He].
  - rewrite Z.shiftl_mul_pow2 by exact He.
    replace (- (Z.neg m * 2 ^ e))%Z with (Zpos m * 2 ^ e)%Z by lia.
    unfold F2R. rewrite (bpow_IZR e He), <- mult_IZR. lra.
  - rewrite Z.shiftl_div_pow2 by lia.
    assert (0 < 2 ^ (- e))%Z as Hd by (apply Z.pow_pos_nonneg; lia).
    pose proof (Z.mul_div_le (Zneg m) (2 ^ (- e)) Hd) as H1.
    pose proof (Z.mul_succ_div_gt (Zneg m) (2 ^ (- e)) Hd) as H2.
    apply IZR_le in H1. apply IZR_lt in H2.
    rewrite mult_IZR in H1. rewrite mult_IZR, succ_IZR in H2.
    rewrite <- (bpow_IZR (- e)) in H1, H2 by lia.
    change (Zneg m) with (- Zpos m)%Z in *. rewrite opp_IZR in *.
    unfold F2R. pose proof (bpow_gt_0 e) as Hb. pose proof (bpow_gt_0 (- e)) as Hb'.
    assert (bpow (- e) * bpow e = 1) as Hi
      by (rewrite <- bpow_add; replace (- e + e)%Z with 0%Z by lia; apply bpow_0).
    set (q := IZR (- Z.pos m / 2 ^ (- e))) in *.
    set (M := IZR (Z.pos m)) in *.
    split.
    + apply Rmult_lt_reg_l with (bpow (- e)); [lra | ].
      replace (bpow (- e) * (M * bpow e)) with (M * (bpow (- e) * bpow e)) by ring.
      rewrite Hi. lra.
    + apply Rmult_le_reg_l with (bpow (- e)); [lra | ].
      replace (bpow (- e) * (M * bpow e)) with (M * (bpow (- e) * bpow e)) by ring.
      rewrite Hi. lra.
Qed.

(** *** Python's operations on bounded floats *)

Lemma floor_finito (x : float) :
  finito x ->
  exists c, Py.floor x = inr c /\ (0 <= c)%Z /\ IZR c <= B2R x < IZR c + 1.
Proof.
  intro Hx. unfold Py.floor.
  destruct (finito_casos x Hx) as [[[sx Ex] Vx] | (mx & ex & Ex & Vx & Bx)];
    rewrite Ex, Vx.
  - exists 0%Z. split; [reflexivity | ]. split; [lia | lra].
  - exists (Z.shiftl (Zpos mx) ex). split; [reflexivity | ].
    exact (shiftl_parte_entera mx ex).
Qed.

Lemma ceil_finito (x : float) :
  finito x ->
  exists c, Py.ceil x = inr c /\ IZR c - 1 < B2R x <= IZR c.
Proof.
  intro Hx. unfold Py.ceil.
  destruct (finito_casos x Hx) as [[[sx Ex] Vx] | (mx & ex & Ex & Vx & Bx)];
    rewrite Ex, Vx.
  - exists 0%Z. split; [reflexivity | lra].
  - exists (- Z.shiftl (Zneg mx) ex)%Z. split; [reflexivity | ].
    exact (shiftl_techo mx ex).
Qed.

Lemma float_of_int_hasta (n k : Z) :
  (0 <= n <= 2 ^ k)%Z -> (0 <= k < emax)%Z ->
  exists y, Py.float_of_int n = inr y /\ hasta k y /\ ((1 <= n)%Z -> entre 0 k y).
Proof.
  intros Hn Hk. unfold Py.float_of_int.
  destruct (normalize_cota n 0 (proj1 Hn)) as (v & Hr & Hv & Hval).
  assert (F2R n 0 = IZR n) as En by (unfold F2R; rewrite bpow_0; ring).
  rewrite En in Hr.
  assert (IZR n <= bpow k) as Hnk
    by (rewrite (bpow_IZR k (proj1 Hk)); apply IZR_le; lia).
  assert (v <= bpow k) as Hle by (apply (Hr _ (formato_bpow k ltac:(zl))); exact Hnk).
  pose proof (bpow_lt k emax ltac:(zl)) as Hlt.
  destruct (Hv ltac:(lra)) as [F E].
  set (r := binary_normalize prec emax n 0 false) in *.
  exists (SF2Prim r).
  assert (Prim2SF (SF2Prim r) = r) as Er by (apply Prim2SF_SF2Prim; exact Hval).
  split.
  { destruct r as [s | s | | s m e]; try reflexivity; contradiction. }
  split; [split; [unfold finito; rewrite Er; exact F | unfold B2R; rewrite Er, E; exact Hle] | ].
  intro H1. unfold entre, B2R. rewrite Er, E. split; [ | exact Hle].
  rewrite bpow_0. apply (Hr 1).
  - exists 1%Z, 0%Z. unfold F2R. rewrite bpow_0. split; [ring | ].
    split; [rewrite pow2_prec; lia | zl].
  - apply IZR_le in H1. exact H1.
Qed.

Lemma int_mul_hasta (n k : Z) (c : float) kc :
  (0 <= n <= 2 ^ k)%Z -> (0 <= k)%Z -> hasta kc c -> (emin <= k + kc < emax)%Z ->
  (k < emax)%Z ->
  exists x, Py.int_mul n c = inr x /\ hasta (k + kc) x.
Proof.
  intros Hn Hk Hc Hkc Hke. unfold Py.int_mul.
  destruct (float_of_int_hasta n k Hn ltac:(lia)) as (y & -> & Hy & _).
  exists (y * c)%float. split; [reflexivity | ].
  apply hasta_mul; assumption.
Qed.

Lemma entre_no_cero j k (y : float) : entre j k y -> (y =? 0)%float = false.
Proof.
  intro H. apply positivo_no_cero. apply ltb_0_positivo.
  exact (entre_positivo j k y H).
Qed.

Lemma truediv_entre (x y : float) j k :
  entre j k y -> Py.truediv x y = inr (x / y)%float.
Proof.
  intro H. unfold Py.truediv. rewrite (entre_no_cero j k y H). reflexivity.
Qed.

Lemma truediv_gt0 (x y : float) :
  Py.gt0 y = true -> Py.truediv x y = inr (x / y)%float.
Proof.
  intro H. unfold Py.truediv. rewrite (gt0_no_cero y H). reflexivity.
Qed.

(** *** The price per built m2

    The built area is a part of the lot, so that the budget divided by the
    built area stays bounded however small the lot is. *)

Lemma formato_escala m e k :
  SpecFloat.bounded prec emax m e = true -> (0 <= k)%Z ->
  formato (F2R (Zpos m) e * bpow k).
Proof.
  intros H Hk. destruct (bounded_canonical m e H) as (Hm & He & _).
  exists (Zpos m), (e + k)%Z. split.
  - unfold F2R. rewrite bpow_add. ring.
  - split; [lia | lia].
Qed.

Lemma positivo_desde_emin m e :
  SpecFloat.bounded prec emax m e = true -> bpow emin <= F2R (Zpos m) e.
Proof.
  intro H. destruct (bounded_canonical m e H) as (_ & He & _).
  apply Rle_trans with (F2R 1 e).
  - unfold F2R. rewrite Rmult_1_l. apply bpow_le. exact He.
  - apply F2R_le. lia.
Qed.

Lemma gt0_finito (x : float) : finito x -> Py.gt0 x = true -> 0 < B2R x.
Proof.
  intros Hx H. unfold Py.gt0 in H. rewrite ltb_0_positivo in H.
  destruct (finito_casos x Hx) as [[[sx Ex] Vx] | (mx & ex & Ex & Vx & Bx)].
  - rewrite Ex in H. contradiction.
  - rewrite Vx. apply F2R_pos.
Qed.

Lemma lote_y_construido (l q : float) :
  hasta 40 l -> entre (- 2) 0 q -> 0 < B2R (l * q) ->
  B2R l <= bpow 55 * B2R (l * q).
Proof.
  intros [Fl Hl] Hq Hb.
  destruct (mul_cota l q Fl (entre_finito _ _ _ Hq)) as (v & Hr & Hv).
  destruct Hq as [Lq Uq]. rewrite bpow_0 in Uq.
  pose proof (finito_no_negativo l Fl) as Hl0.
  assert (v <= bpow 40) as Hv40.
  { apply (Hr _ (formato_bpow 40 ltac:(zl))). nra. }
  pose proof (bpow_lt 40 emax ltac:(zl)) as H40.
  destruct (Hv ltac:(lra)) as [_ E]. rewrite E in *.
  destruct (positivo_casos (l * q) ltac:(rewrite E; exact Hb)) as (mb & eb & _ & Vb & Bb).
  rewrite E in Vb.
  pose proof (positivo_desde_emin mb eb Bb) as Hmin. rewrite <- Vb in Hmin.
  destruct (finito_casos l Fl) as [[_ Vl] | (ml & el & _ & Vl & Bl)]; rewrite Vl in *.
  - pose proof (bpow_gt_0 55). nra.
  - destruct (bounded_canonical ml el Bl) as (Hm & He & _).
    pose proof (bpow_gt_0 55) as H55.
    destruct (Z_le_gt_dec (emin + 2) el) as [Hc | Hc].
    + assert (formato (F2R (Zpos ml) (el - 2))) as Hf
        by (exists (Zpos ml), (el - 2)%Z; split; [reflexivity | split; [lia | lia]]).
      assert (F2R (Zpos ml) (el - 2) = F2R (Zpos ml) el * bpow (- 2)) as Ef.
      { unfold F2R. replace (el - 2)%Z with (el + - 2)%Z by lia.
        rewrite bpow_add. ring. }
      assert (F2R (Zpos ml) (el - 2) <= v) as Hfv.
      { apply (Hr _ Hf). rewrite Ef. pose proof (F2R_pos ml el). nra. }
      assert (bpow 2 * bpow (- 2) = 1) as E22
        by (rewrite <- bpow_add; apply bpow_0).
      assert (bpow 2 <= bpow 55) as H255 by (apply bpow_le; lia).
      pose proof (bpow_gt_0 2). pose proof (bpow_gt_0 (- 2)).
      pose proof (F2R_pos ml el).
      assert (F2R (Zpos ml) el = bpow 2 * F2R (Zpos ml) (el - 2)) as El
        by (rewrite Ef; replace (bpow 2 * (F2R (Z.pos ml) el * bpow (- 2)))
              with (F2R (Z.pos ml) el * (bpow 2 * bpow (- 2))) by ring;
            rewrite E22; ring).
      rewrite El. nra.
    + assert (F2R (Zpos ml) el < bpow (emin + 55)) as Hlt.
      { apply Rlt_le_trans with (bpow (el + prec)).
        - rewrite (F2R_bpow el prec) by zl. apply F2R_lt. exact Hm.
        - apply bpow_le. zl. }
      assert (bpow (emin + 55) = bpow 55 * bpow emin) as Ee
        by (rewrite <- bpow_add; f_equal; lia).
      rewrite Ee in Hlt. nra.
Qed.

Lemma precio_base_hasta (l p c q k : float) :
  hasta 40 l -> hasta 50 p -> hasta 22 c -> entre (- 2) 0 q -> entre 0 1 k ->
  Py.gt0 (l * q) = true ->
  hasta 107 (k * (l * p + l * q * c) / (l * q)).
Proof.
  intros Hl Hp Hc Hq Hk Hgt.
  assert (hasta 40 (l * q)) as Hb.
  { apply (hasta_mul l q 40 0 Hl (entre_hasta _ _ _ Hq)). zl. }
  pose proof (gt0_finito _ (proj1 Hb) Hgt) as Hb0.
  pose proof (lote_y_construido l q Hl Hq Hb0) as Hlb.
  destruct (positivo_casos _ Hb0) as (mb & eb & _ & Vb & Bb).
  destruct Hb as [Fb Ub]. rewrite Vb in *.
  set (B := F2R (Zpos mb) eb) in *.
  assert (forall n, (0 <= n <= 200)%Z -> formato (B * bpow n) /\ B * bpow n < bpow emax)
    as HS.
  { intros n Hn. split; [apply formato_escala; [exact Bb | lia] | ].
    apply Rle_lt_trans with (bpow 40 * bpow n).
    - pose proof (bpow_gt_0 n). nra.
    - rewrite <- bpow_add. apply bpow_lt. zl. }
  destruct Hl as [Fl Ul], Hp as [Fp Up], Hc as [Fc Uc].
  pose proof (bpow_gt_0 50). pose proof (bpow_gt_0 55). pose proof (bpow_gt_0 22).
  assert (B * bpow 105 = bpow 55 * B * bpow 50) as E105
    by (replace 105%Z with (55 + 50)%Z by lia; rewrite bpow_add; ring).
  destruct (cota_mul l p (bpow 55 * B) (bpow 50) (B * bpow 105) Fl Fp Hlb Up
              ltac:(rewrite E105; lra) (proj1 (HS 105%Z ltac:(lia)))
              (proj2 (HS 105%Z ltac:(lia)))) as [Fct Uct].
  destruct (cota_mul (l * q) c B (bpow 22) (B * bpow 22) Fb Fc
              ltac:(rewrite Vb; lra) Uc ltac:(lra) (proj1 (HS 22%Z ltac:(lia)))
              (proj2 (HS 22%Z ltac:(lia)))) as [Fcc Ucc].
  assert (B * bpow 105 + B * bpow 22 <= B * bpow 106) as Hsum.
  { pose proof (suma_bpow 105 22 106 ltac:(lia) ltac:(lia)). nra. }
  destruct (cota_add _ _ _ _ (B * bpow 106) Fct Fcc Uct Ucc Hsum
              (proj1 (HS 106%Z ltac:(lia))) (proj2 (HS 106%Z ltac:(lia))))
    as [Fps Ups].
  destruct Hk as [Lk Uk].
  assert (finito k) as Fk by (apply (entre_finito 0 1); split; assumption).
  assert (bpow 1 * (B * bpow 106) <= B * bpow 107) as Hprod.
  { replace 107%Z with (1 + 106)%Z by lia. rewrite bpow_add. lra. }
  destruct (cota_mul k _ (bpow 1) (B * bpow 106) (B * bpow 107) Fk Fps Uk Ups Hprod
              (proj1 (HS 107%Z ltac:(lia))) (proj2 (HS 107%Z ltac:(lia))))
    as [Ft Ut].
  apply (cota_div _ (l * q) (bpow 107) Ft).
  - rewrite Vb. exact Hb0.
  - rewrite Vb. fold B. lra.
  - apply formato_bpow. zl.
  - apply bpow_lt. zl.
Qed.

(** *** Conversions and quotients of integers *)

Lemma hasta_cero (x : float) s k : Prim2SF x = S754_zero s -> hasta k x.
Proof.
  intro E. unfold hasta, finito, B2R. rewrite E. cbn.
  split; [exact I | ]. pose proof (bpow_gt_0 k). lra.
Qed.

Lemma floor_hasta (x : float) k :
  hasta k x ->
  exists c, Py.floor x = inr c /\ (0 <= c <= 2 ^ Z.max 0 k)%Z.
Proof.
  intros [Fx Hx]. destruct (floor_finito x Fx) as (c & Ec & Hc0 & Hc1 & _).
  exists c. split; [exact Ec | ]. split; [exact Hc0 | ].
  apply le_IZR. rewrite <- (bpow_IZR (Z.max 0 k)) by lia.
  pose proof (bpow_le k (Z.max 0 k) ltac:(lia)). lra.
Qed.

Lemma truediv_int_hasta (x : float) (n k : Z) :
  (1 <= n <= 2 ^ k)%Z -> (0 <= k < emax)%Z ->
  exists y, Py.truediv_int x n = inr (x / y)%float /\ entre 0 k y.
Proof.
  intros Hn Hk. unfold Py.truediv_int.
  destruct (float_of_int_hasta n k ltac:(lia) Hk) as (y & -> & _ & Hy).
  exists y. split; [ | exact (Hy ltac:(lia))].
  exact (truediv_entre x y 0 k (Hy ltac:(lia))).
Qed.

Lemma int_truediv_cota (a b : Z) :
  (0 < a)%Z -> (0 < b)%Z ->
  exists v, rnd (IZR a / IZR b) v /\
            (v < bpow emax ->
             exists q, Py.int_truediv a b = inr q /\ finito q /\ B2R q = v).
Proof.
  intros Ha Hb. unfold Py.int_truediv.
  destruct (Z.eqb_spec b 0) as [? | _]; [lia | ].
  destruct (Z.eqb_spec a 0) as [? | _]; [lia | ].
  destruct (Z.ltb_spec a 0) as [? | _]; [lia | ].
  destruct (Z.ltb_spec b 0) as [? | _]; [lia | ].
  cbn [xorb].
  rewrite (Z.abs_eq a), (Z.abs_eq b) by lia.
  pose proof (SFdiv_core_binary_spec a 0 b 0 Ha Hb) as H.
  destruct (SFdiv_core_binary prec emax a 0 b 0) as [[q e] l].
  destruct H as (Hq & Hu & He).
  assert (F2R a 0 / F2R b 0 = IZR a / IZR b) as Ex
    by (unfold F2R; rewrite bpow_0, !Rmult_1_r; reflexivity).
  rewrite Ex in Hu.
  destruct (binary_round_aux_spec false q e l _ Hq Hu He) as (v & Hr & Hv).
  exists v. split; [exact Hr | ]. intro Hlt.
  destruct (repr_acotado v _ Hv Hlt) as [F E].
  pose proof (repr_valid _ _ _ Hv) as Hval.
  set (r := binary_round_aux prec emax false q e l) in *.
  exists (SF2Prim r).
  assert (Prim2SF (SF2Prim r) = r) as Er by (apply Prim2SF_SF2Prim; exact Hval).
  split.
  { destruct r as [s | s | | s m e']; try reflexivity; contradiction. }
  split; [unfold finito; rewrite Er; exact F | unfold B2R; rewrite Er; exact E].
Qed.

(** [math.ceil(n / 10)] is the quotient rounded up, as long as the sixteenth
    below the quotient is a float. *)
Lemma techo_decima (n : Z) :
  (0 <= n <= 2 ^ 52)%Z ->
  exists q, Py.int_truediv n 10 = inr q /\ Py.ceil q = inr ((n + 9) / 10)%Z.
Proof.
  intros [Hn0 Hn].
  destruct (Z.eq_dec n 0) as [-> | Hne].
  { eexists. split; vm_compute; reflexivity. }
  destruct (int_truediv_cota n 10 ltac:(lia) ltac:(lia)) as (v & Hr & Hv).
  set (t := ((n + 9) / 10)%Z).
  assert (10 * (t - 1) < n <= 10 * t)%Z as [Ht1 Ht2].
  { unfold t. pose proof (Z.mul_div_le (n + 9) 10 ltac:(lia)).
    pose proof (Z.mul_succ_div_gt (n + 9) 10 ltac:(lia)). lia. }
  change (2 ^ 52)%Z with 4503599627370496%Z in Hn.
  assert (1 <= t <= 450359962737050)%Z as Ht by lia.
  assert (IZR n / 10 <= IZR t) as Hx2.
  { apply IZR_le in Ht2. rewrite mult_IZR in Ht2. lra. }
  assert (IZR (t - 1) + / 16 <= IZR n / 10) as Hx1.
  { assert (10 * (t - 1) + 1 <= n)%Z as H' by lia.
    apply IZR_le in H'. rewrite plus_IZR, mult_IZR in H'. lra. }
  assert (formato (IZR t)) as Ft.
  { exists t, 0%Z. unfold F2R. rewrite bpow_0. split; [ring | ].
    split; [rewrite pow2_prec; lia | zl]. }
  assert (formato (IZR (t - 1) + / 16)) as Ff.
  { exists (16 * (t - 1) + 1)%Z, (- 4)%Z. split.
    - unfold F2R. rewrite plus_IZR, mult_IZR.
      assert (bpow (- 4) = / 16) as ->.
      { apply Rmult_eq_reg_l with (bpow 4); [ | pose proof (bpow_gt_0 4); lra].
        rewrite <- bpow_add. change (4 + - 4)%Z with 0%Z. rewrite bpow_0.
        rewrite (bpow_IZR 4) by lia. change (2 ^ 4)%Z with 16%Z. lra. }
      lra.
    - split; [rewrite pow2_prec; lia | zl]. }
  assert (v <= IZR t) as Hv2 by (apply (Hr _ Ft); exact Hx2).
  assert (IZR (t - 1) + / 16 <= v) as Hv1 by (apply (Hr _ Ff); exact Hx1).
  assert (v < bpow emax) as Hlt.
  { apply Rle_lt_trans with (IZR t); [exact Hv2 | ].
    apply Rlt_le_trans with (bpow 53); [ | apply bpow_le; zl].
    rewrite (bpow_IZR 53) by lia. apply IZR_lt.
    change (2 ^ 53)%Z with 9007199254740992%Z. lia. }
  destruct (Hv Hlt) as (q & Eq & Fq & Vq).
  exists q. split; [exact Eq | ].
  destruct (ceil_finito q Fq) as (c & Ec & Hc1 & Hc2).
  rewrite Ec. f_equal. rewrite Vq in *.
  assert (IZR c - 1 < IZR t) as H1 by lra.
  assert (IZR (t - 1) < IZR c) as H2 by lra.
  rewrite <- minus_IZR in H1. apply lt_IZR in H1. apply lt_IZR in H2. lia.
Qed.

(** *** Floats from 1 up, infinity included *)

Definition desde_1 (r : spec_float) : Prop :=
  match r with
  | S754_finite false m e => 1 <= F2R (Zpos m) e
  | S754_infinity false => True
  | _ => False
  end.

Lemma formato_uno : formato 1.
Proof. rewrite <- bpow_0. apply formato_bpow. zl. Qed.

Lemma repr_desde_1 v r : repr false v r -> 1 <= v -> desde_1 r.
Proof.
  intros [[-> _] | [(m & e & -> & -> & _) | [-> _]]] Hv; cbn; [lra | exact Hv | exact I].
Qed.

Lemma entre_desde_1 j k (c : float) :
  entre j k c -> (0 <= j)%Z -> desde_1 (Prim2SF c).
Proof.
  intros H Hj. destruct (entre_casos j k c H) as (m & e & -> & V & _).
  cbn. rewrite <- V. destruct H as [H _].
  pose proof (bpow_ge_1 j Hj). lra.
Qed.

(** Adding a float that is at least 1 to one that is not negative. *)
Lemma suma_desde_1 (x c : float) j k :
  (0 <=? x)%float = true -> entre j k c -> (0 <= j)%Z ->
  desde_1 (Prim2SF (x + c)).
Proof.
  intros Hx Hc Hj. pose proof (entre_desde_1 j k c Hc Hj) as Hc1.
  rewrite leb_0_no_negativo in Hx.
  destruct (entre_casos j k c Hc) as (mc & ec & Ec & Vc & Bc).
  rewrite FloatAxioms.add_spec. unfold SF64add. rewrite Ec in *.
  destruct (Prim2SF x) as [sx | sx | | sx mx ex] eqn:Ex; cbn in Hx;
    try contradiction.
  - exact Hc1.
  - destruct sx; [contradiction | exact I].
  - destruct sx; [contradiction | ].
    destruct (SFadd_finite false mx ex false mc ec) as (n & -> & Hn).
    cbn [SF2R cond_Zopp] in Hn. cbn in Hc1.
    pose proof (F2R_pos mx ex) as Hx0.
    pose proof (binary_normalize_spec n (Z.min ex ec) false) as Hs.
    assert (0 < n)%Z as Hn0.
    { apply (F2R_lt_inv 0 n (Z.min ex ec)). rewrite F2R_0, Hn. lra. }
    destruct n as [| pn | pn]; try lia.
    destruct Hs as (v & Hr & Hv).
    change (Z.pos pn <? 0)%Z with false in Hv.
    rewrite Rabs_pos_eq in Hr by (rewrite Hn; lra).
    apply (repr_desde_1 v _ Hv).
    apply (Hr 1 formato_uno). rewrite Hn. lra.
Qed.

(** The product of a negated positive float and a float from 1 up is
    negative. *)
Lemma producto_negativo (b m : float) j k :
  entre j k b -> (emin <= j)%Z -> desde_1 (Prim2SF m) -> (- b * m <? 0)%float = true.
Proof.
  intros Hb Hj Hm.
  destruct (entre_casos j k b Hb) as (mb & eb & Eb & Vb & Bb).
  rewrite FloatAxioms.ltb_spec, FloatAxioms.mul_spec, FloatAxioms.opp_spec.
  unfold SF64mul. rewrite Eb. cbn [SFopp negb].
  change (Prim2SF 0) with (S754_zero false).
  destruct (Prim2SF m) as [sm | sm | | sm mm em] eqn:Em; cbn in Hm; try contradiction.
  - destruct sm; [contradiction | reflexivity].
  - destruct sm; [contradiction | ].
    pose proof (Prim2SF_bounded m _ _ _ Em) as Bm.
    destruct (SFmul_finite true mb eb false mm em Bb Bm) as (v & Hr & Hv).
    cbn [xorb] in Hv.
    assert (0 < v) as Hv0.
    { apply Rlt_le_trans with (bpow j); [apply bpow_gt_0 | ].
      apply (Hr _ (formato_bpow j Hj)).
      destruct Hb as [Lb _]. rewrite Vb in Lb.
      pose proof (bpow_gt_0 j). nra. }
    destruct Hv as [[-> _] | [(m' & e' & -> & _) | [-> _]]]; [lra | reflexivity | reflexivity].
Qed.

End Cotas.

(** ** The recomputation returns *)

(** Inputs of a sensible size: a lot of at most 10^12 m2, a price of at most
    10^15 per m2, neither negative, the construction percent of the size and
    at most a million rooms. *)
Definition datos_acotados (p : Proyecto) : Prop :=
  (0 <=? area_lote p)%float = true /\ (area_lote p <=? 1e12)%float = true /\
  (0 <=? precio_terreno_m2 p)%float = true /\
  (precio_terreno_m2 p <=? 1e15)%float = true /\
  porc_construccion p = porc_de_tamano (tamano p) /\
  0 <= habitaciones p <= 1000000.

Lemma wpx_lift_inr {A : Type} (r : exn + A) (a : A) (Q : A -> Proyecto -> Prop)
    (E : exn -> Prop) self :
  r = inr a -> Q a self -> wpx (lift r) Q E self.
Proof. intros -> H. exact H. Qed.

(** Bounds of a closed float, by computation. *)
Ltac cota_cerrada c :=
  let r := eval vm_compute in (Prim2SF c) in
  lazymatch r with
  | S754_zero ?s =>
      lazymatch goal with
      | |- Cotas.hasta _ _ => apply (Cotas.hasta_cero c s 0); vm_compute; reflexivity
      | |- Cotas.finito _ => apply (proj1 (Cotas.hasta_cero c s 0 ltac:(vm_compute; reflexivity)))
      end
  | S754_finite false ?m ?e =>
      let k := eval vm_compute in (Zdigits2 (Zpos m) + e)%Z in
      let j := eval vm_compute in (Zdigits2 (Zpos m) + e - 1)%Z in
      let H := fresh "H" in
      assert (H : Cotas.entre j k c)
        by (apply (Cotas.entre_const c m e j k);
            [ vm_compute; reflexivity | lia | lia
            | split; vm_compute; discriminate ]);
      lazymatch goal with
      | |- Cotas.entre _ _ _ => exact H
      | |- Cotas.hasta _ _ => exact (Cotas.entre_hasta j k c H)
      | |- Cotas.finito _ => exact (Cotas.entre_finito j k c H)
      end
  end.

(** Bounds of a float expression, from the bounds of its parts. *)
Ltac cota :=
  first
    [ eassumption
    | lazymatch goal with
      | |- Cotas.hasta _ _ => eapply Cotas.entre_hasta; eassumption
      | |- Cotas.finito _ => eapply Cotas.entre_finito; eassumption
      end
    | lazymatch goal with
      | |- Cotas.finito ?x =>
          refine (proj1 (_ : Cotas.hasta _ x)); cota
      | |- Cotas.hasta _ (_ * (_ * _ + _ * _ * _) / (_ * _))%float =>
          eapply Cotas.precio_base_hasta;
          [ eassumption | eassumption
          | eapply Cotas.hasta_mono; [cota | Cotas.zl]
          | eapply Cotas.entre_mono; [cota | Cotas.zl | Cotas.zl]
          | eapply Cotas.entre_mono; [cota | Cotas.zl | Cotas.zl]
          | assumption ]
      | |- Cotas.hasta _ (_ / _)%float =>
          eapply Cotas.hasta_div; [cota | cota | Cotas.zl]
      | |- Cotas.hasta _ (_ * _)%float =>
          eapply Cotas.hasta_mul; [cota | cota | Cotas.zl]
      | |- Cotas.hasta _ (_ + _)%float =>
          eapply Cotas.hasta_suma; [cota | cota | Cotas.zl]
      | |- Cotas.entre _ _ (_ * _)%float =>
          eapply Cotas.entre_mul; [cota | cota | Cotas.zl | Cotas.zl]
      | |- Cotas.entre _ _ (_ + _)%float =>
          eapply Cotas.entre_suma; [cota | cota | Cotas.zl | Cotas.zl]
      | |- _ _ ?c => cota_cerrada c
      | |- _ _ _ ?c => cota_cerrada c
      end ].

Lemma costo_m2_entre (e : Z) :
  exists c,
    (if e =? 3 then Py.int_truediv (1800000 + 2300000) 2
     else if e =? 4 then Py.int_truediv (2300000 + 2800000) 2
     else if e =? 5 then Py.int_truediv (2800000 + 3600000) 2
     else Py.int_truediv (3600000 + 4500000) 2) = inr c /\
    Cotas.entre 20 22 c.
Proof.
  destruct (e =? 3); [ | destruct (e =? 4); [ | destruct (e =? 5)]];
    eexists; (split; [vm_compute; reflexivity | ]);
    (eapply Cotas.entre_mono; [cota | lia | lia]).
Qed.

Lemma porc_de_tamano_entre (t : string) :
  Cotas.entre (- 2) 0 (porc_de_tamano t / 100)%float.
Proof.
  unfold porc_de_tamano.
  destruct (String.eqb t "grande"); [ | destruct (String.eqb t "mediana")];
    (eapply Cotas.entre_mono; [cota | lia | lia]).
Qed.

Ltac enteros :=
  repeat match goal with
    | H : (_ >? _) = true |- _ => apply Z.gtb_lt in H
    | H : (_ >? _) = false |- _ => rewrite Z.gtb_ltb in H; apply Z.ltb_ge in H
    | H : context [if ?b then _ else _] |- _ => destruct b eqn:?
    | |- context [if ?b then _ else _] => destruct b eqn:?
    end;
  repeat match goal with
    | H : context [(2 ^ ?k)%Z] |- _ =>
        let v := eval vm_compute in (2 ^ k)%Z in change (2 ^ k)%Z with v in H
    | |- context [(2 ^ ?k)%Z] =>
        let v := eval vm_compute in (2 ^ k)%Z in change (2 ^ k)%Z with v
    end;
  lia.

Ltac paso_total :=
  proj_simpl;
  lazymatch goal with
  | |- wpx (lift (if ?e =? 3 then _ else _)) _ _ _ =>
      let c := fresh "c" in let Ec := fresh "Ec" in let Hc := fresh "Hc" in
      destruct (costo_m2_entre e) as (c & Ec & Hc);
      eapply wpx_lift_inr; [exact Ec | ]
  | |- wpx (lift (Py.truediv ?x ?y)) _ _ _ =>
      eapply wpx_lift_inr;
      [ first [ apply Cotas.truediv_gt0; assumption
              | eapply Cotas.truediv_entre; cota ]
      | ]
  | |- wpx (lift (Py.floor ?x)) _ _ _ =>
      let H := fresh "H" in
      let k := fresh "k" in
      evar (k : Z);
      assert (H : exists c, Py.floor x = inr c /\ 0 <= c <= 2 ^ Z.max 0 k);
      subst k;
      [ eapply Cotas.floor_hasta; cota
      | let c := fresh "c" in let Ec := fresh "Ec" in let Hc := fresh "Hc" in
        destruct H as (c & Ec & Hc);
        eapply wpx_lift_inr; [exact Ec | ] ]
  | |- wpx (lift (Py.ceil ?x)) _ _ _ =>
      eapply wpx_lift_inr; [eassumption | ]
  | |- wpx (lift (Py.int_mul ?h ?c)) _ _ _ =>
      let H := fresh "H" in
      eassert (H : exists x, Py.int_mul h c = inr x /\ Cotas.hasta _ x);
      [ eapply (Cotas.int_mul_hasta h 20); [lia | lia | cota | Cotas.zl | Cotas.zl ]
      | let x := fresh "x" in let Ex := fresh "Ex" in let Hx := fresh "Hx" in
        destruct H as (x & Ex & Hx);
        eapply wpx_lift_inr; [exact Ex | ] ]
  | |- wpx (lift (Py.int_truediv ?n 10)) _ _ _ =>
      let H := fresh "H" in
      assert (H : 0 <= n <= 2 ^ 52) by enteros;
      let q := fresh "q" in let Eq := fresh "Eq" in let Ec := fresh "Ec" in
      destruct (Cotas.techo_decima n H) as (q & Eq & Ec); clear H;
      eapply wpx_lift_inr; [exact Eq | ]
  | |- wpx (lift (Py.int_truediv ?a ?b)) _ _ _ =>
      eapply wpx_lift_inr; [vm_compute; reflexivity | ]
  | |- wpx (lift (Py.truediv_int ?x ?n)) _ _ _ =>
      let H := fresh "H" in
      assert (H : 1 <= n <= 2 ^ 200) by enteros;
      let y := fresh "y" in let Ey := fresh "Ey" in let Hy := fresh "Hy" in
      destruct (Cotas.truediv_int_hasta x n 200 H ltac:(Cotas.zl)) as (y & Ey & Hy);
      clear H;
      eapply wpx_lift_inr; [exact Ey | ]
  | _ => wpx_step ltac:(idtac; fail)
  end; cbv beta iota.

(** ** A part taken off and added back

    The built area is taken off the lot and added back: the float sum is
    the lot but for the rounding of the difference, one unit in the last
    place of the lot at most. *)
Module Suma.
Import B64 Cotas.
#[local] Open Scope R_scope.

Lemma formato_rejilla (k e : Z) :
  (0 <= k <= 2 ^ prec)%Z -> (emin <= e)%Z -> formato (F2R k e).
Proof.
  intros [H0 H1] He. destruct (Z.eq_dec k (2 ^ prec)) as [-> | Hne].
  - rewrite <- (F2R_bpow e prec) by zl. apply formato_bpow. zl.
  - exists k, e. split; [reflexivity | ]. split; [lia | exact He].
Qed.

(** A real between 0 and a float lies between two numbers of the format
    that are no further apart than the last place of that float. *)
Lemma entre_dos_formatos (x : R) (m e : Z) :
  (0 < m < 2 ^ prec)%Z -> (emin <= e)%Z -> 0 <= x <= F2R m e ->
  exists f1 f2, formato f1 /\ formato f2 /\ f1 <= x <= f2 /\ f2 - f1 <= bpow e.
Proof.
  intros Hm He [H0 H1].
  pose proof (bpow_gt_0 e) as Hb.
  set (r := x / bpow e).
  assert (x = r * bpow e) as Hx by (unfold r; field; lra).
  destruct (archimed r) as [Hu1 Hu2].
  set (k := (up r - 1)%Z).
  assert (IZR k <= r < IZR k + 1) as [Hk1 Hk2].
  { unfold k. rewrite minus_IZR. split; lra. }
  assert (0 <= r) as Hr0.
  { unfold r. apply Rmult_le_pos; [exact H0 | ]. apply Rlt_le, Rinv_0_lt_compat, Hb. }
  assert (r <= IZR m) as Hrm.
  { unfold F2R in H1. rewrite Hx in H1. apply Rmult_le_reg_r with (bpow e); assumption. }
  assert (0 <= k)%Z as Hk0.
  { assert (-1 < k)%Z; [ | lia]. apply lt_IZR. lra. }
  assert (k <= m)%Z as Hkm by (apply le_IZR; lra).
  exists (F2R k e), (F2R (k + 1) e).
  split; [apply formato_rejilla; [lia | exact He] | ].
  split; [apply formato_rejilla; [lia | exact He] | ].
  rewrite F2R_succ. unfold F2R. rewrite Hx. split; [ | lra].
  split; [apply Rmult_le_compat_r; lra | ].
  replace (IZR k * bpow e + bpow e) with ((IZR k + 1) * bpow e) by ring.
  apply Rmult_le_compat_r; lra.
Qed.

(** A rounding of such a real is as near to it. *)
Lemma rnd_cerca (x v : R) (m e : Z) :
  (0 < m < 2 ^ prec)%Z -> (emin <= e)%Z -> 0 <= x <= F2R m e -> rnd x v ->
  Rabs (v - x) <= bpow e.
Proof.
  intros Hm He Hx Hr.
  destruct (entre_dos_formatos x m e Hm He Hx) as (f1 & f2 & F1 & F2 & [L1 L2] & Hd).
  destruct (Hr f1 F1) as [H1 _]. destruct (Hr f2 F2) as [_ H2].
  specialize (H1 L1). specialize (H2 L2).
  apply Rabs_le. lra.
Qed.

(** The sum of a part of a float and of what the part leaves. *)
Lemma parte_mas_resto (l b : float) :
  finito l -> 0 < B2R l -> B2R l <= bpow (emax - 2) -> finito b -> B2R b <= B2R l ->
  exists m e,
    Prim2SF l = S754_finite false m e /\
    finito (b + (l - b)) /\ Rabs (B2R (b + (l - b)) - B2R l) <= bpow e.
Proof.
  intros Fl Hl Hmax Fb Hb.
  destruct (positivo_casos l Hl) as (m & e & El & Vl & Bl).
  exists m, e. split; [exact El | ].
  destruct (bounded_canonical m e Bl) as (Hm & He & _).
  pose proof (finito_no_negativo b Fb) as Hb0.
  pose proof (bpow_gt_0 e) as Hbe.
  assert (bpow e <= B2R l) as Hel.
  { rewrite Vl. unfold F2R. rewrite <- (Rmult_1_l (bpow e)) at 1.
    apply Rmult_le_compat_r; [lra | ]. apply IZR_le. lia. }
  (* the difference *)
  destruct (sub_cota l b Fl Fb Hb) as (U & HrU & HU).
  assert (formato (B2R l)) as Hfl by (rewrite Vl; apply bounded_formato; exact Bl).
  assert (B2R l < bpow emax) as Hlt by (rewrite Vl; apply bounded_lt_emax; exact Bl).
  assert (U <= B2R l) as HUl by (apply (HrU _ Hfl); lra).
  destruct (HU ltac:(lra)) as [Fu Eu].
  assert (Rabs (U - (B2R l - B2R b)) <= bpow e) as HcU.
  { apply (rnd_cerca _ _ (Zpos m) e); [lia | exact He | rewrite <- Vl; lra | exact HrU]. }
  assert (- bpow e <= U - (B2R l - B2R b) <= bpow e) as HcU'
    by (unfold Rabs in HcU; destruct (Rcase_abs _); lra).
  clear HcU.
  (* the sum *)
  destruct (add_cota b (l - b) Fb Fu) as (S & HrS & HS). rewrite Eu in HrS.
  assert (formato (F2R (Zpos m - 1) e)) as Fa by (apply formato_rejilla; [lia | exact He]).
  assert (formato (F2R (Zpos m + 1) e)) as Fc by (apply formato_rejilla; [lia | exact He]).
  rewrite F2R_minus in Fa. rewrite F2R_plus in Fc.
  replace (F2R 1 e) with (bpow e) in Fa, Fc by (unfold F2R; ring).
  rewrite <- Vl in Fa, Fc.
  destruct (HrS _ Fa) as [Ha _]. destruct (HrS _ Fc) as [_ Hc].
  specialize (Ha ltac:(lra)). specialize (Hc ltac:(lra)).
  assert (S < bpow emax) as HSlt.
  { assert (2 * bpow (emax - 2) = bpow (emax - 1)) as E2
      by (rewrite (bpow_doble (emax - 1)); do 2 f_equal; lia).
    apply Rle_lt_trans with (bpow (emax - 1)); [lra | apply bpow_lt; lia]. }
  destruct (HS HSlt) as [Fs Es]. split; [exact Fs | ].
  rewrite Es. apply Rabs_le. lra.
Qed.

(** That place is [2^-52] of the float at most, or the smallest float if
    the float is subnormal. *)
Lemma ultimo_lugar (l : float) (m : positive) (e : Z) :
  Prim2SF l = S754_finite false m e ->
  bpow e <= bpow (1 - prec) * B2R l + bpow emin.
Proof.
  intros El.
  pose proof (Prim2SF_bounded l _ _ _ El) as Bl.
  destruct (bounded_canonical m e Bl) as (Hm & He & _ & _ & Hnorm).
  unfold B2R. rewrite El. cbn [SF2R cond_Zopp].
  pose proof (F2R_pos m e) as Hpos. pose proof (bpow_gt_0 (1 - prec)) as Hp.
  pose proof (bpow_gt_0 emin) as Hmin.
  destruct (Z.eq_dec e emin) as [-> | Hne].
  - assert (0 <= bpow (1 - prec) * F2R (Z.pos m) emin) by (apply Rmult_le_pos; lra).
    lra.
  - destruct (Hnorm ltac:(lia)) as [H52 _].
    assert (bpow e <= bpow (1 - prec) * F2R (Z.pos m) e); [ | lra].
    unfold F2R. rewrite <- Rmult_assoc.
    rewrite <- (Rmult_1_l (bpow e)) at 1.
    apply Rmult_le_compat_r; [apply Rlt_le, bpow_gt_0 | ].
    apply Rmult_le_reg_l with (bpow (prec - 1)); [apply bpow_gt_0 | ].
    rewrite <- Rmult_assoc, <- bpow_add. replace (prec - 1 + (1 - prec))%Z with 0%Z by lia.
    rewrite bpow_0, Rmult_1_r, Rmult_1_l, bpow_IZR by zl. apply IZR_le. exact H52.
Qed.

End Suma.

(** A lot area that is positive and half the largest float at most. *)
Definition lote_finito (l : float) : Prop :=
  (0 <? l)%float = true /\ (l <=? 0x1p+1022)%float = true.

Lemma lote_finito_hasta (l : float) :
  lote_finito l -> Cotas.hasta 1022 l /\ (0 < Cotas.B2R l)%R.
Proof.
  intros [H0 H1].
  assert ((0 <=? l)%float = true) as H0'.
  { rewrite FloatAxioms.leb_spec. rewrite FloatAxioms.ltb_spec in H0.
    unfold SFleb, SFltb in *.
    destruct (SFcompare (Prim2SF 0) (Prim2SF l)) as [[ | | ] | ];
      first [reflexivity | discriminate]. }
  assert (Cotas.hasta 1022 l) as Hh.
  { apply (Cotas.hasta_leb 0x1p+1022 l 1022 1022); try assumption.
    apply (Cotas.entre_const _ 4503599627370496 970); [reflexivity | lia | lia | ].
    split; vm_compute; discriminate. }
  split; [exact Hh | ].
  apply Cotas.gt0_finito; [exact (proj1 Hh) | exact H0].
Qed.

(** The float sum of a part of the lot and of what it leaves is the area of
    the lot within [2^-52] of it and the smallest float. *)
Lemma suma_de_areas (l : float) (t : string) :
  lote_finito l ->
  let a := (l * (porc_de_tamano t / 100))%float in
  Cotas.finito (a + (l - a)) /\
  (Rabs (Cotas.B2R (a + (l - a)) - Cotas.B2R l) <=
   B64.bpow (- 52) * Cotas.B2R l + B64.bpow (- 1074))%R.
Proof.
  intros Hn a. destruct (lote_finito_hasta l Hn) as [[Fl Hl2] Hl0].
  destruct (Cotas.cota_parte l _ _ Fl (porc_de_tamano_entre t)) as [Fa Ha].
  fold a in Fa, Ha.
  destruct (Suma.parte_mas_resto l a Fl Hl0 Hl2 Fa Ha) as (m & e & El & Fs & Hs).
  split; [exact Fs | ].
  eapply Rle_trans; [exact Hs | ].
  exact (Suma.ultimo_lugar l m e El).
Qed.

(** C6: after a recomputation the built area is the float product of the lot
    area and construction_percent / 100, and the unbuilt area the float
    difference of the lot area and the built area.  For the construction
    percent of a size and a positive lot area (of [2^1022] at most), their
    float sum is the lot area within floating-point tolerance: it is finite
    and differs from the lot area by one unit in its last place at most,
    which is [2^-52] of the lot area (plus [2^-1074], the smallest float,
    for the lot areas that are subnormal floats); and when the percent is 80
    or 60 (sizes "grande" and "mediana") the sum is the lot area exactly, in
    Python's [==]. *)
Theorem C6_areas_del_lote (p p' : Proyecto) :
  recalculado p p' ->
  exists a u,
    area_construida p' = Some a /\ area_no_construida p' = Some u /\
    a = (area_lote p * (porc_construccion p / 100))%float /\
    u = (area_lote p - a)%float /\
    (porc_construccion p = porc_de_tamano (tamano p) -> lote_finito (area_lote p) ->
     Cotas.finito (a + u) /\
     (Rabs (Cotas.B2R (a + u) - Cotas.B2R (area_lote p)) <=
      B64.bpow (- 52) * Cotas.B2R (area_lote p) + B64.bpow (- 1074))%R) /\
    (porc_construccion p = 80%float \/ porc_construccion p = 60%float ->
     finito_positivo (area_lote p) = true ->
     (a + u)%float = area_lote p /\ (a + u =? area_lote p)%float = true).
Proof.
  intro H. ejecuta H.
  all: match goal with
       | H : Py.truediv (porc_construccion _) 100 = inr _ |- _ =>
           apply truediv_inr in H; destruct H as [-> _]
       end.
  all: do 2 eexists; do 4 (split; [reflexivity | ]).
  all: split;
    [ intros Hq Hn; rewrite Hq; exact (suma_de_areas (area_lote p) (tamano p) Hn)
    | intros Hp Hl; exact (areas_exactas (area_lote p) (porc_construccion p) Hp Hl) ].
Qed.

Lemma C6_areas_del_lote_witness :
  exists a u,
    area_construida proyecto_chica_123 = Some a /\
    area_no_construida proyecto_chica_123 = Some u /\
    Cotas.finito (a + u) /\
    (Rabs (Cotas.B2R (a + u) - Cotas.B2R 123.45) <=
     B64.bpow (- 52) * Cotas.B2R 123.45 + B64.bpow (- 1074))%R.
Proof.
  destruct (C6_areas_del_lote proyecto_chica_123 proyecto_chica_123
              ltac:(vm_compute; reflexivity)) as (a & u & Ha & Hu & _ & _ & Hs & _).
  exists a, u. split; [exact Ha | ]. split; [exact Hu | ].
  apply Hs; [vm_compute; reflexivity | split; vm_compute; reflexivity].
Defined.

(** A finite amount that is not negative. *)
Definition es_cantidad (x : float) : bool := ((0 <=? x) && (x <? infinity))%float.

Definition tiene_cantidad (o : option float) : Prop :=
  exists x, o = Some x /\ es_cantidad x = true.

(** The amounts [_recalcular] assigns for every type of project. *)
Definition cantidades (p' : Proyecto) : list (option float) :=
  [area_construida p'; area_no_construida p'; area_min_vivienda p';
   costo_terreno_total p'; costo_construccion_m2 p'; costo_construccion_total p';
   presupuesto_total p'; ganancia p'; precio_venta_m2 p'; precio_venta_total p';
   valor_casa p'].

(** The towers of a building hold its apartments, ten to a tower. *)
Definition torres_de (p' : Proyecto) : Prop :=
  exists n t a,
    num_viviendas p' = Some n /\ num_torres p' = Some t /\
    aptos_por_torre p' = Some a /\
    t = (n + 9) / 10 /\ a = Z.min 10 n /\ n <= t * a < n + 10.

(** What the recomputation leaves on inputs of a sensible size. *)
Definition resultado (p p' : Proyecto) : Prop :=
  Forall tiene_cantidad (cantidades p') /\
  (exists n, num_viviendas p' = Some n /\ 0 <= n <= 2 ^ 40) /\
  (tipo p = "edificio" -> torres_de p').

Lemma es_cantidad_finito (x : float) : Cotas.finito x -> es_cantidad x = true.
Proof. intro H. apply Cotas.finito_bool. exact H. Qed.

Lemma resto_finito (l q : float) j k :
  Cotas.finito l -> Cotas.entre j k q -> k <= 0 -> Cotas.finito (l - l * q).
Proof.
  intros Fl Hq Hk.
  assert (Cotas.entre j 0 q) as Hq' by (apply (Cotas.entre_mono j k); [exact Hq | lia | lia]).
  destruct (Cotas.cota_parte l q j Fl Hq') as [F H].
  exact (proj1 (Cotas.cota_sub l (l * q) Fl F H)).
Qed.

Ltac cantidad :=
  eexists; split; [reflexivity | ]; apply es_cantidad_finito;
  lazymatch goal with
  | |- Cotas.finito (?l - ?l * ?q)%float =>
      eapply (resto_finito l q); [cota | cota | lia]
  | |- _ => cota
  end.

Lemma torres_caben (n : Z) :
  0 <= n -> n <= (n + 9) / 10 * Z.min 10 n < n + 10.
Proof.
  intro Hn.
  pose proof (Z.mul_div_le (n + 9) 10 ltac:(lia)) as H1.
  pose proof (Z.mul_succ_div_gt (n + 9) 10 ltac:(lia)) as H2.
  destruct (Z_le_gt_dec n 10) as [Hs | Hs].
  - rewrite Z.min_r by lia.
    destruct (Z.eq_dec n 0) as [-> | Hne]; [cbn; lia | ].
    assert ((n + 9) / 10 = 1) as -> by lia. lia.
  - rewrite Z.min_l by lia. lia.
Qed.

Lemma recalcular_acotado (p : Proyecto) :
  datos_acotados p -> wpx _recalcular (fun _ p' => resultado p p') (fun _ => False) p.
Proof.
  intros (Hl0 & Hl1 & Hp0 & Hp1 & Hq & Hh).
  assert (Cotas.hasta 40 (area_lote p)) as Hl.
  { eapply (Cotas.hasta_leb 1e12); [cota | assumption | assumption]. }
  assert (Cotas.hasta 50 (precio_terreno_m2 p)) as Hp.
  { eapply (Cotas.hasta_leb 1e15); [cota | assumption | assumption]. }
  clear Hl0 Hl1 Hp0 Hp1.
  assert (0 <= habitaciones p <= 2 ^ 20) as Hh' by (change (2 ^ 20) with 1048576; lia).
  pose proof (porc_de_tamano_entre (tamano p)) as Hq'.
  desplegar.
  repeat (paso_total; rewrite ?Hq).
  all: unfold resultado, cantidades; proj_simpl.
  all: split; [ repeat (apply Forall_cons; [cantidad | ]); apply Forall_nil | ].
  all: split; [ eexists; split; [reflexivity | enteros] | ].
  all: intro Ht; rewrite Ht in *.
  all: try discriminate.
  all: unfold torres_de; proj_simpl.
  all: do 3 eexists; do 5 (split; [reflexivity | ]).
  all: apply torres_caben; enteros.
Qed.

Lemma recalcular_resultado (p : Proyecto) :
  datos_acotados p -> exists p', recalculado p p' /\ resultado p p'.
Proof.
  intro H. pose proof (recalcular_acotado p H) as Hw.
  unfold wpx in Hw. unfold recalculado.
  destruct (_recalcular p) as [p' [e | []]]; [contradiction | ].
  exists p'. split; [reflexivity | exact Hw].
Qed.

Lemma recalculado_unico (p p1 p2 : Proyecto) :
  recalculado p p1 -> recalculado p p2 -> p1 = p2.
Proof. unfold recalculado. intros H1 H2. rewrite H1 in H2. congruence. Qed.

Definition edificio_2000 : Proyecto :=
  fst (__init__ "E1" "edificio" 739000 "Cali" 2000 800000 "mediana" 5 2 739730).

(** The recomputation returns: on inputs of a sensible size no operation of
    [_recalcular] raises, whatever the type, the size and the stratum. *)
Theorem recalcular_termina (p : Proyecto) :
  datos_acotados p -> exists p', recalculado p p'.
Proof.
  intro H. destruct (recalcular_resultado p H) as (p' & Hr & _).
  exists p'. exact Hr.
Qed.

Lemma recalcular_termina_witness : exists p', recalculado edificio_2000 p'.
Proof.
  apply recalcular_termina. unfold datos_acotados.
  repeat split; try (vm_compute; reflexivity); vm_compute; discriminate.
Defined.

(** Every amount the recomputation stores is finite and not negative, and so
    is the number of units. *)
Theorem recalcular_cantidades (p p' : Proyecto) :
  datos_acotados p -> recalculado p p' ->
  Forall tiene_cantidad (cantidades p') /\
  exists n, num_viviendas p' = Some n /\ 0 <= n.
Proof.
  intros H Hr. destruct (recalcular_resultado p H) as (p'' & Hr' & Hc & (n & Hn & Hn') & _).
  rewrite (recalculado_unico p p' p'' Hr Hr').
  split; [exact Hc | ]. exists n. split; [exact Hn | lia].
Qed.

Lemma recalcular_cantidades_witness :
  Forall tiene_cantidad (cantidades edificio_2000) /\
  exists n, num_viviendas edificio_2000 = Some n /\ 0 <= n.
Proof.
  apply (recalcular_cantidades edificio_2000 edificio_2000).
  - unfold datos_acotados.
    repeat split; try (vm_compute; reflexivity); vm_compute; discriminate.
  - vm_compute. reflexivity.
Defined.

(** The towers of a building: ten apartments to a tower, as many towers as
    it takes, so that the towers hold every apartment and none is empty. *)
Theorem torres_del_edificio (p p' : Proyecto) :
  datos_acotados p -> tipo p = "edificio" -> recalculado p p' -> torres_de p'.
Proof.
  intros H Ht Hr. destruct (recalcular_resultado p H) as (p'' & Hr' & _ & _ & Hto).
  rewrite (recalculado_unico p p' p'' Hr Hr'). exact (Hto Ht).
Qed.

Lemma torres_del_edificio_witness : torres_de edificio_2000.
Proof.
  apply (torres_del_edificio edificio_2000 edificio_2000).
  - unfold datos_acotados.
    repeat split; try (vm_compute; reflexivity); vm_compute; discriminate.
  - reflexivity.
  - vm_compute. reflexivity.
Defined.

(** A part of the lot and what is left of it. *)
Lemma parte_del_lote (l : float) (t : string) :
  es_cantidad l = true ->
  let a := (l * (porc_de_tamano t / 100))%float in
  ((0 <=? a) && (a <=? l) && (0 <=? l - a) && (l - a <=? l))%float = true.
Proof.
  intros Hl a. apply Cotas.finito_bool in Hl.
  pose proof (porc_de_tamano_entre t) as Hq.
  destruct (Cotas.cota_parte l _ _ Hl Hq) as [Fa Ha]. fold a in Fa, Ha.
  destruct (Cotas.cota_sub l a Hl Fa Ha) as [Fu Hu].
  rewrite !andb_true_iff. repeat split.
  - apply Cotas.finito_bool in Fa. rewrite andb_true_iff in Fa. tauto.
  - apply (Cotas.leb_finitos a l Fa Hl). exact Ha.
  - apply Cotas.finito_bool in Fu. rewrite andb_true_iff in Fu. tauto.
  - apply (Cotas.leb_finitos _ l Fu Hl). exact Hu.
Qed.

Definition dentro_del_lote (p p' : Proyecto) : Prop :=
  exists a u,
    area_construida p' = Some a /\ area_no_construida p' = Some u /\
    ((0 <=? a) && (a <=? area_lote p) && (0 <=? u) && (u <=? area_lote p))%float = true.

(** The built and the unbuilt area lie between 0 and the area of the lot,
    whatever the lot, as long as its area is finite and not negative. *)
Theorem areas_dentro_del_lote (p p' : Proyecto) :
  es_cantidad (area_lote p) = true ->
  porc_construccion p = porc_de_tamano (tamano p) ->
  recalculado p p' -> dentro_del_lote p p'.
Proof.
  intros Hl Hq H. unfold dentro_del_lote. ejecuta H.
  all: match goal with
       | H : Py.truediv (porc_construccion _) 100 = inr _ |- _ =>
           apply truediv_inr in H; destruct H as [-> _]; rewrite Hq in *
       end.
  all: do 2 eexists; do 2 (split; [reflexivity | ]).
  all: exact (parte_del_lote (area_lote p) (tamano p) Hl).
Qed.

Lemma areas_dentro_del_lote_witness : dentro_del_lote proyecto_chica_123 proyecto_chica_123.
Proof.
  apply areas_dentro_del_lote; vm_compute; reflexivity.
Defined.

(** ** [Proyecto.calcular_derivada_valor_por_vivienda] *)

(** The derivative of the value of a unit in the number of units; [None] is
    the early return of the last branch. *)
Definition calcular_derivada_valor_por_vivienda : M (option float) :=
  tipo_ <- field tipo ;;
  if String.eqb tipo_ "casas" then
    let beta := 50000.0%float in
    m <- attr area_min_vivienda ;;
    ret (Some (- beta * m)%float)
  else if String.eqb tipo_ "edificio" then
    let beta := 80000.0%float in
    m <- attr area_min_vivienda ;;
    ret (Some (- beta * m)%float)
  else ret None.

(** [n * k] is not negative when [n] is not. *)
Lemma int_mul_no_negativo (n : Z) (k x : float) mk ek :
  0 <= n -> Prim2SF k = S754_finite false mk ek ->
  Py.int_mul n k = inr x -> (0 <=? x)%float = true.
Proof.
  intros Hn Ek. unfold Py.int_mul.
  destruct (Py.float_of_int n) as [e | y] eqn:Ey; [discriminate | ].
  intros [= <-].
  exact (B64.mul_no_negativo y k mk ek (float_of_int_no_negativo n y Hn Ey) Ek).
Qed.

Definition derivada_de (p p' : Proyecto) : Prop :=
  exists r,
    calcular_derivada_valor_por_vivienda p' = (p', inr r) /\
    (es_vivienda p -> exists d, r = Some d /\ (d <? 0)%float = true) /\
    (~ es_vivienda p -> r = None).

(** After a recomputation the derivative of the value of a unit is a
    negative float for houses and buildings and [None] for any other type;
    the method raises nothing and leaves the object as it is. *)
Theorem derivada_negativa (p p' : Proyecto) :
  0 <= habitaciones p -> recalculado p p' -> derivada_de p p'.
Proof.
  intros Hh H. unfold derivada_de, es_vivienda. ejecuta H.
  all: repeat match goal with
         | H : String.eqb _ _ = true |- _ => apply String.eqb_eq in H
         end.
  all: unfold calcular_derivada_valor_por_vivienda, bind, field, attr, ret;
       proj_simpl.
  all: repeat match goal with
         | H : tipo _ = _ |- _ => rewrite H
         | H : String.eqb (tipo _) _ = false |- _ => rewrite H
         end; cbn [String.eqb Ascii.eqb Bool.eqb].
  all: eexists; split; [reflexivity | ].
  all: repeat match goal with
         | H : String.eqb _ _ = false |- _ => apply String.eqb_neq in H
         end.
  all: split; [ intros Hv | intros Ht ].
  all: try solve [reflexivity].
  all: try solve [exfalso; apply Ht; auto].
  all: try solve [destruct Hv; congruence].
  all: eexists; split; [reflexivity | ].
  all: eapply Cotas.producto_negativo; [cota | Cotas.zl | ].
  all: lazymatch goal with
       | |- Cotas.desde_1 (Prim2SF (_ + _)) =>
           eapply Cotas.suma_desde_1; [ | cota | lia];
           eapply int_mul_no_negativo; [exact Hh | | eassumption];
           vm_compute; reflexivity
       | |- _ => eapply Cotas.entre_desde_1; [cota | lia]
       end.
Qed.

Lemma derivada_negativa_witness : derivada_de edificio_2000 edificio_2000.
Proof.
  apply derivada_negativa; [vm_compute; discriminate | vm_compute; reflexivity].
Defined.

Definition costo_por_estrato (p p' : Proyecto) : Prop :=
  exists c,
    costo_construccion_m2 p' = Some c /\
    (estrato p = 3 -> c = 2050000%float) /\
    (estrato p = 4 -> c = 2550000%float) /\
    (estrato p = 5 -> c = 3200000%float) /\
    (estrato p < 3 \/ 5 < estrato p -> c = 4050000%float).

(** The construction cost per m2 is the middle of the range of the stratum
    for strata 3, 4 and 5; every other stratum, 1 and 2 as well as 6 and
    above, has the cost of the highest range. *)
Theorem costo_segun_estrato (p p' : Proyecto) :
  recalculado p p' -> costo_por_estrato p p'.
Proof.
  intro H. unfold costo_por_estrato. ejecuta H.
  all: eexists; split; [reflexivity | ].
  all: match goal with
       | E : (if _ =? 3 then _ else _) = inr _ |- _ =>
           destruct (Z.eqb_spec (estrato p) 3);
           [ | destruct (Z.eqb_spec (estrato p) 4);
               [ | destruct (Z.eqb_spec (estrato p) 5) ] ];
           vm_compute in E; injection E as <-
       end.
  all: repeat split; intros; first [reflexivity | lia].
Qed.

Lemma costo_segun_estrato_witness : costo_por_estrato edificio_2000 edificio_2000.
Proof. apply costo_segun_estrato. vm_compute. reflexivity. Defined.

(** ** The class [BaseDeDatos]

    The projects are kept in a [dict] from the id to the project, and the
    dict is written to a file after every change. *)

(** A Python [dict] with [str] keys: its items in insertion order, no key
    twice. *)
Module Dict.

Definition t (V : Type) : Type := list (string * V).

(** [d.get(key)]. *)
Fixpoint get {V : Type} (d : t V) (key : string) : option V :=
  match d with
  | [] => None
  | (k, v) :: d' => if String.eqb k key then Some v else get d' key
  end.

(** [key in d]. *)
Definition contains {V : Type} (d : t V) (key : string) : bool :=
  match get d key with
  | Some _ => true
  | None => false
  end.

(** [d[key] = value]: a key of the dict keeps its place, a new key goes to
    the end. *)
Fixpoint set {V : Type} (d : t V) (key : string) (value : V) : t V :=
  match d with
  | [] => [(key, value)]
  | (k, v) :: d' =>
      if String.eqb k key then (k, value) :: d' else (k, v) :: set d' key value
  end.

(** [del d[key]], for a key of the dict. *)
Fixpoint del {V : Type} (d : t V) (key : string) : t V :=
  match d with
  | [] => []
  | (k, v) :: d' => if String.eqb k key then d' else (k, v) :: del d' key
  end.

(** [list(d.values())]. *)
Definition values {V : Type} (d : t V) : list V := map snd d.

Definition keys {V : Type} (d : t V) : list string := map fst d.

End Dict.

(** What a file holds: a pickled dict of projects, or anything else, on
    which [pickle.load] raises. *)
Inductive Fichero : Type :=
| Pickle (d : Dict.t Proyecto)
| Texto (s : string).

(** The files, by path. *)
Definition Disco : Type := string -> option Fichero.

(** [open(ruta, "w")] and what is written, up to the [close]. *)
Definition escribir (ruta : string) (f : Fichero) (disco : Disco) : Disco :=
  fun r => if String.eqb r ruta then Some f else disco r.

Module BaseDeDatos.

Record t : Type := mk { archivo : string; proyectos : Dict.t Proyecto }.

Definition _cargar (archivo : string) (disco : Disco) : Dict.t Proyecto :=
  match disco archivo with
  | Some (Pickle d) => d
  | Some (Texto _) => []
  | None => []
  end.

Definition __init__ (archivo : string) (disco : Disco) : t :=
  mk archivo (_cargar archivo disco).

Definition _guardar (self : t) (disco : Disco) : Disco :=
  escribir (archivo self) (Pickle (proyectos self)) disco.

Definition agregar (self : t) (proyecto : Proyecto) (disco : Disco) : t * Disco :=
  let self' := mk (archivo self) (Dict.set (proyectos self) (pid proyecto) proyecto) in
  (self', _guardar self' disco).

Definition eliminar (self : t) (pid : string) (disco : Disco) : t * Disco :=
  if Dict.contains (proyectos self) pid then
    let self' := mk (archivo self) (Dict.del (proyectos self) pid) in
    (self', _guardar self' disco)
  else (self, disco).

Definition obtener (self : t) (pid : string) : option Proyecto :=
  Dict.get (proyectos self) pid.

Definition listar (self : t) : list Proyecto := Dict.values (proyectos self).

End BaseDeDatos.

(** The default of the parameter [archivo]. *)
Definition ARCHIVO_POR_DEFECTO : string := "ProyectosGuardados.pkl".

(** *** Dicts *)

Lemma dict_get_set {V : Type} (d : Dict.t V) (k : string) (v : V) (k' : string) :
  Dict.get (Dict.set d k v) k' = if String.eqb k k' then Some v else Dict.get d k'.
Proof.
  induction d as [| [k0 v0] d IH]; cbn.
  - reflexivity.
  - destruct (String.eqb_spec k0 k) as [-> | Hne]; cbn.
    + destruct (String.eqb k k'); reflexivity.
    + rewrite IH. destruct (String.eqb_spec k0 k') as [-> | Hne'].
      * destruct (String.eqb_spec k k') as [-> | _]; [contradiction | reflexivity].
      * reflexivity.
Qed.

Lemma dict_get_none {V : Type} (d : Dict.t V) (k : string) :
  Dict.get d k = None <-> ~ In k (Dict.keys d).
Proof.
  induction d as [| [k0 v0] d IH]; cbn.
  - tauto.
  - destruct (String.eqb_spec k0 k) as [-> | Hne].
    + split; [discriminate | intro H; exfalso; apply H; left; reflexivity].
    + rewrite IH. split; [intros H [E | HI]; [contradiction | tauto] | tauto].
Qed.

Lemma dict_keys_del {V : Type} (d : Dict.t V) (k k' : string) :
  In k' (Dict.keys (Dict.del d k)) -> In k' (Dict.keys d).
Proof.
  induction d as [| [k0 v0] d IH]; cbn; [tauto | ].
  destruct (String.eqb k0 k); cbn; tauto.
Qed.

Lemma dict_get_del {V : Type} (d : Dict.t V) (k k' : string) :
  NoDup (Dict.keys d) ->
  Dict.get (Dict.del d k) k' = if String.eqb k k' then None else Dict.get d k'.
Proof.
  induction d as [| [k0 v0] d IH]; cbn; intro Hnd.
  - destruct (String.eqb k k'); reflexivity.
  - inversion Hnd as [| ? ? Hin Hnd']; subst.
    destruct (String.eqb_spec k0 k) as [E | Hne]; cbn.
    + subst k0. destruct (String.eqb_spec k k') as [E | Hne'].
      * subst k'. apply dict_get_none. exact Hin.
      * reflexivity.
    + rewrite (IH Hnd'). destruct (String.eqb_spec k0 k') as [E | Hne'].
      * subst k'. destruct (String.eqb_spec k k0) as [E | _]; [ | reflexivity].
        subst k0. contradiction.
      * reflexivity.
Qed.

Lemma dict_keys_set {V : Type} (d : Dict.t V) (k : string) (v : V) :
  Dict.keys (Dict.set d k v) =
  if Dict.contains d k then Dict.keys d else (Dict.keys d ++ [k])%list.
Proof.
  unfold Dict.contains, Dict.keys.
  induction d as [| [k0 v0] d IH]; cbn.
  - reflexivity.
  - destruct (String.eqb_spec k0 k) as [-> | Hne]; cbn.
    + reflexivity.
    + rewrite IH. destruct (Dict.get d k); reflexivity.
Qed.

Lemma dict_nodup_set {V : Type} (d : Dict.t V) (k : string) (v : V) :
  NoDup (Dict.keys d) -> NoDup (Dict.keys (Dict.set d k v)).
Proof.
  intro H. rewrite dict_keys_set. unfold Dict.contains.
  destruct (Dict.get d k) eqn:E; [exact H | ].
  apply dict_get_none in E.
  apply NoDup_app; [exact H | repeat constructor; intros [] | ].
  intros x Hx [<- | []]. contradiction.
Qed.

Lemma dict_nodup_del {V : Type} (d : Dict.t V) (k : string) :
  NoDup (Dict.keys d) -> NoDup (Dict.keys (Dict.del d k)).
Proof.
  induction d as [| [k0 v0] d IH]; cbn; intro H; [exact H | ].
  inversion H as [| ? ? Hin Hnd]; subst.
  destruct (String.eqb k0 k); cbn; [exact Hnd | ].
  constructor; [ | exact (IH Hnd)].
  intro Hc. apply Hin. exact (dict_keys_del d k k0 Hc).
Qed.

(** *** Looking up, adding and removing *)

(** After [agregar] the project is found under its id, and every other id
    gives what it gave before. *)
Theorem obtener_tras_agregar (bd : BaseDeDatos.t) (p : Proyecto) (disco : Disco)
    (k : string) :
  BaseDeDatos.obtener (fst (BaseDeDatos.agregar bd p disco)) k =
  if String.eqb (pid p) k then Some p else BaseDeDatos.obtener bd k.
Proof.
  unfold BaseDeDatos.obtener, BaseDeDatos.agregar. cbn [fst BaseDeDatos.proyectos].
  apply dict_get_set.
Qed.

(** [eliminar] of an id that is not in the database changes nothing and
    writes nothing; of an id that is in it, it removes that project and no
    other. *)
Theorem obtener_tras_eliminar (bd : BaseDeDatos.t) (disco : Disco) (k : string) :
  NoDup (Dict.keys (BaseDeDatos.proyectos bd)) ->
  (BaseDeDatos.obtener bd k = None -> BaseDeDatos.eliminar bd k disco = (bd, disco)) /\
  forall k',
    BaseDeDatos.obtener (fst (BaseDeDatos.eliminar bd k disco)) k' =
    if String.eqb k k' then None else BaseDeDatos.obtener bd k'.
Proof.
  intro Hnd. unfold BaseDeDatos.obtener, BaseDeDatos.eliminar, Dict.contains.
  split.
  - intros ->. reflexivity.
  - intro k'. destruct (Dict.get (BaseDeDatos.proyectos bd) k) eqn:E;
      cbn [fst BaseDeDatos.proyectos].
    + apply dict_get_del. exact Hnd.
    + destruct (String.eqb_spec k k') as [<- | _]; [exact E | reflexivity].
Qed.

Definition bd_casas : BaseDeDatos.t :=
  fst (BaseDeDatos.agregar (BaseDeDatos.__init__ ARCHIVO_POR_DEFECTO (fun _ => None))
         proyecto_casas_100 (fun _ => None)).

Lemma obtener_tras_eliminar_witness :
  BaseDeDatos.obtener (fst (BaseDeDatos.eliminar bd_casas "D" (fun _ => None))) "D" = None.
Proof.
  refine (proj2 (obtener_tras_eliminar bd_casas (fun _ => None) "D" _) "D").
  vm_compute. repeat constructor. intros [].
Defined.

(** *** What is on disk *)

Inductive Operacion : Type :=
| Agregar (proyecto : Proyecto)
| Eliminar (pid : string).

Definition aplicar (s : BaseDeDatos.t * Disco) (op : Operacion) : BaseDeDatos.t * Disco :=
  match op with
  | Agregar p => BaseDeDatos.agregar (fst s) p (snd s)
  | Eliminar k => BaseDeDatos.eliminar (fst s) k (snd s)
  end.

(** A database opened on [archivo] and a sequence of changes made to it. *)
Definition sesion (archivo : string) (disco : Disco) (ops : list Operacion)
  : BaseDeDatos.t * Disco :=
  fold_left aplicar ops (BaseDeDatos.__init__ archivo disco, disco).






(** *** Listing *)

Lemma dict_values_set_nuevo {V : Type} (d : Dict.t V) (k : string) (v : V) :
  Dict.get d k = None -> Dict.values (Dict.set d k v) = (Dict.values d ++ [v])%list.
Proof.
  unfold Dict.values.
  induction d as [| [k0 v0] d IH]; cbn; intro H.
  - reflexivity.
  - destruct (String.eqb k0 k); [discriminate | ]. cbn. rewrite (IH H). reflexivity.
Qed.

(** [agregar] of a project with a new id puts it at the end of the list;
    with an id of the database, the ids keep their number and their order. *)
Theorem listar_tras_agregar (bd : BaseDeDatos.t) (p : Proyecto) (disco : Disco) :
  let bd' := fst (BaseDeDatos.agregar bd p disco) in
  (BaseDeDatos.obtener bd (pid p) = None ->
   BaseDeDatos.listar bd' = (BaseDeDatos.listar bd ++ [p])%list) /\
  (BaseDeDatos.obtener bd (pid p) <> None ->
   Dict.keys (BaseDeDatos.proyectos bd') = Dict.keys (BaseDeDatos.proyectos bd) /\
   length (BaseDeDatos.listar bd') = length (BaseDeDatos.listar bd)).
Proof.
  unfold BaseDeDatos.listar, BaseDeDatos.obtener, BaseDeDatos.agregar.
  cbn [fst BaseDeDatos.proyectos]. split.
  - apply dict_values_set_nuevo.
  - intro H.
    assert (Dict.keys (Dict.set (BaseDeDatos.proyectos bd) (pid p) p) =
            Dict.keys (BaseDeDatos.proyectos bd)) as E.
    { rewrite dict_keys_set. unfold Dict.contains.
      destruct (Dict.get (BaseDeDatos.proyectos bd) (pid p)); [reflexivity | contradiction]. }
    split; [exact E | ].
    unfold Dict.values. rewrite !length_map.
    unfold Dict.keys in E. apply (f_equal (@length string)) in E.
    rewrite !length_map in E. exact E.
Qed.

(** Every project is stored under its own id. *)
Definition bien_formado (d : Dict.t Proyecto) : Prop :=
  NoDup (Dict.keys d) /\ Forall (fun kp => pid (snd kp) = fst kp) d.

Lemma bien_formado_ids (d : Dict.t Proyecto) :
  Forall (fun kp => pid (snd kp) = fst kp) d -> map pid (Dict.values d) = Dict.keys d.
Proof.
  unfold Dict.values, Dict.keys. induction 1 as [| [k p] d H _ IH]; cbn in *.
  - reflexivity.
  - rewrite H, IH. reflexivity.
Qed.

Lemma bien_formado_set (d : Dict.t Proyecto) (p : Proyecto) :
  bien_formado d -> bien_formado (Dict.set d (pid p) p).
Proof.
  intros [Hn Hf]. split; [apply dict_nodup_set; exact Hn | ].
  clear Hn. induction Hf as [| [k0 p0] d H Hf IH]; cbn.
  - repeat constructor.
  - destruct (String.eqb_spec k0 (pid p)) as [E | _].
    + constructor; [cbn; symmetry; exact E | exact Hf].
    + constructor; [exact H | exact IH].
Qed.

Lemma bien_formado_del (d : Dict.t Proyecto) (k : string) :
  bien_formado d -> bien_formado (Dict.del d k).
Proof.
  intros [Hn Hf]. split; [apply dict_nodup_del; exact Hn | ].
  clear Hn. induction Hf as [| [k0 p0] d H Hf IH]; cbn.
  - constructor.
  - destruct (String.eqb k0 k); [exact Hf | constructor; [exact H | exact IH]].
Qed.

Lemma aplicar_bien_formado s op :
  bien_formado (BaseDeDatos.proyectos (fst s)) ->
  bien_formado (BaseDeDatos.proyectos (fst (aplicar s op))).
Proof.
  destruct s as [bd d], op as [p | k]; cbn [aplicar fst snd]; intro H.
  - apply bien_formado_set. exact H.
  - unfold BaseDeDatos.eliminar. destruct (Dict.contains _ _); cbn [fst].
    + apply bien_formado_del. exact H.
    + exact H.
Qed.

(** A database that starts from no file, or from a file in which every
    project is stored under its own id, never lists two projects with the
    same id. *)
Theorem listar_sin_repetidos (archivo : string) (disco : Disco) (ops : list Operacion) :
  match disco archivo with
  | Some (Pickle d) => bien_formado d
  | _ => True
  end ->
  NoDup (map pid (BaseDeDatos.listar (fst (sesion archivo disco ops)))).
Proof.
  intro H0. unfold sesion.
  assert (bien_formado (BaseDeDatos.proyectos
                          (fst (BaseDeDatos.__init__ archivo disco, disco)))) as H.
  { cbn. unfold BaseDeDatos._cargar.
    destruct (disco archivo) as [[d | s] | ]; [exact H0 | | ];
      split; constructor. }
  clear H0. revert H.
  generalize (BaseDeDatos.__init__ archivo disco, disco).
  induction ops as [| op ops IH]; intros s H; cbn [fold_left].
  - unfold BaseDeDatos.listar. destruct H as [Hn Hf].
    rewrite (bien_formado_ids _ Hf). exact Hn.
  - apply IH. apply aplicar_bien_formado. exact H.
Qed.

Lemma listar_sin_repetidos_witness :
  NoDup (map pid (BaseDeDatos.listar
                    (fst (sesion ARCHIVO_POR_DEFECTO (fun _ => None)
                            [Agregar proyecto_casas_100; Agregar edificio_2000;
                             Agregar proyecto_casas_100; Eliminar "E1"])))).
Proof. apply listar_sin_repetidos. exact I. Defined.
(** ** Reading from the console

    The lines the user will type are a list; [input] takes the first one and
    raises [EOFError] when there is none.  What the program prints is kept, in
    order.  The functions of the library that read a text ([str.strip],
    [str.lower], [int], [float] and [datetime.strptime] with the format
    [%Y-%m-%d]) are parameters: [None] stands for the [ValueError] of a
    conversion. *)

Inductive ErrorConsola : Type := EOFError.

(** [str(n)] for an [int]. *)
Definition str_int (n : Z) : string :=
  if n <? 0 then "-" ++ Format.decimal (- n) else Format.decimal n.

(** [str(x)] for an [int] or [None]. *)
Definition str_opcional (x : option Z) : string :=
  match x with
  | Some n => str_int n
  | None => "None"
  end.

(** A line feed. *)
Definition nl : string := String (Ascii.ascii_of_nat 10) EmptyString.

(** [s.replace(",", ".")]. *)
Fixpoint replace_coma (s : string) : string :=
  match s with
  | EmptyString => EmptyString
  | String c s' => String (if Ascii.eqb c "," then "."%char else c) (replace_coma s')
  end.

(** [sys.stdout.write(texto)] and [print(texto)]. *)
Definition write (salida : list string) (texto : string) : list string :=
  (salida ++ [texto])%list.

Definition print (salida : list string) (texto : string) : list string :=
  write salida (texto ++ nl).

Section Lectura.

Variable strip : string -> string.
Variable lower : string -> string.
Variable py_int : string -> option Z.
Variable py_float : string -> option float.
Variable strptime_date : string -> option date.

(** The result of a reader: the lines left, what has been printed, and the
    value or the exception. *)
Definition Leido (A : Type) : Type := list string * list string * (ErrorConsola + A).

Fixpoint leer_fecha (prompt : string) (fecha_inicio : option date)
    (entrada salida : list string) {struct entrada} : Leido (option date) :=
  match entrada with
  | [] => ([], write salida prompt, inl EOFError)
  | linea :: entrada =>
      let salida := write salida prompt in
      let s := strip linea in
      if String.eqb s "" then (entrada, salida, inr None)
      else
        match strptime_date s with
        | Some fecha =>
            if match fecha_inicio with
               | Some inicio => fecha <? inicio
               | None => false
               end
            then
              let salida :=
                print salida
                  "  La fecha de finalizacion no puede ser anterior a la fecha de inicio." in
              match entrada with
              | [] =>
                  (* [input] raises inside the [try]: the handler runs *)
                  let salida := write salida "  Reintentar? (s/n): " in
                  let salida := print salida "  Fecha invalida. Use formato YYYY-MM-DD." in
                  ([], write salida "  Reintentar? (s/n): ", inl EOFError)
              | r :: entrada =>
                  let salida := write salida "  Reintentar? (s/n): " in
                  if String.eqb (lower (strip r)) "s"
                  then leer_fecha prompt fecha_inicio entrada salida
                  else (entrada, salida, inr None)
              end
            else (entrada, salida, inr (Some fecha))
        | None =>
            let salida := print salida "  Fecha invalida. Use formato YYYY-MM-DD." in
            match entrada with
            | [] => ([], write salida "  Reintentar? (s/n): ", inl EOFError)
            | r :: entrada =>
                let salida := write salida "  Reintentar? (s/n): " in
                if String.eqb (lower (strip r)) "s"
                then leer_fecha prompt fecha_inicio entrada salida
                else (entrada, salida, inr None)
            end
        end
  end.

Fixpoint leer_float (prompt : string) (entrada salida : list string)
    {struct entrada} : Leido (option float) :=
  match entrada with
  | [] => ([], write salida prompt, inl EOFError)
  | linea :: entrada =>
      let salida := write salida prompt in
      let s := replace_coma (strip linea) in
      if String.eqb s "" then (entrada, salida, inr None)
      else
        match py_float s with
        | Some x => (entrada, salida, inr (Some x))
        | None =>
            let salida := print salida "  Entrada invalida." in
            match entrada with
            | [] => ([], write salida "  Reintentar? (s/n): ", inl EOFError)
            | r :: entrada =>
                let salida := write salida "  Reintentar? (s/n): " in
                if String.eqb (lower (strip r)) "s"
                then leer_float prompt entrada salida
                else (entrada, salida, inr None)
            end
        end
  end.

Fixpoint leer_int (prompt : string) (minimo maximo : option Z)
    (entrada salida : list string) {struct entrada} : Leido (option Z) :=
  match entrada with
  | [] => ([], write salida prompt, inl EOFError)
  | linea :: entrada =>
      let salida := write salida prompt in
      let s := strip linea in
      if String.eqb s "" then (entrada, salida, inr None)
      else
        match py_int s with
        | Some v =>
            if match minimo with Some m => v <? m | None => false end then
              leer_int prompt minimo maximo entrada
                (print salida ("  Debe ser >= " ++ str_opcional minimo ++ "."))
            else if match maximo with Some m => v >? m | None => false end then
              leer_int prompt minimo maximo entrada
                (print salida ("  Debe ser <= " ++ str_opcional maximo ++ "."))
            else (entrada, salida, inr (Some v))
        | None =>
            let salida := print salida "  Entrada invalida." in
            match entrada with
            | [] => ([], write salida "  Reintentar? (s/n): ", inl EOFError)
            | r :: entrada =>
                let salida := write salida "  Reintentar? (s/n): " in
                if String.eqb (lower (strip r)) "s"
                then leer_int prompt minimo maximo entrada salida
                else (entrada, salida, inr None)
            end
        end
  end.

End Lectura.

(** *** What the readers return *)

Section LecturaProps.

Variable strip : string -> string.
Variable lower : string -> string.
Variable py_int : string -> option Z.
Variable py_float : string -> option float.
Variable strptime_date : string -> option date.

(** [resto] is what is left of [entrada] once at least one line is taken. *)
Definition consumida (entrada resto : list string) : Prop :=
  exists k, (0 < k <= length entrada)%nat /\ resto = skipn k entrada.

Lemma consumida_una (l : string) (entrada : list string) : consumida (l :: entrada) entrada.
Proof. exists 1%nat. cbn. split; [lia | reflexivity]. Qed.

Lemma consumida_mas (l : string) (entrada resto : list string) :
  consumida entrada resto -> consumida (l :: entrada) resto.
Proof.
  intros (k & Hk & ->). exists (S k). cbn. split; [lia | reflexivity].
Qed.

Lemma leer_int_ind (P : list string -> Prop) :
  P [] -> (forall l, P [] -> P [l]) ->
  (forall l r entrada, P entrada -> P (r :: entrada) -> P (l :: r :: entrada)) ->
  forall entrada, P entrada.
Proof.
  intros H0 H1 H2.
  assert (forall entrada, P entrada /\ forall l, P (l :: entrada)) as H.
  { induction entrada as [| r entrada [IH1 IH2]].
    - split; [exact H0 | intro l; apply H1; exact H0].
    - split; [apply IH2 | intro l; apply H2; [exact IH1 | apply IH2]]. }
  intro entrada. apply H.
Qed.

(** An integer [leer_int] returns is within the bounds it was given, and it
    is what [int] makes of one of the lines typed. *)
Theorem leer_int_en_rango (prompt : string) (minimo maximo : option Z)
    (entrada salida entrada' salida' : list string) (v : Z) :
  leer_int strip lower py_int prompt minimo maximo entrada salida =
    (entrada', salida', inr (Some v)) ->
  (forall m, minimo = Some m -> m <= v) /\
  (forall m, maximo = Some m -> v <= m) /\
  exists linea, In linea entrada /\ py_int (strip linea) = Some v.
Proof.
  revert salida. induction entrada as [| l | l r entrada IH1 IH2] using leer_int_ind;
    intro salida; cbn [leer_int].
  - discriminate.
  - destruct (String.eqb (strip l) ""); [discriminate | ].
    destruct (py_int (strip l)) as [w | ] eqn:Ew; [ | discriminate].
    destruct (match minimo with Some m => w <? m | None => false end) eqn:Emin;
      [discriminate | ].
    destruct (match maximo with Some m => w >? m | None => false end) eqn:Emax;
      [discriminate | ].
    intros [= <- <- <-].
    split; [intros m ->; apply Z.ltb_ge; exact Emin | ].
    split; [intros m ->; rewrite Z.gtb_ltb in Emax; apply Z.ltb_ge; exact Emax | ].
    exists l. split; [left; reflexivity | exact Ew].
  - destruct (String.eqb (strip l) ""); [discriminate | ].
    destruct (py_int (strip l)) as [w | ] eqn:Ew.
    + destruct (match minimo with Some m => w <? m | None => false end) eqn:Emin.
      { intro H. destruct (IH2 _ H) as (H1 & H2 & linea & Hin & Hl).
        split; [exact H1 | ]. split; [exact H2 | ]. exists linea. split; [right; exact Hin | exact Hl]. }
      destruct (match maximo with Some m => w >? m | None => false end) eqn:Emax.
      { intro H. destruct (IH2 _ H) as (H1 & H2 & linea & Hin & Hl).
        split; [exact H1 | ]. split; [exact H2 | ]. exists linea. split; [right; exact Hin | exact Hl]. }
      intros [= <- <- <-].
      split; [intros m ->; apply Z.ltb_ge; exact Emin | ].
      split; [intros m ->; rewrite Z.gtb_ltb in Emax; apply Z.ltb_ge; exact Emax | ].
      exists l. split; [left; reflexivity | exact Ew].
    + destruct (String.eqb (lower (strip r)) "s"); [ | discriminate].
      intro H. destruct (IH1 _ H) as (H1 & H2 & linea & Hin & Hl).
      split; [exact H1 | ]. split; [exact H2 | ].
      exists linea. split; [right; right; exact Hin | exact Hl].
Qed.

(** A date [leer_fecha] returns is not before the start date it was given. *)
Theorem leer_fecha_no_anterior (prompt : string) (inicio : date)
    (entrada salida entrada' salida' : list string) (fecha : date) :
  leer_fecha strip lower strptime_date prompt (Some inicio) entrada salida =
    (entrada', salida', inr (Some fecha)) ->
  inicio <= fecha.
Proof.
  revert salida. induction entrada as [| l | l r entrada IH1 IH2] using leer_int_ind;
    intro salida; cbn [leer_fecha].
  - discriminate.
  - destruct (String.eqb (strip l) ""); [discriminate | ].
    destruct (strptime_date (strip l)) as [f | ]; [ | discriminate].
    destruct (Z.ltb_spec f inicio); [discriminate | ].
    intros [= <- <- <-]. assumption.
  - destruct (String.eqb (strip l) ""); [discriminate | ].
    destruct (strptime_date (strip l)) as [f | ].
    + destruct (Z.ltb_spec f inicio).
      * destruct (String.eqb (lower (strip r)) "s"); [apply IH1 | discriminate].
      * intros [= <- <- <-]. assumption.
    + destruct (String.eqb (lower (strip r)) "s"); [apply IH1 | discriminate].
Qed.

(** A reader that has lines to read takes at least one; the exception is
    raised only when the lines run out; what was printed stays printed. *)
Definition avanza {A : Type} (entrada salida : list string) (r : Leido A) : Prop :=
  let '(resto, salida', x) := r in
  (entrada = [] -> x = inl EOFError) /\
  (entrada <> [] -> consumida entrada resto) /\
  (x = inl EOFError -> resto = []) /\
  exists nuevo, salida' = (salida ++ nuevo)%list.

Lemma avanza_fin {A : Type} (salida : list string) (nuevo : list string) :
  @avanza A [] salida ([], (salida ++ nuevo)%list, inl EOFError).
Proof.
  unfold avanza. split; [reflexivity | ]. split; [intro H; contradiction | ].
  split; [reflexivity | ]. exists nuevo. reflexivity.
Qed.

Lemma avanza_valor {A : Type} (entrada resto salida nuevo : list string) (a : A) :
  consumida entrada resto ->
  avanza entrada salida (resto, (salida ++ nuevo)%list, inr a).
Proof.
  intro H. unfold avanza. split; [intros ->; destruct H as (k & Hk & _); cbn in Hk; lia | ].
  split; [intros _; exact H | ]. split; [discriminate | ]. exists nuevo. reflexivity.
Qed.

Lemma avanza_eof {A : Type} (entrada salida nuevo : list string) :
  entrada <> [] ->
  @avanza A entrada salida ([], (salida ++ nuevo)%list, inl EOFError).
Proof.
  intro H. unfold avanza. split; [intro; contradiction | ].
  split.
  - intros _. exists (length entrada). split.
    + destruct entrada; [contradiction | cbn; lia].
    + rewrite skipn_all. reflexivity.
  - split; [reflexivity | ]. exists nuevo. reflexivity.
Qed.

Lemma avanza_sigue {A : Type} (previas entrada salida salida2 : list string)
    (r : Leido A) :
  previas <> [] ->
  (exists nuevo, salida2 = (salida ++ nuevo)%list) ->
  avanza entrada salida2 r ->
  avanza (previas ++ entrada)%list salida r.
Proof.
  intros Hp (nuevo & ->). destruct r as [[resto salida'] x]. unfold avanza.
  intros (H0 & H1 & H2 & (n' & Hn)).
  split; [intro E; apply app_eq_nil in E; destruct E; contradiction | ].
  split.
  - intros _. destruct entrada as [| l entrada].
    + specialize (H0 eq_refl). specialize (H2 H0). subst resto.
      exists (length (previas ++ []))%list. split.
      * destruct previas; [contradiction | cbn; lia].
      * rewrite skipn_all. reflexivity.
    + destruct (H1 ltac:(discriminate)) as (k & Hk & ->).
      exists (length previas + k)%nat. split.
      * rewrite length_app. lia.
      * rewrite skipn_app.
        replace (length previas + k - length previas)%nat with k by lia.
        rewrite (skipn_all2 previas) by lia. reflexivity.
  - split; [exact H2 | ]. exists (nuevo ++ n')%list. rewrite Hn, app_assoc. reflexivity.
Qed.

Ltac sigue previas resto IH :=
  eapply (avanza_sigue previas resto); [discriminate | | apply IH];
  unfold print, write; rewrite <- ?app_assoc; eexists; reflexivity.

Ltac salidas :=
  unfold print, write; rewrite <- ?app_assoc.

Lemma leer_int_avanza (prompt : string) (minimo maximo : option Z)
    (entrada salida : list string) :
  avanza entrada salida (leer_int strip lower py_int prompt minimo maximo entrada salida).
Proof.
  revert salida. induction entrada as [| l | l r entrada IH1 IH2] using leer_int_ind;
    intro salida; cbn [leer_int].
  - apply (avanza_fin salida [prompt]).
  - destruct (String.eqb (strip l) "");
      [apply (avanza_valor _ _ salida [prompt]); apply consumida_una | ].
    destruct (py_int (strip l)) as [w | ].
    + destruct (match minimo with Some m => w <? m | None => false end).
      { salidas. apply (avanza_eof [l] salida). discriminate. }
      destruct (match maximo with Some m => w >? m | None => false end).
      { salidas. apply (avanza_eof [l] salida). discriminate. }
      apply (avanza_valor _ _ salida [prompt]); apply consumida_una.
    + salidas. apply (avanza_eof [l] salida). discriminate.
  - destruct (String.eqb (strip l) "");
      [apply (avanza_valor _ _ salida [prompt]); apply consumida_una | ].
    destruct (py_int (strip l)) as [w | ].
    + destruct (match minimo with Some m => w <? m | None => false end).
      { sigue [l] (r :: entrada) IH2. }
      destruct (match maximo with Some m => w >? m | None => false end).
      { sigue [l] (r :: entrada) IH2. }
      apply (avanza_valor _ _ salida [prompt]); apply consumida_una.
    + destruct (String.eqb (lower (strip r)) "s").
      * sigue [l; r] entrada IH1.
      * salidas. apply (avanza_valor (l :: r :: entrada) entrada salida).
        apply consumida_mas, consumida_una.
Qed.

Lemma leer_float_avanza (prompt : string) (entrada salida : list string) :
  avanza entrada salida (leer_float strip lower py_float prompt entrada salida).
Proof.
  revert salida. induction entrada as [| l | l r entrada IH1 IH2] using leer_int_ind;
    intro salida; cbn [leer_float].
  - apply (avanza_fin salida [prompt]).
  - destruct (String.eqb (replace_coma (strip l)) "");
      [apply (avanza_valor _ _ salida [prompt]); apply consumida_una | ].
    destruct (py_float (replace_coma (strip l))) as [w | ].
    + apply (avanza_valor _ _ salida [prompt]); apply consumida_una.
    + salidas. apply (avanza_eof [l] salida). discriminate.
  - destruct (String.eqb (replace_coma (strip l)) "");
      [apply (avanza_valor _ _ salida [prompt]); apply consumida_una | ].
    destruct (py_float (replace_coma (strip l))) as [w | ].
    + apply (avanza_valor _ _ salida [prompt]); apply consumida_una.
    + destruct (String.eqb (lower (strip r)) "s").
      * sigue [l; r] entrada IH1.
      * salidas. apply (avanza_valor (l :: r :: entrada) entrada salida).
        apply consumida_mas, consumida_una.
Qed.

Lemma leer_fecha_avanza (prompt : string) (fecha_inicio : option date)
    (entrada salida : list string) :
  avanza entrada salida
    (leer_fecha strip lower strptime_date prompt fecha_inicio entrada salida).
Proof.
  revert salida. induction entrada as [| l | l r entrada IH1 IH2] using leer_int_ind;
    intro salida; cbn [leer_fecha].
  - apply (avanza_fin salida [prompt]).
  - destruct (String.eqb (strip l) "");
      [apply (avanza_valor _ _ salida [prompt]); apply consumida_una | ].
    destruct (strptime_date (strip l)) as [f | ].
    + destruct (match fecha_inicio with Some inicio => f <? inicio | None => false end).
      * salidas. apply (avanza_eof [l] salida). discriminate.
      * apply (avanza_valor _ _ salida [prompt]); apply consumida_una.
    + salidas. apply (avanza_eof [l] salida). discriminate.
  - destruct (String.eqb (strip l) "");
      [apply (avanza_valor _ _ salida [prompt]); apply consumida_una | ].
    destruct (strptime_date (strip l)) as [f | ].
    + destruct (match fecha_inicio with Some inicio => f <? inicio | None => false end).
      * destruct (String.eqb (lower (strip r)) "s").
        -- sigue [l; r] entrada IH1.
        -- salidas. apply (avanza_valor (l :: r :: entrada) entrada salida).
           apply consumida_mas, consumida_una.
      * apply (avanza_valor _ _ salida [prompt]); apply consumida_una.
    + destruct (String.eqb (lower (strip r)) "s").
      * sigue [l; r] entrada IH1.
      * salidas. apply (avanza_valor (l :: r :: entrada) entrada salida).
        apply consumida_mas, consumida_una.
Qed.

(** The three readers stop: each takes at least one of the lines there are,
    raises [EOFError] only when the lines have run out, and adds to what has
    been printed without changing it. *)
Theorem lectores_avanzan (prompt : string) (minimo maximo : option Z)
    (fecha_inicio : option date) (entrada salida : list string) :
  avanza entrada salida (leer_int strip lower py_int prompt minimo maximo entrada salida) /\
  avanza entrada salida (leer_float strip lower py_float prompt entrada salida) /\
  avanza entrada salida
    (leer_fecha strip lower strptime_date prompt fecha_inicio entrada salida).
Proof.
  split; [apply leer_int_avanza | ].
  split; [apply leer_float_avanza | apply leer_fecha_avanza].
Qed.

End LecturaProps.

(** An instance of the parameters: text without blanks, in lower case, and
    numbers in decimal digits. *)
Definition int_decimal (s : string) : option Z :=
  option_map Z.of_int (NilZero.int_of_string s).

Lemma leer_int_en_rango_witness :
  (forall m, Some 1 = Some m -> m <= 3) /\
  (forall m, Some 6 = Some m -> 3 <= m) /\
  exists linea, In linea ["9"; "3"] /\ int_decimal linea = Some 3.
Proof.
  eapply (leer_int_en_rango (fun s => s) (fun s => s) int_decimal
            "Estrato (1-6): " (Some 1) (Some 6) ["9"; "3"] []).
  reflexivity.
Defined.

Lemma leer_fecha_no_anterior_witness : 739000 <= 739365.
Proof.
  eapply (leer_fecha_no_anterior (fun s => s) (fun s => s) int_decimal
            "Fecha estimada de finalizacion (YYYY-MM-DD): " 739000
            ["738000"; "s"; "739365"] []).
  reflexivity.
Defined.

(** ** Receipts *)

(** [format(x, ".0f")]: the integer nearest to the float, ties to even. *)
Definition punto_0f (x : float) : string :=
  match Prim2SF x with
  | S754_nan => "nan"
  | S754_infinity s => if s then "-inf" else "inf"
  | S754_zero s => if s then "-0" else "0"
  | S754_finite s m e =>
      let n :=
        if 0 <=? e then Zpos m * 2 ^ e
        else
          let d := 2 ^ (- e) in
          let q := Zpos m / d in
          let r := Zpos m mod d in
          match 2 * r ?= d with
          | Lt => q
          | Gt => q + 1
          | Eq => if Z.even q then q else q + 1
          end in
      (if s then "-" else "") ++ Format.decimal n
  end.

(** [format(n, ",d")]. *)
Definition coma_d (n : Z) : string :=
  if n <? 0 then "-" ++ Format.miles (- n) else Format.miles n.

(** [sep.join(palabras)]. *)
Fixpoint join (sep : string) (palabras : list string) : string :=
  match palabras with
  | [] => ""
  | [w] => w
  | w :: resto => w ++ sep ++ join sep resto
  end.

(** [os.path.join(a, b)] with the separator [/]. *)
Definition os_path_join (a b : string) : string :=
  match b with
  | String "/" _ => b
  | _ =>
      if String.eqb a "" then b
      else
        match String.get (String.length a - 1) a with
        | Some "/"%char => a ++ b
        | _ => a ++ "/" ++ b
        end
  end.

(** What [generar_recibo] and [mover_a_finalizados] raise: an exception of the
    project, or the [OSError] of a file that cannot be opened or moved. *)
Inductive ErrorRecibo : Type :=
| ErrorProyecto (e : exn)
| OSError.

(** What has been written to the open file, and the exception or the value:
    the text written before an exception is in the file. *)
Module Escritura.

Definition t (A : Type) : Type := string -> string * (exn + A).

Definition ret {A : Type} (a : A) : t A := fun texto => (texto, inr a).

Definition bind {A B : Type} (c : t A) (k : A -> t B) : t B :=
  fun texto =>
    match c texto with
    | (texto', inr a) => k a texto'
    | (texto', inl e) => (texto', inl e)
    end.

(** [f.write(s)]. *)
Definition write (s : string) : t unit := fun texto => (texto ++ s, inr tt).

(** Reading an attribute that [_recalcular] assigns. *)
Definition attr {A : Type} (o : option A) : t A :=
  fun texto =>
    match o with
    | Some v => (texto, inr v)
    | None => (texto, inl AttributeError)
    end.

(** The call of a method that leaves the object as it is. *)
Definition llamar {A : Type} (r : exn + A) : t A := fun texto => (texto, r).

End Escritura.

Declare Scope esc_scope.
Delimit Scope esc_scope with esc.
Notation "x <- c ;; k" := (Escritura.bind c (fun x => k))
  (at level 61, c at next level, right associativity) : esc_scope.
Notation "c ;; k" := (Escritura.bind c (fun _ => k))
  (at level 61, right associativity) : esc_scope.

Section Recibos.

(** [str.capitalize] and [str] of a [datetime.date]. *)
Variable capitalize : string -> string.
Variable str_date : date -> string.

(** The operating system.  [fichero_de ruta] is the file the path names:
    two paths can name one file ("Proyectos/../x.txt" and "x.txt"), and the
    files of a [Disco] are told apart by it.  [abre ruta disco] is whether
    [open(ruta, "w")] succeeds, which it does not when the folder of the path
    does not exist (an id with a [/]), and [reemplaza origen destino disco]
    whether [os.replace(origen, destino)] does.  A file that has been opened
    is written to and closed without error. *)
Variable fichero_de : string -> string.
Variable abre : string -> Disco -> bool.
Variable reemplaza : string -> string -> Disco -> bool.

(** [os.replace(origen, destino)], when it succeeds: nothing changes if the
    two paths name one file. *)
Definition os_replace (origen destino : string) (disco : Disco) : Disco :=
  fun f =>
    if String.eqb f (fichero_de destino) then disco (fichero_de origen)
    else if String.eqb f (fichero_de origen) then None
    else disco f.

(** [os.path.exists(ruta)]. *)
Definition os_path_exists (ruta : string) (disco : Disco) : bool :=
  match disco (fichero_de ruta) with
  | Some _ => true
  | None => false
  end.

(** [str(x)] for a date or [None]. *)
Definition str_fecha_opcional (x : option date) : string :=
  match x with
  | Some d => str_date d
  | None => "None"
  end.

#[local] Open Scope esc_scope.

(** The body of the [with] of [generar_recibo]. *)
Definition texto_recibo (moneda_actual : string) (proy : Proyecto) : Escritura.t unit :=
  let f_write := Escritura.write in
  let attr {A : Type} (f : Proyecto -> option A) := Escritura.attr (f proy) in
  f_write ("===========================================" ++ nl) ;;
  f_write ("             RECIBO DE PROYECTO            " ++ nl) ;;
  f_write ("===========================================" ++ nl ++ nl) ;;
  f_write ("1. DATOS GENERALES" ++ nl) ;;
  f_write ("   ID                         : " ++ pid proy ++ nl) ;;
  f_write ("   Tipo de Proyecto           : " ++ capitalize (tipo proy) ++ nl) ;;
  f_write ("   Fecha de Inicio            : " ++ str_date (fecha_inicio proy) ++ nl) ;;
  f_write ("   Direccion                  : " ++ direccion proy ++ nl ++ nl) ;;
  f_write ("2. AREAS Y TERRENO" ++ nl) ;;
  f_write ("   Area total del lote         : " ++ Format.coma_2f (area_lote proy) ++ " m2" ++ nl) ;;
  f_write ("   Precio terreno por m2       : " ++ formatear_valor moneda_actual (precio_terreno_m2 proy) ++ " /m2" ++ nl) ;;
  costo_terreno_total <- attr costo_terreno_total ;;
  f_write ("   Costo terreno total         : " ++ formatear_valor moneda_actual costo_terreno_total ++ nl) ;;
  f_write ("   % Area construida           : " ++ punto_0f (porc_construccion proy) ++ " %" ++ nl) ;;
  area_construida <- attr area_construida ;;
  f_write ("   Area construida             : " ++ Format.coma_2f area_construida ++ " m2" ++ nl) ;;
  area_no_construida <- attr area_no_construida ;;
  f_write ("   Area no construida          : " ++ Format.coma_2f area_no_construida ++ " m2" ++ nl ++ nl) ;;
  f_write ("3. RESTRICCIONES Y VIVIENDAS" ++ nl) ;;
  (if String.eqb (tipo proy) "edificio" then
     num_torres <- attr num_torres ;;
     f_write ("   Numero de torres            : " ++ str_int num_torres ++ nl) ;;
     aptos_por_torre <- attr aptos_por_torre ;;
     f_write ("   Aptos por torre             : " ++ str_int aptos_por_torre ++ nl)
   else Escritura.ret tt) ;;
  f_write ("   Habitaciones por unidad     : " ++ str_int (habitaciones proy) ++ nl) ;;
  area_min_vivienda <- attr area_min_vivienda ;;
  f_write ("   Area minima por unidad      : " ++ Format.coma_2f area_min_vivienda ++ " m2" ++ nl) ;;
  num_viviendas <- attr num_viviendas ;;
  f_write ("   Numero de unidades estimado : " ++ coma_d num_viviendas ++ nl) ;;
  valor_casa <- attr valor_casa ;;
  f_write ("   Valor por unidad            : " ++ formatear_valor moneda_actual valor_casa ++ nl ++ nl) ;;
  f_write ("4. COSTOS Y GANANCIAS" ++ nl) ;;
  costo_construccion_m2 <- attr costo_construccion_m2 ;;
  f_write ("   Costo construccion por m2          : " ++ formatear_valor moneda_actual costo_construccion_m2 ++ " /m2" ++ nl) ;;
  costo_construccion_total <- attr costo_construccion_total ;;
  f_write ("   Costo construccion total           : " ++ formatear_valor moneda_actual costo_construccion_total ++ nl) ;;
  presupuesto_total <- attr presupuesto_total ;;
  f_write ("   Presupuesto (terreno+construccion) : " ++ formatear_valor moneda_actual presupuesto_total ++ nl) ;;
  ganancia <- attr ganancia ;;
  f_write ("   Ganancia (20%)                     : " ++ formatear_valor moneda_actual ganancia ++ nl) ;;
  precio_venta_m2 <- attr precio_venta_m2 ;;
  f_write ("   Precio venta por m2 (derivado)     : " ++ formatear_valor moneda_actual precio_venta_m2 ++ " /m2" ++ nl) ;;
  precio_venta_total <- attr precio_venta_total ;;
  f_write ("   Precio venta total                 : " ++ formatear_valor moneda_actual precio_venta_total ++ nl ++ nl) ;;
  (if existsb (String.eqb (tipo proy)) ["casas"; "edificio"] then
     derivada <- Escritura.llamar (snd (calcular_derivada_valor_por_vivienda proy)) ;;
     match derivada with
     | Some derivada =>
         f_write ("   Derivada valor por unidad respecto num unidades: " ++ Format.coma_2f derivada ++ nl ++ nl)
     | None => Escritura.ret tt
     end
   else Escritura.ret tt) ;;
  f_write ("5. ZONAS SOCIALES" ++ nl) ;;
  f_write ("   " ++ join ", " (zonas_sociales proy) ++ nl ++ nl) ;;
  f_write ("6. FECHAS DE FINALIZACION" ++ nl) ;;
  f_write ("   Fecha estimada de finalizacion : " ++ str_date (fecha_estimada_final proy) ++ nl) ;;
  (if finalizado proy then
     f_write ("   Fecha real de finalizacion     : " ++ str_fecha_opcional (fecha_real_final proy) ++ nl)
   else Escritura.ret tt) ;;
  f_write (nl ++ "===========================================" ++ nl).

(** The path of the receipt of a project in a folder. *)
Definition ruta_recibo (carpeta : string) (proy : Proyecto) : string :=
  os_path_join carpeta (pid proy ++ ".txt").

Definition generar_recibo (moneda_actual : string) (proy : Proyecto) (disco : Disco)
  : Disco * (ErrorRecibo + string) :=
  let ruta := ruta_recibo "Proyectos" proy in
  if abre ruta disco then
    let '(texto, r) := texto_recibo moneda_actual proy "" in
    (escribir (fichero_de ruta) (Texto texto) disco,
     match r with
     | inr _ => inr ruta
     | inl e => inl (ErrorProyecto e)
     end)
  else (disco, inl OSError).

Definition mover_a_finalizados (proy : Proyecto) (disco : Disco)
  : Disco * (ErrorRecibo + option string) :=
  let origen := ruta_recibo "Proyectos" proy in
  let destino := ruta_recibo "ProyectosFinalizados" proy in
  if os_path_exists origen disco then
    if reemplaza origen destino disco then
      (os_replace origen destino disco, inr (Some destino))
    else (disco, inl OSError)
  else (disco, inr None).

End Recibos.

(** *** What the receipt needs and where it goes *)

Lemma string_app_inv_tail (a b s : string) : a ++ s = b ++ s -> a = b.
Proof.
  intro H. apply (f_equal list_ascii_of_string) in H.
  rewrite !list_ascii_of_string_app in H. apply app_inv_tail in H.
  apply (f_equal string_of_list_ascii) in H.
  rewrite !string_of_list_ascii_of_string in H. exact H.
Qed.

Lemma os_path_join_relativa (carpeta : string) (c : ascii) (b : string) :
  carpeta = "Proyectos" \/ carpeta = "ProyectosFinalizados" ->
  c <> "/"%char ->
  os_path_join carpeta (String c b) = carpeta ++ "/" ++ String c b.
Proof.
  intros Hc Hne. unfold os_path_join.
  destruct c as [[|] [|] [|] [|] [|] [|] [|] [|]];
    try (exfalso; apply Hne; reflexivity);
    destruct Hc as [-> | ->]; reflexivity.
Qed.

Section RecibosProps.

Variable capitalize : string -> string.
Variable str_date : date -> string.
Variable fichero_de : string -> string.
Variable abre : string -> Disco -> bool.
Variable reemplaza : string -> string -> Disco -> bool.

(** The receipt of a project whose id does not start with [/] is a file of
    the folder. *)
Lemma ruta_recibo_relativa (carpeta : string) (p : Proyecto) :
  carpeta = "Proyectos" \/ carpeta = "ProyectosFinalizados" ->
  (forall s, pid p <> String "/" s) ->
  ruta_recibo carpeta p = carpeta ++ "/" ++ pid p ++ ".txt".
Proof.
  intros Hc Hp. unfold ruta_recibo.
  destruct (pid p) as [| c s] eqn:E.
  - destruct Hc as [-> | ->]; reflexivity.
  - cbn [append]. apply os_path_join_relativa; [exact Hc | ].
    intros ->. exact (Hp s eq_refl).
Qed.

Lemma ruta_recibo_absoluta (carpeta : string) (p : Proyecto) (s : string) :
  pid p = String "/" s -> ruta_recibo carpeta p = pid p ++ ".txt".
Proof. intro E. unfold ruta_recibo, os_path_join. rewrite E. reflexivity. Qed.

Lemma ruta_recibo_inyectiva (carpeta : string) (p1 p2 : Proyecto) :
  carpeta = "Proyectos" \/ carpeta = "ProyectosFinalizados" ->
  ruta_recibo carpeta p1 = ruta_recibo carpeta p2 -> pid p1 = pid p2.
Proof.
  intros Hc H.
  assert (forall p, (exists s, pid p = String "/" s) \/ (forall s, pid p <> String "/" s))
    as Hcasos.
  { intro p. destruct (pid p) as [| c s]; [right; discriminate | ].
    destruct (Ascii.eqb_spec c "/") as [-> | Hne].
    - left. exists s. reflexivity.
    - right. intros s' [= E _]. contradiction. }
  destruct (Hcasos p1) as [[s1 E1] | H1], (Hcasos p2) as [[s2 E2] | H2].
  - rewrite (ruta_recibo_absoluta _ _ _ E1), (ruta_recibo_absoluta _ _ _ E2) in H.
    exact (string_app_inv_tail _ _ _ H).
  - rewrite (ruta_recibo_absoluta _ _ _ E1), (ruta_recibo_relativa _ _ Hc H2), E1 in H.
    destruct Hc as [-> | ->]; discriminate H.
  - rewrite (ruta_recibo_relativa _ _ Hc H1), (ruta_recibo_absoluta _ _ _ E2), E2 in H.
    destruct Hc as [-> | ->]; discriminate H.
  - rewrite (ruta_recibo_relativa _ _ Hc H1), (ruta_recibo_relativa _ _ Hc H2) in H.
    destruct Hc as [-> | ->]; cbn in H; injection H as H;
      exact (string_app_inv_tail _ _ _ H).
Qed.

(** Two projects with different ids have different receipts, in the folder
    of the projects and in the folder of the finished ones. *)
Theorem recibos_distintos (p1 p2 : Proyecto) :
  pid p1 <> pid p2 ->
  ruta_recibo "Proyectos" p1 <> ruta_recibo "Proyectos" p2 /\
  ruta_recibo "ProyectosFinalizados" p1 <> ruta_recibo "ProyectosFinalizados" p2.
Proof.
  intro H. split; intro E; apply H.
  - exact (ruta_recibo_inyectiva "Proyectos" p1 p2 (or_introl eq_refl) E).
  - exact (ruta_recibo_inyectiva "ProyectosFinalizados" p1 p2 (or_intror eq_refl) E).
Qed.

(** A receipt that has been written is moved to the folder of the finished
    projects with its text.  When the file of the receipt can be opened and
    moved, and its path and the path in the folder of the finished projects
    name two files, the receipt is afterwards the file of the second path
    and the first path names no file, and no other file changes; when the two
    paths name one file (an id such as "../ProyectosFinalizados/x"), the
    files stay as they are. *)
Theorem recibo_archivado (moneda_actual : string) (p : Proyecto) (disco : Disco) :
  let origen := ruta_recibo "Proyectos" p in
  let destino := ruta_recibo "ProyectosFinalizados" p in
  let disco1 := fst (generar_recibo capitalize str_date fichero_de abre moneda_actual p disco) in
  abre origen disco = true -> reemplaza origen destino disco1 = true ->
  let '(disco2, r) := mover_a_finalizados fichero_de reemplaza p disco1 in
  r = inr (Some destino) /\ disco1 (fichero_de origen) <> None /\
  (fichero_de origen <> fichero_de destino ->
   disco2 (fichero_de destino) = disco1 (fichero_de origen) /\
   disco2 (fichero_de origen) = None /\
   forall f, f <> fichero_de origen -> f <> fichero_de destino -> disco2 f = disco f) /\
  (fichero_de origen = fichero_de destino -> forall f, disco2 f = disco1 f).
Proof.
  intros origen destino disco1 Ha Hr.
  assert (disco1 (fichero_de origen) <> None /\
          forall f, f <> fichero_de origen -> disco1 f = disco f) as [H1 H1'].
  { unfold disco1, generar_recibo. fold origen. rewrite Ha.
    destruct (texto_recibo capitalize str_date moneda_actual p "") as [texto r].
    cbn [fst]. unfold escribir. rewrite String.eqb_refl.
    split; [discriminate | ].
    intros f Hf. destruct (String.eqb_spec f (fichero_de origen)); [contradiction | ].
    reflexivity. }
  unfold mover_a_finalizados, os_path_exists. fold origen destino.
  destruct (disco1 (fichero_de origen)) as [x | ] eqn:E; [ | contradiction].
  rewrite Hr. split; [reflexivity | ]. split; [discriminate | ].
  unfold os_replace. split.
  - intro Hne. split; [rewrite String.eqb_refl; exact E | ].
    split.
    + destruct (String.eqb_spec (fichero_de origen) (fichero_de destino));
        [contradiction | ].
      rewrite String.eqb_refl. reflexivity.
    + intros f Ho Hd.
      destruct (String.eqb_spec f (fichero_de destino)); [contradiction | ].
      destruct (String.eqb_spec f (fichero_de origen)); [contradiction | ].
      apply H1'. exact Ho.
  - intros Heq f. rewrite <- Heq.
    destruct (String.eqb_spec f (fichero_de origen)) as [-> | Hne]; reflexivity.
Qed.

(** A piece of the receipt that is written whole. *)
Definition sin_error {A : Type} (c : Escritura.t A) : Prop :=
  forall texto, exists texto' a, c texto = (texto', inr a).

Lemma sin_error_ret {A : Type} (a : A) : sin_error (Escritura.ret a).
Proof. intro t. exists t, a. reflexivity. Qed.

Lemma sin_error_write (s : string) : sin_error (Escritura.write s).
Proof. intro t. exists (t ++ s), tt. reflexivity. Qed.

Lemma sin_error_attr {A : Type} (o : option A) : o <> None -> sin_error (Escritura.attr o).
Proof.
  intros H t. destruct o as [v | ]; [ | contradiction]. exists t, v. reflexivity.
Qed.

Lemma sin_error_bind {A B : Type} (c : Escritura.t A) (k : A -> Escritura.t B) :
  sin_error c -> (forall a, sin_error (k a)) -> sin_error (Escritura.bind c k).
Proof.
  intros Hc Hk t. unfold Escritura.bind.
  destruct (Hc t) as (t1 & a & ->). exact (Hk a t1).
Qed.

(** Every attribute the receipt reads has been assigned. *)
Definition asignados (p' : Proyecto) : Prop :=
  area_construida p' <> None /\ area_no_construida p' <> None /\
  area_min_vivienda p' <> None /\ num_viviendas p' <> None /\
  costo_terreno_total p' <> None /\ costo_construccion_m2 p' <> None /\
  costo_construccion_total p' <> None /\ presupuesto_total p' <> None /\
  ganancia p' <> None /\ precio_venta_m2 p' <> None /\
  precio_venta_total p' <> None /\ valor_casa p' <> None /\
  (tipo p' = "edificio" -> num_torres p' <> None /\ aptos_por_torre p' <> None).

Lemma recalculado_asignados (p p' : Proyecto) : recalculado p p' -> asignados p'.
Proof.
  intro H. unfold asignados. ejecuta H.
  all: repeat match goal with
         | H : String.eqb _ _ = false |- _ => apply String.eqb_neq in H
         | H : String.eqb _ _ = true |- _ => apply String.eqb_eq in H
         end.
  all: repeat split; try discriminate.
  all: intro Ht; first [split; discriminate | congruence].
Qed.

Lemma derivada_sin_error (p' : Proyecto) :
  area_min_vivienda p' <> None ->
  exists r, snd (calcular_derivada_valor_por_vivienda p') = inr r.
Proof.
  intro H. unfold calcular_derivada_valor_por_vivienda, bind, field, attr, ret.
  cbv beta iota zeta.
  destruct (String.eqb (tipo p') "casas");
    [ | destruct (String.eqb (tipo p') "edificio") ];
    cbv beta iota zeta;
    try (destruct (area_min_vivienda p') as [m | ]; [ | contradiction]);
    eexists; reflexivity.
Qed.

Lemma texto_recibo_sin_error (moneda_actual : string) (p' : Proyecto) :
  asignados p' -> sin_error (texto_recibo capitalize str_date moneda_actual p').
Proof.
  intros (H1 & H2 & H3 & H4 & H5 & H6 & H7 & H8 & H9 & H10 & H11 & H12 & H13).
  unfold texto_recibo. cbv zeta.
  repeat first
    [ apply sin_error_write
    | apply sin_error_ret
    | apply sin_error_attr; assumption
    | apply sin_error_bind; [ | intro ] ].
  - destruct (String.eqb_spec (tipo p') "edificio") as [E | _];
      [ | apply sin_error_ret].
    destruct (H13 E) as [Ht Ha].
    repeat first
      [ apply sin_error_write
      | apply sin_error_attr; assumption
      | apply sin_error_bind; [ | intro ] ].
  - destruct (existsb _ _); [ | apply sin_error_ret].
    apply sin_error_bind.
    + intro t. unfold Escritura.llamar.
      destruct (derivada_sin_error p' H3) as (r & ->). exists t, r. reflexivity.
    + intros [d | ]; [apply sin_error_write | apply sin_error_ret].
  - destruct (finalizado p'); [apply sin_error_write | apply sin_error_ret].
Qed.

(** After a recomputation [generar_recibo] finds every attribute it reads,
    for every type of project and whatever the currency: it raises no
    [AttributeError].  If the file of the receipt can be opened, the whole
    receipt is written to it and its path is returned; if not, the [OSError]
    of [open] is raised and the files stay as they are. *)
Theorem recibo_sin_error (moneda_actual : string) (p p' : Proyecto) (disco : Disco) :
  recalculado p p' ->
  let ruta := ruta_recibo "Proyectos" p' in
  exists texto,
    texto_recibo capitalize str_date moneda_actual p' "" = (texto, inr tt) /\
    generar_recibo capitalize str_date fichero_de abre moneda_actual p' disco =
      if abre ruta disco
      then (escribir (fichero_de ruta) (Texto texto) disco, inr ruta)
      else (disco, inl OSError).
Proof.
  intros H ruta. unfold generar_recibo. fold ruta.
  destruct (texto_recibo_sin_error moneda_actual p' (recalculado_asignados p p' H) "")
    as (texto & [] & E).
  exists texto. split; [exact E | ]. rewrite E. reflexivity.
Qed.

End RecibosProps.

Lemma recibos_distintos_witness :
  ruta_recibo "Proyectos" proyecto_casas_100 <> ruta_recibo "Proyectos" edificio_2000 /\
  ruta_recibo "ProyectosFinalizados" proyecto_casas_100 <>
  ruta_recibo "ProyectosFinalizados" edificio_2000.
Proof. apply recibos_distintos. vm_compute. discriminate. Defined.

Lemma recibo_archivado_witness :
  let disco1 :=
    fst (generar_recibo (fun s => s) str_int (fun r => r) (fun _ _ => true) "COP"
           edificio_2000 (fun _ => None)) in
  snd (mover_a_finalizados (fun r => r) (fun _ _ _ => true) edificio_2000 disco1) =
    inr (Some "ProyectosFinalizados/E1.txt") /\
  fst (mover_a_finalizados (fun r => r) (fun _ _ _ => true) edificio_2000 disco1)
    "Proyectos/E1.txt" = None.
Proof.
  pose proof (recibo_archivado (fun s => s) str_int (fun r => r) (fun _ _ => true)
                (fun _ _ _ => true) "COP" edificio_2000 (fun _ => None) eq_refl eq_refl)
    as H.
  cbv zeta in H.
  destruct (mover_a_finalizados (fun r => r) (fun _ _ _ => true) edificio_2000
              (fst (generar_recibo (fun s => s) str_int (fun r => r) (fun _ _ => true)
                      "COP" edificio_2000 (fun _ => None))))
    as [disco2 r] eqn:E.
  destruct H as (Hr & _ & Hd & _).
  destruct (Hd ltac:(vm_compute; discriminate)) as (_ & Ho & _).
  cbv zeta. rewrite E. cbn [fst snd]. split; [exact Hr | exact Ho].
Defined.

Lemma recibo_sin_error_witness :
  snd (generar_recibo (fun s => s) str_int (fun r => r) (fun _ _ => true) "USD"
         edificio_2000 (fun _ => None)) = inr "Proyectos/E1.txt".
Proof.
  destruct (recibo_sin_error (fun s => s) str_int (fun r => r) (fun _ _ => true) "USD"
              edificio_2000 edificio_2000 (fun _ => None) ltac:(vm_compute; reflexivity))
    as (texto & _ & E).
  rewrite E. reflexivity.
Defined.
